(** * password_store: the secret cache of [actions/secrets.go]

    A shallow embedding of [SecretsResource] (Load, ensureLoaded, List,
    Show), of the helpers [readIDs], [readSecret], [enarmor] and
    [normalize], and of the parts of the Go libraries they call
    ([strings], [path], [path/filepath], [unicode/utf8], [bufio],
    [encoding/base64], [openpgp/armor], [os/exec], [sync.RWMutex]).

    Go strings and byte slices are sequences of bytes: they are embedded as
    [string] (a list of 8-bit [ascii]).  A Go [error] is embedded as its
    message; the [nil] error is [None]. *)

From Stdlib Require Import ZArith String Ascii List Bool Lia.
From stdpp Require Import gmap strings list.

Local Open Scope string_scope.
Local Open Scope list_scope.
Local Open Scope Z_scope.

(** ** Errors *)

Definition error := string.

(** [errors.Wrap(err, msg)]: the message of the wrapped error is
    [msg + ": " + err.Error()]. *)
Definition Wrap (err : error) (msg : string) : error :=
  msg +:+ ": " +:+ err.

(** ** Package [strings] *)

Module GoStrings.

(** The slice expression [s[lo:hi]]. *)
Definition slice (s : string) (lo hi : nat) : string :=
  substring lo (hi - lo) s.

Fixpoint HasPrefix (s prefix : string) : bool :=
  match prefix, s with
  | EmptyString, _ => true
  | String _ _, EmptyString => false
  | String c prefix', String d s' =>
      if Ascii.eqb c d then HasPrefix s' prefix' else false
  end.

Definition HasSuffix (s suffix : string) : bool :=
  (String.length suffix <=? String.length s)%nat &&
  String.eqb
    (slice s (String.length s - String.length suffix) (String.length s))
    suffix.

Definition TrimPrefix (s prefix : string) : string :=
  if HasPrefix s prefix
  then slice s (String.length prefix) (String.length s)
  else s.

Definition TrimSuffix (s suffix : string) : string :=
  if HasSuffix s suffix
  then slice s 0 (String.length s - String.length suffix)
  else s.

(** [strings.LastIndex(s, "/")]: the index of the last slash, or -1. *)
Fixpoint LastIndexSlash_from (s : string) (i : Z) (found : Z) : Z :=
  match s with
  | EmptyString => found
  | String c s' =>
      LastIndexSlash_from s' (i + 1) (if Ascii.eqb c "/" then i else found)
  end.

Definition LastIndexSlash (s : string) : Z := LastIndexSlash_from s 0 (-1).

End GoStrings.

(** ** Package [path] (and [path/filepath] on a Unix system, where the
    separator is the slash and there are no volume names) *)

Module GoPath.
Import GoStrings.

(** The [..] case of [Clean]: [out.w--] and then
    [for out.w > dotdot && out.index(out.w) != '/' { out.w-- }];
    [back out dotdot w] is the final value of [out.w], started from the
    already decremented [w]. *)
Fixpoint back (out : list ascii) (dotdot w : nat) : nat :=
  match w with
  | O => O
  | S w' =>
      if (dotdot <? w)%nat && negb (Ascii.eqb (nth w out "000"%char) "/")
      then back out dotdot w'
      else w
  end.

(** The copy loop of a real path element:
    [for ; r < n && path[r] != '/'; r++ { out.append(path[r]) }]. *)
Fixpoint copy_element (rest out : list ascii) : list ascii * list ascii :=
  match rest with
  | [] => ([], out)
  | c :: rest' =>
      if Ascii.eqb c "/" then (rest, out)
      else copy_element rest' (out ++ [c])
  end.

(** The main loop of [Clean].  [rest] is [path[r:]], [out] is the
    buffer [out.buf[:out.w]].  Every iteration consumes at least one byte
    of [rest], so [length path] iterations are enough. *)
Fixpoint clean_loop (fuel : nat) (rooted : bool)
    (rest out : list ascii) (dotdot : nat) : list ascii :=
  match fuel with
  | O => out
  | S fuel' =>
      match rest with
      | [] => out
      | c :: rest1 =>
          if Ascii.eqb c "/" then
            (* empty path element *)
            clean_loop fuel' rooted rest1 out dotdot
          else if Ascii.eqb c "."
                  && match rest1 with
                     | [] => true
                     | d :: _ => Ascii.eqb d "/"
                     end then
            (* . element *)
            clean_loop fuel' rooted rest1 out dotdot
          else if Ascii.eqb c "."
                  && match rest1 with
                     | d :: [] => Ascii.eqb d "."
                     | d :: e :: _ => Ascii.eqb d "." && Ascii.eqb e "/"
                     | [] => false
                     end then
            (* .. element: remove to last / *)
            let rest2 := tl rest1 in
            if (dotdot <? length out)%nat then
              let w := back out dotdot (length out - 1) in
              clean_loop fuel' rooted rest2 (firstn w out) dotdot
            else if negb rooted then
              let out1 := if (0 <? length out)%nat then out ++ ["/"%char] else out in
              let out2 := out1 ++ ["."%char; "."%char] in
              clean_loop fuel' rooted rest2 out2 (length out2)
            else
              clean_loop fuel' rooted rest2 out dotdot
          else
            (* real path element: add slash if needed, copy element *)
            let out1 :=
              if (rooted && negb (length out =? 1)%nat)
                 || (negb rooted && negb (length out =? 0)%nat)
              then out ++ ["/"%char] else out in
            let '(rest2, out2) := copy_element rest out1 in
            clean_loop fuel' rooted rest2 out2 dotdot
      end
  end.

Definition Clean (path : string) : string :=
  match list_ascii_of_string path with
  | [] => "."
  | (c :: _) as p =>
      let rooted := Ascii.eqb c "/" in
      let out :=
        if rooted
        then clean_loop (length p) rooted (tl p) ["/"%char] 1
        else clean_loop (length p) rooted p [] 0 in
      (* Turn empty string into "." *)
      match out with
      | [] => "."
      | _ => string_of_list_ascii out
      end
  end.

(** [Split]: [i := strings.LastIndex(path, "/")], then
    [path[:i+1], path[i+1:]]. *)
Definition Split (path : string) : string * string :=
  let i := LastIndexSlash path in
  (slice path 0 (Z.to_nat (i + 1)),
   slice path (Z.to_nat (i + 1)) (String.length path)).

Definition Dir (path : string) : string := Clean (fst (Split path)).

(** The loop of [Base] that strips trailing slashes:
    [for len(path) > 0 && path[len(path)-1] == '/']. *)
Fixpoint strip_trailing_slashes (fuel : nat) (path : string) : string :=
  match fuel with
  | O => path
  | S fuel' =>
      let n := String.length path in
      if (0 <? n)%nat
         && match String.get (n - 1) path with
            | Some c => Ascii.eqb c "/"
            | None => false
            end
      then strip_trailing_slashes fuel' (slice path 0 (n - 1))
      else path
  end.

Definition Base (path : string) : string :=
  if String.eqb path "" then "."
  else
    let path1 := strip_trailing_slashes (String.length path) path in
    let i := LastIndexSlash path1 in
    let path2 :=
      if 0 <=? i
      then slice path1 (Z.to_nat (i + 1)) (String.length path1)
      else path1 in
    if String.eqb path2 "" then "/" else path2.

(** [Join(dir, name)] for two non-empty elements:
    [Clean(dir + "/" + name)]. *)
Definition Join (dir name : string) : string :=
  if String.eqb dir "" then (if String.eqb name "" then "" else Clean name)
  else if String.eqb name "" then Clean dir
  else Clean (dir +:+ "/" +:+ name).

End GoPath.

(** ** Package [path/filepath]: [Match] and [Walk] *)

Module GoFilepath.
Import GoStrings.

(** On Unix [filepath.Dir], [filepath.Clean] and [filepath.Join] run the
    algorithm of package [path]. *)
Definition Dir := GoPath.Dir.
Definition Join := GoPath.Join.

(** [matchChunk] for a chunk of literal bytes (no [[], [?] or backslash):
    the rest of [s] when [s] begins with [chunk]. *)
Fixpoint matchChunk (chunk s : string) : option string :=
  match chunk, s with
  | EmptyString, _ => Some s
  | String _ _, EmptyString => None
  | String c chunk', String d s' =>
      if Ascii.eqb c d then matchChunk chunk' s' else None
  end.

(** The loop of [Match] that skips bytes for a star,
    [for i := 0; i < len(name) && name[i] != '/'; i++], when the chunk is
    the last one of the pattern: a match must exhaust the name. *)
Fixpoint star_skip (chunk name : string) : bool :=
  match name with
  | EmptyString => false
  | String c name' =>
      if Ascii.eqb c "/" then false
      else match matchChunk chunk name' with
           | Some EmptyString => true
           | _ => star_skip chunk name'
           end
  end.

(** [Match("*" + chunk, name)] for a literal [chunk]: [scanChunk] yields
    the star and the chunk and leaves the empty pattern. *)
Definition Match_star (chunk name : string) : bool :=
  match matchChunk chunk name with
  | Some EmptyString => true
  | _ => star_skip chunk name
  end.

(** [os.FileInfo], as far as the walk uses it. *)
Record FileInfo := { Name : string; IsDir : bool }.

(** What [Lstat] and [readDirNames] report below a root.  The entries of
    a directory are in the order [readDirNames] returns them. *)
#[warnings="-register-all"]
Inductive node :=
| File (name : string)
| Directory (name : string) (readErr : option error) (entries : list node)
| Unstat (name : string) (lstatErr : error).

Definition node_name (n : node) : string :=
  match n with
  | File name | Directory name _ _ | Unstat name _ => name
  end.

Definition node_is_dir (n : node) : bool :=
  match n with Directory _ _ _ => true | _ => false end.

(** The [error] a [WalkFunc] returns: [nil], [SkipDir] or another error. *)
Inductive walk_result := WNil | WSkipDir | WErr (e : error).

(** The arguments [(info, err)] of a [WalkFunc]: [info] with a [nil]
    error, or an error with the [info] that is known, if any. *)
Inductive walk_arg :=
| Visit (info : FileInfo)
| Failed (info : option FileInfo) (err : error).

Section Walk.
(** The walk function with the state it closes over. *)
Context {St : Type}.
Variable walkFn : string -> walk_arg -> St -> St * walk_result.

(** [Lstat] of [path] followed by [walk(path, info, walkFn)], or by the
    call of [walkFn] with the error of [Lstat].  [walk] hands a file to
    [walkFn]; a directory it reads first ([readDirNames]) and then calls
    [walkFn] once, with the error of reading it, if there is one.  When
    the directory could not be read or [walkFn] returns an error
    ([SkipDir] is one), [walk] returns what [walkFn] returned; else it
    walks the entries.  The caller takes [SkipDir] from a directory as
    the end of that directory. *)
Fixpoint lstat_walk (path : string) (n : node) (st : St) : St * walk_result :=
  match n with
  | Unstat _ e => walkFn path (Failed None e) st
  | File name => walkFn path (Visit {| Name := name; IsDir := false |}) st
  | Directory name readErr entries =>
      let info := {| Name := name; IsDir := true |} in
      let '(st1, r) :=
        walkFn path
          match readErr with
          | None => Visit info
          | Some e => Failed (Some info) e
          end st in
      match readErr, r with
      | None, WNil =>
          (fix entries_loop (l : list node) (st : St) : St * walk_result :=
             match l with
             | [] => (st, WNil)
             | c :: l' =>
                 let filename := Join path (node_name c) in
                 let '(st', r) := lstat_walk filename c st in
                 match c, r with
                 | _, WNil => entries_loop l' st'
                 | _, WErr e => (st', WErr e)
                 | Unstat _ _, WSkipDir => entries_loop l' st'
                 | Directory _ _ _, WSkipDir => entries_loop l' st'
                 | File _, WSkipDir => (st', WSkipDir)
                 end
             end) entries st1
      | _, _ => (st1, r)
      end
  end.

(** [Walk(root, walkFn)]: [SkipDir] at the root is not an error. *)
Definition Walk (root : string) (n : node) (st : St) : St * option error :=
  let '(st', r) := lstat_walk root n st in
  match r with
  | WErr e => (st', Some e)
  | _ => (st', None)
  end.
End Walk.

End GoFilepath.

(** ** Bytes as numbers *)

Definition byteZ (c : ascii) : Z := Z.of_N (N_of_ascii c).
Definition Zbyte (z : Z) : ascii := ascii_of_N (Z.to_N (z mod 256)).

(** ** Package [unicode/utf8] and the [range] loop over a string *)

Module GoUtf8.

Definition RuneError : Z := 0xFFFD.

(** The table [first] with [acceptRanges]: for a leading byte, [None]
    when it is ASCII or invalid (the entries [as] and [xx], both of size
    1), else the size of the sequence and the accepted range of its
    second byte. *)
Definition first (b : Z) : option (nat * Z * Z) :=
  if b <? 0xC2 then None
  else if b <? 0xE0 then Some (2%nat, 0x80, 0xBF)
  else if b =? 0xE0 then Some (3%nat, 0xA0, 0xBF)
  else if b <? 0xED then Some (3%nat, 0x80, 0xBF)
  else if b =? 0xED then Some (3%nat, 0x80, 0x9F)
  else if b <? 0xF0 then Some (3%nat, 0x80, 0xBF)
  else if b =? 0xF0 then Some (4%nat, 0x90, 0xBF)
  else if b <? 0xF4 then Some (4%nat, 0x80, 0xBF)
  else if b =? 0xF4 then Some (4%nat, 0x80, 0x8F)
  else None.

Definition cont (b : Z) : bool := (0x80 <=? b) && (b <=? 0xBF).

(** [DecodeRuneInString]: the rune at the start of [s] and its width in
    bytes; an invalid or short sequence is [RuneError] of width 1. *)
Definition DecodeRuneInString (s : list ascii) : Z * nat :=
  match s with
  | [] => (RuneError, 0%nat)
  | c0 :: s' =>
      let s0 := byteZ c0 in
      match first s0 with
      | None => (if s0 <? 0x80 then s0 else RuneError, 1%nat)
      | Some (sz, lo, hi) =>
          if (length s <? sz)%nat then (RuneError, 1%nat)
          else
            let s1 := byteZ (nth 1 s "000"%char) in
            if (s1 <? lo) || (hi <? s1) then (RuneError, 1%nat)
            else if (sz <=? 2)%nat then
              (Z.lor (Z.shiftl (Z.land s0 0x1F) 6) (Z.land s1 0x3F), 2%nat)
            else
              let s2 := byteZ (nth 2 s "000"%char) in
              if negb (cont s2) then (RuneError, 1%nat)
              else if (sz <=? 3)%nat then
                (Z.lor (Z.lor (Z.shiftl (Z.land s0 0x0F) 12)
                              (Z.shiftl (Z.land s1 0x3F) 6))
                       (Z.land s2 0x3F), 3%nat)
              else
                let s3 := byteZ (nth 3 s "000"%char) in
                if negb (cont s3) then (RuneError, 1%nat)
                else
                  (Z.lor (Z.lor (Z.lor (Z.shiftl (Z.land s0 0x07) 18)
                                       (Z.shiftl (Z.land s1 0x3F) 12))
                                (Z.shiftl (Z.land s2 0x3F) 6))
                         (Z.land s3 0x3F), 4%nat)
      end
  end.

(** [for i, r := range s]: the pairs of the byte index at which a rune
    starts and the rune.  [rest] is [s[i:]]; every step consumes at least
    one byte, so [length rest] steps are enough. *)
Fixpoint range_from (fuel : nat) (i : nat) (rest : list ascii) : list (nat * Z) :=
  match fuel with
  | O => []
  | S fuel' =>
      match rest with
      | [] => []
      | _ :: _ =>
          let '(r, w) := DecodeRuneInString rest in
          (i, r) :: range_from fuel' (i + w)%nat (skipn w rest)
      end
  end.

Definition range (s : list ascii) : list (nat * Z) :=
  range_from (length s) 0%nat s.

End GoUtf8.

(** ** Lines *)

Definition nl : ascii := "010"%char.

(** A piece of text without a newline. *)
Definition no_nl (l : list ascii) : Prop :=
  Forall (fun c => Ascii.eqb c nl = false) l.

(** The lines of a text: the pieces between its newlines.  [line] holds
    the bytes of the piece that is being read. *)
Fixpoint split_lines (l line : list ascii) : list (list ascii) :=
  match l with
  | [] => [line]
  | c :: l' =>
      if Ascii.eqb c "010"%char then line :: split_lines l' []
      else split_lines l' (line ++ [c])
  end.

(** ** Package [bufio]: a [Scanner] with the default split function
    [ScanLines] reading a file *)

(** A file that was opened: reading it yields [data] and then the end of
    the file or the read error [readErr]; closing it returns [closeErr]. *)
Record file := { data : string; readErr : option error; closeErr : option error }.

Module GoBufio.

Definition MaxScanTokenSize : N := 65536.
Definition ErrTooLong : error := "bufio.Scanner: token too long".

(** [dropCR]: a line without its trailing carriage return. *)
Definition dropCR (line : list ascii) : list ascii :=
  match rev line with
  | c :: r => if Ascii.eqb c "013"%char then rev r else line
  | [] => line
  end.

(** The tokens that the calls of [Scan] return, and the value of [Err]
    when [Scan] first returns false.  [line] holds the bytes read since
    the last token.  A token ends at a newline ([ScanLines] returns
    [dropCR(data[0:i])]) or with the input (the last line, when it is not
    empty); when the buffer, which grows to [MaxScanTokenSize] bytes, is
    full of bytes without a newline, the scanner stops with
    [ErrTooLong]. *)
Fixpoint scan_lines (rest line : list ascii) (last : option error)
    : list string * option error :=
  match rest with
  | [] =>
      match line with
      | [] => ([], last)
      | _ => ([string_of_list_ascii (dropCR line)], last)
      end
  | c :: rest' =>
      if Ascii.eqb c "010"%char then
        let '(toks, e) := scan_lines rest' [] last in
        (string_of_list_ascii (dropCR line) :: toks, e)
      else if (MaxScanTokenSize <=? N.of_nat (length line) + 1)%N then
        ([], Some ErrTooLong)
      else scan_lines rest' (line ++ [c]) last
  end.

(** A line that fits the buffer of the scanner. *)
Definition short (l : list ascii) : Prop :=
  (N.of_nat (length l) < MaxScanTokenSize)%N.

Definition Scanner_tokens (f : file) : list string * option error :=
  scan_lines (list_ascii_of_string (data f)) [] (readErr f).

End GoBufio.

(** ** Package [encoding/base64]: [StdEncoding] *)

Module GoBase64.

Definition encodeStd : string :=
  "ABCDEFGHIJKLMNOPQRSTUVWXYZabcdefghijklmnopqrstuvwxyz0123456789+/".

Definition pad : ascii := "="%char.

(** [enc.encode[v]] for a 6-bit value. *)
Definition enc (v : Z) : ascii :=
  match String.get (Z.to_nat v) encodeStd with
  | Some c => c
  | None => pad
  end.

(** [enc.decodeMap[c]]: the value of a byte of the alphabet. *)
Definition dec (c : ascii) : option Z :=
  let b := byteZ c in
  if (65 <=? b) && (b <=? 90) then Some (b - 65)
  else if (97 <=? b) && (b <=? 122) then Some (b - 71)
  else if (48 <=? b) && (b <=? 57) then Some (b + 4)
  else if b =? 43 then Some 62
  else if b =? 47 then Some 63
  else None.

(** [Encode]: three bytes make the 24-bit value
    [src[0]<<16 | src[1]<<8 | src[2]], written as four bytes of the
    alphabet; a remainder of one or two bytes is padded. *)
Fixpoint Encode (src : list ascii) : list ascii :=
  match src with
  | [] => []
  | [a] =>
      let val := Z.shiftl (byteZ a) 16 in
      [enc (Z.land (Z.shiftr val 18) 0x3F); enc (Z.land (Z.shiftr val 12) 0x3F);
       pad; pad]
  | [a; b] =>
      let val := Z.lor (Z.shiftl (byteZ a) 16) (Z.shiftl (byteZ b) 8) in
      [enc (Z.land (Z.shiftr val 18) 0x3F); enc (Z.land (Z.shiftr val 12) 0x3F);
       enc (Z.land (Z.shiftr val 6) 0x3F); pad]
  | a :: b :: c :: rest =>
      let val := Z.lor (Z.lor (Z.shiftl (byteZ a) 16) (Z.shiftl (byteZ b) 8))
                       (byteZ c) in
      enc (Z.land (Z.shiftr val 18) 0x3F) :: enc (Z.land (Z.shiftr val 12) 0x3F)
      :: enc (Z.land (Z.shiftr val 6) 0x3F) :: enc (Z.land val 0x3F)
      :: Encode rest
  end.

(** [Decode] of input without line breaks: quantums of four bytes, the
    last one possibly padded. *)
Fixpoint Decode (src : list ascii) : option (list ascii) :=
  match src with
  | [] => Some []
  | c0 :: c1 :: c2 :: c3 :: rest =>
      match dec c0, dec c1 with
      | Some v0, Some v1 =>
          if Ascii.eqb c3 pad then
            match rest with
            | [] =>
                if Ascii.eqb c2 pad then
                  Some [Zbyte (Z.lor (Z.shiftl v0 2) (Z.shiftr v1 4))]
                else
                  match dec c2 with
                  | Some v2 =>
                      Some [Zbyte (Z.lor (Z.shiftl v0 2) (Z.shiftr v1 4));
                            Zbyte (Z.lor (Z.shiftl v1 4) (Z.shiftr v2 2))]
                  | None => None
                  end
            | _ => None
            end
          else
            match dec c2, dec c3, Decode rest with
            | Some v2, Some v3, Some out =>
                Some (Zbyte (Z.lor (Z.shiftl v0 2) (Z.shiftr v1 4))
                      :: Zbyte (Z.lor (Z.shiftl v1 4) (Z.shiftr v2 2))
                      :: Zbyte (Z.lor (Z.shiftl v2 6) v3)
                      :: out)
            | _, _, _ => None
            end
      | _, _ => None
      end
  | _ => None
  end.

End GoBase64.

(** ** Package [openpgp/armor] (RFC 4880, section 6) *)

Module GoArmor.

Definition crc24Init : Z := 0xb704ce.
Definition crc24Poly : Z := 0x1864cfb.
Definition crc24Mask : Z := 0xffffff.

(** The inner loop of [crc24], on a [uint32]:
    [crc <<= 1; if crc&0x1000000 != 0 { crc ^= crc24Poly }]. *)
Fixpoint crc24_bits (i : nat) (crc : Z) : Z :=
  match i with
  | O => crc
  | S i' =>
      let crc1 := Z.shiftl crc 1 mod 2 ^ 32 in
      crc24_bits i'
        (if Z.land crc1 0x1000000 =? 0 then crc1 else Z.lxor crc1 crc24Poly)
  end.

(** The body of [for _, b := range d]. *)
Definition crc24_byte (crc : Z) (b : ascii) : Z :=
  crc24_bits 8 (Z.lxor crc (Z.shiftl (byteZ b) 16)).

Definition crc24 (crc : Z) (d : list ascii) : Z :=
  fold_left crc24_byte d crc.

(** The lines a [lineBreaker] of line length [n] makes of what is written
    to it. *)
Fixpoint chunks (fuel n : nat) (l : list ascii) : list (list ascii) :=
  match fuel with
  | O => []
  | S fuel' =>
      match l with
      | [] => []
      | _ :: _ => firstn n l :: chunks fuel' n (skipn n l)
      end
  end.

(** The lines joined by newlines: the breaker writes a newline before
    the first byte that follows a full line. *)
Fixpoint join_lines (ls : list (list ascii)) : list ascii :=
  match ls with
  | [] => []
  | [l] => l
  | l :: ls' => l ++ "010"%char :: join_lines ls'
  end.

Definition armorStart : string := "-----BEGIN ".
Definition armorEnd : string := "-----END ".
Definition armorEndOfLine : string := "-----".
Definition newline : list ascii := ["010"%char].

(** Everything written to [out] from [Encode(out, blockType, nil)] to the
    [Close] of the encoder, when [d] is what was written to the encoder:
    the start line, the empty line that ends the (absent) headers, the
    base64 text in lines of 64 bytes, the checksum line and the end
    line.  The writes go to a [bytes.Buffer] and cannot fail. *)
Definition Encode (blockType : string) (d : list ascii) : list ascii :=
  let crc := crc24 crc24Init d in
  let checksumBytes :=
    [Zbyte (Z.shiftr crc 16); Zbyte (Z.shiftr crc 8); Zbyte crc] in
  let b64 := GoBase64.Encode d in
  list_ascii_of_string (armorStart +:+ blockType +:+ armorEndOfLine)
  ++ newline ++ newline
  ++ join_lines (chunks (length b64) 64 b64)
  ++ newline ++ [GoBase64.pad] ++ GoBase64.Encode checksumBytes
  ++ newline
  ++ list_ascii_of_string (armorEnd +:+ blockType +:+ armorEndOfLine).

(** The body of a block as the [lineReader] of [Decode] reads it: the
    lines up to the checksum line (five bytes, the first one [=]), the
    checksum, and the end line, which must begin with [armorEnd]. *)
Fixpoint read_body (ls : list (list ascii)) (body : list ascii)
    : option (list ascii * Z) :=
  match ls with
  | [] => None
  | l :: ls' =>
      match l with
      | [c0; c1; c2; c3; c4] =>
          if Ascii.eqb c0 GoBase64.pad then
            match GoBase64.Decode [c1; c2; c3; c4], ls' with
            | Some [e0; e1; e2], endLine :: _ =>
                if GoStrings.HasPrefix (string_of_list_ascii endLine) armorEnd
                then Some (body,
                           Z.lor (Z.lor (Z.shiftl (byteZ e0) 16)
                                        (Z.shiftl (byteZ e1) 8)) (byteZ e2))
                else None
            | _, _ => None
            end
          else read_body ls' (body ++ l)
      | _ => read_body ls' (body ++ l)
      end
  end.

(** [Decode] followed by reading the whole body of the block: the start
    line, no headers, the base64 text, whose checksum must be the one of
    the checksum line. *)
Definition Decode (blockType : string) (text : list ascii) : option (list ascii) :=
  match split_lines text [] with
  | start :: [] :: ls =>
      if String.eqb (string_of_list_ascii start)
           (armorStart +:+ blockType +:+ armorEndOfLine)
      then
        match read_body ls [] with
        | Some (body, crc) =>
            match GoBase64.Decode body with
            | Some d =>
                if Z.land (crc24 crc24Init d) crc24Mask =? crc
                then Some d else None
            | None => None
            end
        | None => None
        end
      else None
  | _ => None
  end.

(** The first and the last line of a block of type [PGP MESSAGE]. *)
Definition start_line : list ascii :=
  list_ascii_of_string (armorStart +:+ "PGP MESSAGE" +:+ armorEndOfLine).
Definition end_line : list ascii :=
  list_ascii_of_string (armorEnd +:+ "PGP MESSAGE" +:+ armorEndOfLine).

End GoArmor.

(** ** Effects *)

(** The calls that leave the process, in the order they are made. *)
Inductive event :=
| EvWalk (root : string)
| EvOpen (name : string)
| EvExec (name : string) (args : list string) (stdin : string).

Definition IO (A : Type) : Type := A * list event.
Definition ret {A} (a : A) : IO A := (a, []).
Definition bind {A B} (m : IO A) (k : A -> IO B) : IO B :=
  let '(a, t1) := m in let '(b, t2) := k a in (b, t1 ++ t2).
Definition emit (e : event) : IO unit := (tt, [e]).

Notation "x <- m ;; k" := (bind m (fun x => k))
  (at level 100, m at next level, right associativity).

(** ** Package [os/exec] *)

Module GoExec.

(** What happens when the command is started: it cannot be started, or
    it runs, writes [stdout] and exits, [waitErr] being the error of an
    unsuccessful exit. *)
Inductive proc_result :=
| StartFails (e : error)
| Exits (stdout : string) (waitErr : option error).

(** A [Cmd]: [Process] is set by [Start] (here to the outcome the
    process will have), [finished] by [Wait].  [Args] holds the arguments
    that follow the name of the command. *)
Record Cmd := {
  Path : string;
  Args : list string;
  Stdin : string;
  Stdout : string;
  Process : option (string * option error);
  finished : bool
}.

Definition Command (name : string) (args : list string) : Cmd :=
  {| Path := name; Args := args; Stdin := ""; Stdout := "";
     Process := None; finished := false |}.

Definition Start (run : string -> list string -> string -> proc_result)
    (c : Cmd) : IO (Cmd * option error) :=
  match Process c with
  | Some _ => ret (c, Some "exec: already started")
  | None =>
      _ <- emit (EvExec (Path c) (Args c) (Stdin c));;
      match run (Path c) (Args c) (Stdin c) with
      | StartFails e => ret (c, Some e)
      | Exits out w =>
          ret ({| Path := Path c; Args := Args c; Stdin := Stdin c;
                  Stdout := Stdout c; Process := Some (out, w);
                  finished := false |}, None)
      end
  end.

(** [Wait]: [if c.Process == nil { return errors.New("exec: not started") }],
    [if c.finished { return errors.New("exec: Wait was already called") }],
    [c.finished = true], and then the exit of the process, whose output
    has been copied to [Stdout]. *)
Definition Wait (c : Cmd) : Cmd * option error :=
  match Process c with
  | None => (c, Some "exec: not started")
  | Some (out, w) =>
      if finished c then (c, Some "exec: Wait was already called")
      else
        ({| Path := Path c; Args := Args c; Stdin := Stdin c;
            Stdout := Stdout c +:+ out; Process := Process c;
            finished := true |}, w)
  end.


(** [Run]: [if err := c.Start(); err != nil { return err }; return c.Wait()]. *)
Definition Run (run : string -> list string -> string -> proc_result)
    (c : Cmd) : IO (Cmd * option error) :=
  r <- Start run c;;
  match r with
  | (c1, Some e) => ret (c1, Some e)
  | (c1, None) => ret (Wait c1)
  end.

End GoExec.

(** * The secrets resource *)

(** [type secretName struct]. *)
Record secretName := { Path : string; Username : string }.

#[global] Instance secretName_eq_dec : EqDecision secretName.
Proof. solve_decision. Defined.

#[global] Instance secretName_countable : Countable secretName.
Proof.
  refine (inj_countable' (fun n => (Path n, Username n))
            (fun p => {| Path := fst p; Username := snd p |}) _).
  intros [p u]; reflexivity.
Defined.

(** [type item struct] of [Load]. *)
Record item := {
  Domain : string;
  item_Path : string;
  item_Username : string;
  UsernameNormalized : string
}.

(** [type SecretsResource struct]; the [sync.RWMutex] is in
    [Module Concurrent] below. *)
Record SecretsResource := {
  store : string;
  loaded : bool;
  index : string;
  secrets : gmap secretName string
}.

(** What the resource reads and runs: the tree that [Lstat] and
    [readDirNames] report at [store], what [os.Open] returns for a name,
    and what running a command does. *)
Record World := {
  tree : GoFilepath.node;
  Open : string -> error + file;
  run : string -> list string -> string -> GoExec.proc_result
}.

(** The response a handler renders: the status and the JSON object
    [{"error": ...}] or [{"response": ...}]. *)
Inductive body := ErrorBody (msg : string) | ResponseBody (r : string).
Definition response : Type := Z * body.

Definition StatusOK : Z := 200.
Definition StatusBadRequest : Z := 400.
Definition StatusInternalServerError : Z := 500.

Definition os_Open (w : World) (name : string) : IO (error + file) :=
  _ <- emit (EvOpen name);;
  ret (Open w name).

(** [readIDs]. *)
Definition readIDs (w : World) (store : string) : IO (list string * option error) :=
  f <- os_Open w (GoPath.Join store ".gpg-id");;
  match f with
  | inl err => ret ([], Some err)
  | inr f =>
      let '(toks, scanErr) := GoBufio.Scanner_tokens f in
      let ids := List.filter (fun id => negb (String.eqb id "")) toks in
      match scanErr with
      | Some e => ret (ids, Some e)
      | None => ret (ids, closeErr f)
      end
  end.

(** [enarmor] reading an opened file.  The armor encoder writes to a
    [bytes.Buffer], so only [io.Copy] can fail, with the read error of the
    file; the bytes returned with an error are a part of the armor that the
    one caller drops, and are not modelled. *)
Definition enarmor (r : file) : error + string :=
  match readErr r with
  | Some err => inl (Wrap err "failed to copy to armored encoder")
  | None =>
      inr (string_of_list_ascii
             (GoArmor.Encode "PGP MESSAGE" (list_ascii_of_string (data r))))
  end.

(** [readSecret]. *)
Definition readSecret (w : World) (filename : string) : IO (error + string) :=
  f <- os_Open w filename;;
  match f with
  | inl err => ret (inl (Wrap err "failed to open file"))
  | inr f => ret (enarmor f)
  end.

(** The function literal [walkFn] of [Load]; [filenames] is the variable
    it appends to. *)
Definition walkFn (store : string) (path : string) (a : GoFilepath.walk_arg)
    (filenames : list string) : list string * GoFilepath.walk_result :=
  match a with
  | GoFilepath.Failed _ err => (filenames, GoFilepath.WErr err)
  | GoFilepath.Visit info =>
      if GoFilepath.IsDir info && String.eqb (GoFilepath.Name info) ".git"
      then (filenames, GoFilepath.WSkipDir)
      else if GoFilepath.IsDir info then (filenames, GoFilepath.WNil)
      else if String.eqb (GoFilepath.Dir path) store then (filenames, GoFilepath.WNil)
      else if GoFilepath.Match_star ".gpg" (GoFilepath.Name info)
      then (filenames ++ [path], GoFilepath.WNil)
      else (filenames, GoFilepath.WNil)
  end.

(** The arguments of gpg:
    [for _, id := range ids { args = append(args, "-r", id) }]. *)
Definition gpg_args (ids : list string) : list string :=
  fold_left (fun args id => args ++ ["-r"; id]) ids ["--encrypt"; "--armor"].

Section Secrets.

(** [transform.String(norm.NFKD, s)] of [golang.org/x/text]: the result,
    the number of bytes of [s] that were read and the error. *)
Variable NFKD : string -> string * nat * option error.

(** [json.Marshal(index)]. *)
Variable Marshal : list item -> string * option error.

(** [normalize].  The loop [for i := range rs] visits the byte index at
    which each rune of [rs] starts and tests the byte [rs[i]]. *)
Definition normalize (s : string) : string :=
  let '(rs, n, err) := NFKD s in
  match err with
  | Some _ => ""
  | None =>
      let rs := list_ascii_of_string rs in
      string_of_list_ascii
        (fold_left
           (fun b '(i, _) =>
              let c := nth i rs "000"%char in
              if byteZ c <? 0x80 then b ++ [c] else b)
           (GoUtf8.range rs) [])
  end.

(** The names a secret file gets in the loop of [Load] over
    [filenames]: [secret], [username] and [domain]. *)
Definition index_item (store filename : string) : item :=
  let secret :=
    GoStrings.TrimSuffix (GoStrings.TrimPrefix filename store) ".gpg" in
  let username := GoPath.Base secret in
  let secret := GoStrings.TrimPrefix (GoPath.Dir secret) "/" in
  let domain := GoPath.Base secret in
  {| Domain := domain; item_Path := secret; item_Username := username;
     UsernameNormalized := normalize username |}.

Definition item_name (it : item) : secretName :=
  {| Path := item_Path it; Username := item_Username it |}.

(** The loop [for _, filename := range filenames] of [Load]; an error
    is the value [Load] returns at once. *)
Fixpoint load_secrets (w : World) (store : string) (filenames : list string)
    (index : list item) (secrets : gmap secretName string)
    : IO (error + list item * gmap secretName string) :=
  match filenames with
  | [] => ret (inr (index, secrets))
  | filename :: filenames' =>
      let it := index_item store filename in
      let index := index ++ [it] in
      text <- readSecret w filename;;
      match text with
      | inl err => ret (inl (Wrap err ("failed to read secret " +:+ filename)))
      | inr text =>
          load_secrets w store filenames' index
            (<[item_name it := text]> secrets)
      end
  end.

(** [Load]. *)
Definition Load (w : World) (v : SecretsResource)
    : IO (option error * SecretsResource) :=
  _ <- emit (EvWalk (store v));;
  let '(filenames, err) :=
    GoFilepath.Walk (walkFn (store v)) (store v) (tree w) [] in
  match err with
  | Some err => ret (Some (Wrap err "issue while discovering secrets"), v)
  | None =>
  r <- load_secrets w (store v) filenames [] ∅;;
  match r with
  | inl err => ret (Some err, v)
  | inr (index_items, secrets_map) =>
  r <- readIDs w (store v);;
  match r with
  | (_, Some err) => ret (Some (Wrap err "unable to load .gpg-id"), v)
  | (ids, None) =>
  let args := gpg_args ids in
  match Marshal index_items with
  | (_, Some err) => ret (Some (Wrap err "failed to create index"), v)
  | (indexJSON, None) =>
  let cmd := GoExec.Command "gpg" args in
  let cmd :=
    {| GoExec.Path := GoExec.Path cmd; GoExec.Args := GoExec.Args cmd;
       GoExec.Stdin := indexJSON; GoExec.Stdout := "";
       GoExec.Process := GoExec.Process cmd;
       GoExec.finished := GoExec.finished cmd |} in
  r <- GoExec.Run (run w) cmd;;
  match r with
  | (_, Some err) =>
      ret (Some (Wrap err "unable to run gpg command to encrypt index"), v)
  | (cmd, None) =>
  match GoExec.Wait cmd with
  | (_, Some err) => ret (Some (Wrap err "unable to encrypt index"), v)
  | (cmd, None) =>
      ret (None,
           {| store := store v; loaded := true;
              index := GoExec.Stdout cmd; secrets := secrets_map |})
  end end end end end end.

(** [ensureLoaded]. *)
Definition ensureLoaded (w : World) (v : SecretsResource)
    : IO (option error * SecretsResource) :=
  if negb (loaded v) then Load w v else ret (None, v).

(** [List]; [bind_err] is the error of [c.Bind(&req)]. *)
Definition List (w : World) (bind_err : option error) (v : SecretsResource)
    : IO (response * SecretsResource) :=
  match bind_err with
  | Some err =>
      ret ((StatusBadRequest,
            ErrorBody (Wrap err "unable to read request body")), v)
  | None =>
      r <- ensureLoaded w v;;
      match r with
      | (Some err, v) =>
          ret ((StatusInternalServerError,
                ErrorBody (Wrap err "unable to load password store")), v)
      | (None, v) => ret ((StatusOK, ResponseBody (index v)), v)
      end
  end.

(** [Show]; [req] is what [c.Bind(&req)] leaves in [req], or its error. *)
Definition Show (w : World) (req : error + secretName) (v : SecretsResource)
    : IO (response * SecretsResource) :=
  match req with
  | inl err =>
      ret ((StatusBadRequest,
            ErrorBody (Wrap err "unable to read request body")), v)
  | inr req =>
      if String.eqb (Path req) "" then
        ret ((StatusBadRequest, ErrorBody "no path found in request body"), v)
      else if String.eqb (Username req) "" then
        ret ((StatusBadRequest, ErrorBody "no username found in request body"), v)
      else
        r <- ensureLoaded w v;;
        match r with
        | (Some err, v) =>
            ret ((StatusInternalServerError,
                  ErrorBody (Wrap err "unable to load password store")), v)
        | (None, v) =>
            match secrets v !! req with
            | None => ret ((StatusBadRequest, ErrorBody "unknown secret"), v)
            | Some text => ret ((StatusOK, ResponseBody text), v)
            end
        end
  end.

End Secrets.

(** * Concurrent queries

    The goroutines that serve [List] and [Show] share one
    [SecretsResource].  Each goroutine is a program counter over the
    statements of [List]/[Show], [ensureLoaded] and [Load] that touch the
    [sync.RWMutex] or the fields, or that leave the process; a step of the
    system is a step of one goroutine.  The snapshots are abstracted to the
    rebuild they come from: the number of the goroutine that ran [Load].
    [RLock] is enabled when no writer holds the mutex ([sync.RWMutex] also
    blocks it while a writer is waiting, so the model has every
    interleaving of the program and more); [Lock] is enabled when nobody
    holds it. *)

Module Concurrent.

(** The stages of [Load] that can fail. *)
Inductive stage := SWalk | SRead | SIDs | SMarshal | SRun | SWait.

(** What a query ends with: the 500 response, or the response made from
    the fields, which come from the rebuilds [ig] and [sg]. *)
Inductive result :=
| Unavailable
| Observed (ig sg : option nat).

Inductive pc :=
| Start                    (* before [v.RLock()] of the handler *)
| Check                    (* [if !v.loaded] of [ensureLoaded], read-locked *)
| Unlocking                (* [v.RUnlock()] of [ensureLoaded] *)
| InLoad (st : stage)      (* in [Load], before the stage, no lock held *)
| Locking                  (* [v.Lock()] of [Load] *)
| SetIndex                 (* [v.index = buf.String()], write-locked *)
| SetSecrets               (* [v.secrets = secrets] *)
| SetLoaded                (* [v.loaded = true] *)
| UnlockW                  (* the deferred [v.Unlock()] of [Load] *)
| Relock (err : bool)      (* the deferred [v.RLock()] of [ensureLoaded] *)
| Answer (err : bool)      (* the handler after [ensureLoaded], read-locked *)
| Finish (r : result)      (* the deferred [v.RUnlock()] of the handler *)
| Done (r : result).

Record shared := {
  readers : nat;           (* holders of the read lock *)
  writer : bool;           (* the write lock is held *)
  sh_loaded : bool;
  sh_index : option nat;
  sh_secrets : option nat;
  walks : nat;             (* calls of [filepath.Walk] so far *)
  execs : nat              (* calls of [cmd.Run] so far *)
}.

Definition state : Type := shared * list pc.

Definition init (n : nat) : state :=
  ({| readers := 0; writer := false; sh_loaded := false;
      sh_index := None; sh_secrets := None; walks := 0; execs := 0 |},
   replicate n Start).

Definition next_stage (st : stage) : pc :=
  match st with
  | SWalk => InLoad SRead
  | SRead => InLoad SIDs
  | SIDs => InLoad SMarshal
  | SMarshal => InLoad SRun
  | SRun => InLoad SWait
  | SWait => Locking
  end.

Section Step.
(** Whether a stage of the [Load] of a goroutine succeeds. *)
Variable outcome : nat -> stage -> bool.

Definition set_readers (s : shared) (n : nat) : shared :=
  {| readers := n; writer := writer s; sh_loaded := sh_loaded s;
     sh_index := sh_index s; sh_secrets := sh_secrets s;
     walks := walks s; execs := execs s |}.

Definition set_writer (s : shared) (b : bool) : shared :=
  {| readers := readers s; writer := b; sh_loaded := sh_loaded s;
     sh_index := sh_index s; sh_secrets := sh_secrets s;
     walks := walks s; execs := execs s |}.

Definition count_stage (s : shared) (st : stage) : shared :=
  {| readers := readers s; writer := writer s; sh_loaded := sh_loaded s;
     sh_index := sh_index s; sh_secrets := sh_secrets s;
     walks := match st with SWalk => S (walks s) | _ => walks s end;
     execs := match st with SRun => S (execs s) | _ => execs s end |}.

(** The step of goroutine [t], when it is enabled. *)
Definition step (t : nat) (σ : state) : option state :=
  let '(s, pcs) := σ in
  match pcs !! t with
  | None => None
  | Some p =>
      match p with
      | Start =>
          if writer s then None
          else Some (set_readers s (S (readers s)), <[t := Check]> pcs)
      | Check =>
          if sh_loaded s then Some (s, <[t := Answer false]> pcs)
          else Some (s, <[t := Unlocking]> pcs)
      | Unlocking =>
          Some (set_readers s (readers s - 1), <[t := InLoad SWalk]> pcs)
      | InLoad st =>
          Some (count_stage s st,
                <[t := if outcome t st then next_stage st else Relock true]> pcs)
      | Locking =>
          if writer s || negb (readers s =? 0)%nat then None
          else Some (set_writer s true, <[t := SetIndex]> pcs)
      | SetIndex =>
          Some ({| readers := readers s; writer := writer s;
                   sh_loaded := sh_loaded s; sh_index := Some t;
                   sh_secrets := sh_secrets s;
                   walks := walks s; execs := execs s |},
                <[t := SetSecrets]> pcs)
      | SetSecrets =>
          Some ({| readers := readers s; writer := writer s;
                   sh_loaded := sh_loaded s; sh_index := sh_index s;
                   sh_secrets := Some t;
                   walks := walks s; execs := execs s |},
                <[t := SetLoaded]> pcs)
      | SetLoaded =>
          Some ({| readers := readers s; writer := writer s;
                   sh_loaded := true; sh_index := sh_index s;
                   sh_secrets := sh_secrets s;
                   walks := walks s; execs := execs s |},
                <[t := UnlockW]> pcs)
      | UnlockW => Some (set_writer s false, <[t := Relock false]> pcs)
      | Relock err =>
          if writer s then None
          else Some (set_readers s (S (readers s)), <[t := Answer err]> pcs)
      | Answer err =>
          Some (s, <[t := Finish (if err then Unavailable
                                  else Observed (sh_index s) (sh_secrets s))]> pcs)
      | Finish r =>
          Some (set_readers s (readers s - 1), <[t := Done r]> pcs)
      | Done _ => None
      end
  end.

(** A schedule names the goroutine of each step. *)
Fixpoint run (sched : list nat) (σ : state) : option state :=
  match sched with
  | [] => Some σ
  | t :: sched' =>
      match step t σ with
      | Some σ' => run sched' σ'
      | None => None
      end
  end.
End Step.

(** The predicates on program counters that the invariants count. *)
Definition holds_rlock (p : pc) : bool :=
  match p with
  | Check | Unlocking | Answer _ | Finish _ => true
  | _ => false
  end.

Definition holds_lock (p : pc) : bool :=
  match p with
  | SetIndex | SetSecrets | SetLoaded | UnlockW => true
  | _ => false
  end.

Definition walked (p : pc) : bool :=
  match p with
  | Start | Check | Unlocking | InLoad SWalk => false
  | _ => true
  end.

Definition ran_gpg (p : pc) : bool :=
  match p with
  | Start | Check | Unlocking | InLoad SWalk | InLoad SRead | InLoad SIDs
  | InLoad SMarshal | InLoad SRun => false
  | _ => true
  end.

Definition count (P : pc -> bool) (pcs : list pc) : nat :=
  length (List.filter P pcs).

Definition b2n (b : bool) : nat := if b then 1%nat else 0%nat.

(** The invariant of the lock protocol: the counters of the mutex count
    the goroutines that hold it, a writer excludes the readers, a walk or
    a run of gpg has been made by a goroutine that went past it, the
    goroutine that installs a snapshot has written the fields behind its
    program counter, the two fields come from one rebuild while the write
    lock is free, and so does what a query has read. *)
Record Inv (σ : state) : Prop := {
  inv_readers : readers σ.1 = count holds_rlock σ.2;
  inv_writer : b2n (writer σ.1) = count holds_lock σ.2;
  inv_excl : writer σ.1 = true -> readers σ.1 = 0%nat;
  inv_walks : (walks σ.1 <= count walked σ.2)%nat;
  inv_execs : (execs σ.1 <= count ran_gpg σ.2)%nat;
  inv_index : forall t, σ.2 !! t = Some SetSecrets -> sh_index σ.1 = Some t;
  inv_both : forall t, σ.2 !! t = Some SetLoaded \/ σ.2 !! t = Some UnlockW ->
             sh_index σ.1 = Some t /\ sh_secrets σ.1 = Some t;
  inv_same : writer σ.1 = false -> sh_index σ.1 = sh_secrets σ.1;
  inv_seen : forall t ig sg,
             σ.2 !! t = Some (Finish (Observed ig sg)) \/
             σ.2 !! t = Some (Done (Observed ig sg)) -> ig = sg
}.

(** Every stage succeeds, but the [cmd.Wait()] that follows [cmd.Run()]
    fails, as [GoExec.Wait] does. *)
Definition outcome_go (t : nat) (st : stage) : bool :=
  match st with SWait => false | _ => true end.

(** Every stage succeeds, the second wait included: the goroutines of
    the program without that call. *)
Definition outcome_all (t : nat) (st : stage) : bool := true.

(** Two goroutines that take their steps in turn, twelve each. *)
Definition in_turn : list nat :=
  concat (replicate 12 [0%nat; 1%nat]).

(** One goroutine that runs [List] to its end, alone. *)
Definition alone : list nat := replicate 17 0%nat.

End Concurrent.

(** * A part of NFKD

    The decomposition of the letters U+00C0 to U+00FF into a base letter
    and a combining mark (UnicodeData.txt), on UTF-8 text; the other bytes
    are kept.  It is NFKD on text made of ASCII and these letters. *)

Module NFKDLatin1.

Definition bases : string :=
  "AAAAAA.CEEEEIIII.NOOOOO..UUUUY..aaaaaa.ceeeeiiii.nooooo..uuuuy.y".

(** The marks: grave, acute, circumflex, tilde, diaeresis, ring above,
    cedilla (U+0300, 0301, 0302, 0303, 0308, 030A, 0327). *)
Definition marks : string :=
  "gactdr.sgacdgacd.tgactd..gacda..gactdr.sgacdgacd.tgactd..gacda.d".

(** The second byte of the UTF-8 form of a mark; the first one is 0xCC. *)
Definition mark_byte (m : ascii) : option Z :=
  if Ascii.eqb m "g" then Some 0x80
  else if Ascii.eqb m "a" then Some 0x81
  else if Ascii.eqb m "c" then Some 0x82
  else if Ascii.eqb m "t" then Some 0x83
  else if Ascii.eqb m "d" then Some 0x88
  else if Ascii.eqb m "r" then Some 0x8A
  else if Ascii.eqb m "s" then Some 0xA7
  else None.

(** The decomposition of the letter whose UTF-8 form is 0xC3 [b]. *)
Definition decomposition (b : Z) : option (list ascii) :=
  if (0x80 <=? b) && (b <=? 0xBF) then
    let k := Z.to_nat (b - 0x80) in
    match String.get k bases, String.get k marks with
    | Some base, Some m =>
        match mark_byte m with
        | Some mb => Some [base; Zbyte 0xCC; Zbyte mb]
        | None => None
        end
    | _, _ => None
    end
  else None.

Fixpoint decompose (s : list ascii) : list ascii :=
  match s with
  | [] => []
  | c0 :: s' =>
      match s' with
      | c1 :: s'' =>
          if byteZ c0 =? 0xC3 then
            match decomposition (byteZ c1) with
            | Some d => d ++ decompose s''
            | None => c0 :: decompose s'
            end
          else c0 :: decompose s'
      | [] => [c0]
      end
  end.

Definition NFKD (s : string) : string * nat * option error :=
  (string_of_list_ascii (decompose (list_ascii_of_string s)),
   String.length s, None).

End NFKDLatin1.

(** The UTF-8 bytes of a text given as numbers. *)
Definition of_bytes (l : list Z) : string :=
  string_of_list_ascii (map Zbyte l).

(** "Ångström" in UTF-8: U+00C5 is C3 85, U+00F6 is C3 B6. *)
Definition Angstrom_utf8 : string :=
  of_bytes [0xC3; 0x85; 110; 103; 115; 116; 114; 0xC3; 0xB6; 109].

(** Its NFKD form: A, U+030A (CC 8A), "ngstro", U+0308 (CC 88), m. *)
Definition Angstrom_nfkd : string :=
  of_bytes [65; 0xCC; 0x8A; 110; 103; 115; 116; 114; 111; 0xCC; 0x88; 109].

(** * Names in a store

    A path of the store as its components: a component is a name that is
    not empty, has no slash and is neither [.] nor [..]. *)

Fixpoint no_slash (s : string) : bool :=
  match s with
  | EmptyString => true
  | String c s' => negb (Ascii.eqb c "/") && no_slash s'
  end.

Definition plain (name : string) : bool :=
  negb (String.eqb name "") && negb (String.eqb name ".")
  && negb (String.eqb name "..") && no_slash name.

(** The components joined by slashes. *)
Definition join_path (comps : list string) : string := String.concat "/" comps.

(** What precedes the last name of a path: nothing, or text that ends with
    a slash. *)
Definition dir_prefix (dir : string) : Prop :=
  dir = "" \/ exists d, dir = d +:+ "/".

(** * [normalize] as the specification words it

    The NFKD form of [s] without its code points of value 0x80 or more:
    the runes of the form are filtered, and each one that is kept is one
    byte.  The empty string when the transformation fails. *)

Definition spec_normalize (NFKD : string -> string * nat * option error)
    (s : string) : string :=
  let '(rs, _, err) := NFKD s in
  match err with
  | Some _ => ""
  | None =>
      string_of_list_ascii
        (map Zbyte
           (List.filter (fun r => r <? 0x80)
              (map snd (GoUtf8.range (list_ascii_of_string rs)))))
  end.

(** A byte of the ASCII subset. *)
Definition is_ascii (c : ascii) : bool := byteZ c <? 0x80.

(** * The recipients as the specification words them

    [.gpg-id] holds newline-delimited recipient identifiers, one per line;
    blank lines are skipped and the order is kept. *)

Definition nonempty (id : string) : bool := negb (String.eqb id "").


(** * A sample store

    The store [/store] with the recipients file, a [.git] directory, two
    secrets named [alice] (one of them two levels down), a file that is not
    a secret and a [.gpg] file at the top level. *)

Module Sample.
Import GoFilepath.

Definition nl : string := String "010"%char "".
Definition quote : string := String "034"%char "".

Definition sample_tree : node :=
  Directory "store" None
    [ File ".gpg-id";
      Directory ".git" None [File "HEAD"; File "x.gpg"];
      Directory "example.com" None [File "alice.gpg"; File "notes.txt"];
      File "top.gpg";
      Directory "work" None [Directory "example.com" None [File "alice.gpg"]] ].

Definition readable (d : string) : error + file :=
  inr {| data := d; readErr := None; closeErr := None |}.

Definition sample_open (name : string) : error + file :=
  if String.eqb name "/store/.gpg-id"
  then readable ("KEY1" +:+ nl +:+ "KEY2" +:+ nl +:+ nl +:+ "KEY1" +:+ nl)
  else if String.eqb name "/store/example.com/alice.gpg" then readable "ciphertext one"
  else if String.eqb name "/store/work/example.com/alice.gpg" then readable "ciphertext two"
  else inl ("open " +:+ name +:+ ": no such file or directory").

(** gpg runs and exits with status 0. *)
Definition sample_run (name : string) (args : list string) (stdin : string)
    : GoExec.proc_result :=
  GoExec.Exits ("encrypted(" +:+ stdin +:+ ")") None.

Definition sample_world : World :=
  {| tree := sample_tree; Open := sample_open; run := sample_run |}.

(** [json.Marshal] of items whose strings need no escaping. *)
Definition field (k v : string) : string :=
  quote +:+ k +:+ quote +:+ ":" +:+ quote +:+ v +:+ quote.

Definition marshal_item (it : item) : string :=
  "{" +:+ field "domain" (Domain it) +:+ "," +:+ field "path" (item_Path it)
  +:+ "," +:+ field "username" (item_Username it)
  +:+ "," +:+ field "username_normalized" (UsernameNormalized it) +:+ "}".

Definition sample_Marshal (l : list item) : string * option error :=
  ("[" +:+ String.concat "," (map marshal_item l) +:+ "]", None).

Definition empty_resource : SecretsResource :=
  {| store := "/store"; loaded := false; index := ""; secrets := ∅ |}.

Definition sample_files : list string :=
  ["/store/example.com/alice.gpg"; "/store/work/example.com/alice.gpg"].

Definition armored (d : string) : string :=
  string_of_list_ascii (GoArmor.Encode "PGP MESSAGE" (list_ascii_of_string d)).

(** The secrets of the sample store. *)
Definition sample_secrets : gmap secretName string :=
  <[ {| Path := "work/example.com"; Username := "alice" |} := armored "ciphertext two" ]>
    (<[ {| Path := "example.com"; Username := "alice" |} := armored "ciphertext one" ]> ∅).

(** A store whose root cannot be read. *)
Definition broken_world : World :=
  {| tree := Unstat "store" "lstat /store: permission denied";
     Open := sample_open; run := sample_run |}.

(** The sample store with a secret that cannot be opened, without its
    recipients file, with a gpg that is not installed and with a gpg that
    exits with status 2; a [json.Marshal] that fails. *)
Definition unreadable_world : World :=
  {| tree := sample_tree;
     Open := fun name =>
       if String.eqb name "/store/work/example.com/alice.gpg"
       then inl "open /store/work/example.com/alice.gpg: permission denied"
       else sample_open name;
     run := sample_run |}.

Definition no_ids_world : World :=
  {| tree := sample_tree;
     Open := fun name =>
       if String.eqb name "/store/.gpg-id"
       then inl "open /store/.gpg-id: no such file or directory"
       else sample_open name;
     run := sample_run |}.

Definition no_gpg_world : World :=
  {| tree := sample_tree; Open := sample_open;
     run := fun _ _ _ =>
       GoExec.StartFails "exec: gpg: executable file not found in $PATH" |}.

Definition gpg_exit_world : World :=
  {| tree := sample_tree; Open := sample_open;
     run := fun _ _ _ => GoExec.Exits "" (Some "exit status 2") |}.

Definition failing_Marshal (l : list item) : string * option error :=
  ("", Some "json: unsupported value").

(** A store with a file named [.gpg] next to [a.gpg] in the directory [a]. *)
Definition dotgpg_tree : node :=
  Directory "store" None [Directory "a" None [File ".gpg"; File "a.gpg"]].

Definition dotgpg_world : World :=
  {| tree := dotgpg_tree;
     Open := fun name =>
       if String.eqb name "/store/a/.gpg" then readable "first"
       else if String.eqb name "/store/a/a.gpg" then readable "second"
       else inl "no such file or directory";
     run := sample_run |}.



End Sample.

(** * The application ([actions/app.go]) *)

(** [envy.Get(key, value)]: the variable [key] of the environment, or
    [value] when it is not set. *)
Definition envy_Get (env : string -> option string) (key value : string) : string :=
  match env key with
  | Some v => v
  | None => value
  end.

(** [var STORE = envy.Get("PASSWORD_STORE", ".")]. *)
Definition STORE (env : string -> option string) : string :=
  envy_Get env "PASSWORD_STORE" ".".

(** An environment without variables. *)
Definition no_env (key : string) : option string := None.

(** An [http.Request], as far as the application looks at it. *)
Record Request := { Method : string; URL_Path : string; Body : string }.

(** The assignment [r.URL.Path = p]. *)
Definition set_URL_Path (r : Request) (p : string) : Request :=
  {| Method := Method r; URL_Path := p; Body := Body r |}.

(** [stripSlash]: the handler that rewrites the path of the request and
    then calls [h.ServeHTTP]. *)
Definition stripSlash {A : Type} (h : Request -> A) (r : Request) : A :=
  let r := if String.eqb (URL_Path r) "/secret/" then set_URL_Path r "/secret" else r in
  let r := if String.eqb (URL_Path r) "/secrets/" then set_URL_Path r "/secrets" else r in
  h r.

(** * The files of a store

    The store at the rooted path of some plain names, and what a walk of
    its tree is to find there. *)

Definition store_path (comps : list string) : string := "/" +:+ join_path comps.

Module StoreTree.
Import GoFilepath.

(** The tree without what its directories named [.git] hold; whether
    such a directory can be read is kept. *)
Fixpoint prune_git (n : node) : node :=
  match n with
  | Directory name readErr entries =>
      if String.eqb name ".git" then Directory name readErr []
      else Directory name readErr (map prune_git entries)
  | File _ | Unstat _ _ => n
  end.

(** What the walk of a tree returns when it meets no error: [nil], or
    [SkipDir] from a directory. *)
Definition quiet (n : node) (r : walk_result) : Prop :=
  r = WNil \/ (r = WSkipDir /\ node_is_dir n = true).

(** A tree that can be walked to its end: every directory that the walk
    reads can be read, the directories named [.git] included, and outside
    of these every entry can be examined and has a plain name. *)
Fixpoint walkable (n : node) : bool :=
  match n with
  | File _ => true
  | Unstat _ _ => false
  | Directory name readErr entries =>
      match readErr with None => true | Some _ => false end
      && (String.eqb name ".git"
          || forallb (fun c => plain (node_name c) && walkable c) entries)
  end.

(** The secret files of the tree [n] found at [path], [depth] levels
    below the root of the store: the files whose name ends in [.gpg],
    but for the entries of the root itself and for what lies in a
    directory named [.git]; in the order of the directories. *)
Fixpoint secret_files (depth : nat) (path : string) (n : node) : list string :=
  match n with
  | File name =>
      if (depth =? 1)%nat then []
      else if GoStrings.HasSuffix name ".gpg" then [path] else []
  | Unstat _ _ => []
  | Directory name _ entries =>
      if String.eqb name ".git" then []
      else flat_map
             (fun c => secret_files (S depth) (path +:+ "/" +:+ node_name c) c)
             entries
  end.

(** The error that ends a walk of the tree, if any: the first entry that
    cannot be examined or directory that cannot be read, in the order of
    the walk.  A directory named [.git] counts when it cannot be read;
    what it holds does not. *)
Fixpoint walk_error (n : node) : option error :=
  match n with
  | File _ => None
  | Unstat _ e => Some e
  | Directory name readErr entries =>
      match readErr with
      | Some e => Some e
      | None =>
          if String.eqb name ".git" then None
          else fold_right
                 (fun c later =>
                    match walk_error c with
                    | Some e => Some e
                    | None => later
                    end)
                 None entries
      end
  end.

(** A secret file of the store at the path of [comps]: in a directory of
    one or more plain names below the root, with a plain name that ends
    in [.gpg]. *)
Definition secret_file_of (comps : list string) (f : string) : Prop :=
  exists dirs name,
    dirs <> [] /\ Forall (fun c => plain c = true) dirs /\ plain name = true /\
    GoStrings.HasSuffix name ".gpg" = true /\
    f = store_path (comps ++ dirs ++ [name]).

End StoreTree.

(** * A store at the default place

    The tree of the directory [.], with a directory whose name begins with
    a dot next to one whose name is the rest of it. *)

Module DefaultStore.
Import GoFilepath.

Definition hidden_tree : node :=
  Directory "." None
    [ Directory ".private" None [File "alice.gpg"];
      File "notes.gpg";
      Directory "private" None [File "alice.gpg"] ].

End DefaultStore.

(** * A store whose [.git] cannot be read *)

Module UnreadableGit.
Import GoFilepath.

Definition git_tree : node :=
  Directory "store" None
    [ File ".gpg-id";
      Directory ".git" (Some "open /store/.git: permission denied") [File "HEAD"];
      Directory "example.com" None [File "alice.gpg"; File "notes.txt"] ].

Definition git_world : World :=
  {| tree := git_tree; Open := Sample.sample_open; run := Sample.sample_run |}.

End UnreadableGit.

(** A file that [readSecret] reads to its end. *)
Definition can_be_read (w : World) (filename : string) : Prop :=
  exists text, fst (readSecret w filename) = inr text.

(** A recipients file without recipients: every line is empty, or a
    carriage return. *)
Definition blank (contents : string) : Prop :=
  Forall (fun l => l = [] \/ l = ["013"%char])
    (split_lines (list_ascii_of_string contents) []).

(** * The goroutines: progress and what they answer *)

Module Progress.
Import Concurrent.

(** The steps a goroutine at a program counter has left, at most. *)
Definition rank (p : pc) : nat :=
  match p with
  | Start => 17
  | Check => 16
  | Unlocking => 15
  | InLoad SWalk => 14
  | InLoad SRead => 13
  | InLoad SIDs => 12
  | InLoad SMarshal => 11
  | InLoad SRun => 10
  | InLoad SWait => 9
  | Locking => 8
  | SetIndex => 7
  | SetSecrets => 6
  | SetLoaded => 5
  | UnlockW => 4
  | Relock _ => 3
  | Answer _ => 2
  | Finish _ => 1
  | Done _ => 0
  end%nat.

Definition remaining (pcs : list pc) : nat := list_sum (map rank pcs).

(** The goroutine has answered its query. *)
Definition finished (p : pc) : bool :=
  match p with
  | Done _ => true
  | _ => false
  end.

(** The next statement of the goroutine acquires the mutex: [RLock] or
    [Lock]. *)
Definition acquires (p : pc) : bool :=
  match p with
  | Start | Relock _ | Locking => true
  | _ => false
  end.

(** The goroutine is neither through nor at an acquisition. *)
Definition runs (p : pc) : bool := negb (finished p) && negb (acquires p).

Definition stage_number (st : stage) : nat :=
  match st with
  | SWalk => 0
  | SRead => 1
  | SIDs => 2
  | SMarshal => 3
  | SRun => 4
  | SWait => 5
  end.

(** The goroutine at [p] is in its [Load], or at the assignments that
    end it, and has the stage [st] behind it. *)
Definition passed (p : pc) (st : stage) : bool :=
  match p with
  | InLoad st' => (stage_number st <? stage_number st')%nat
  | Locking | SetIndex | SetSecrets | SetLoaded | UnlockW => true
  | _ => false
  end.

(** The goroutine has seen [loaded] set, or has set it. *)
Definition sees_loaded (p : pc) : bool :=
  match p with
  | UnlockW | Relock false | Answer false => true
  | _ => false
  end.

Definition is_set (o : option nat) : bool :=
  match o with
  | Some _ => true
  | None => false
  end.

(** The fields a goroutine at [p] has assigned. *)
Definition index_assigned (p : pc) : bool :=
  match p with
  | SetSecrets | SetLoaded => true
  | _ => false
  end.

Definition secrets_assigned (p : pc) : bool :=
  match p with
  | SetLoaded => true
  | _ => false
  end.

(** What is installed comes from rebuilds that went well: a goroutine
    has passed the stages behind it, the fields that are set were
    assigned by goroutines whose stages all went well, [loaded] is set
    after both fields, and a query that answers from the fields does so
    after [loaded] was set. *)
Record Installed (outcome : nat -> stage -> bool) (σ : state) : Prop := {
  ins_passed : forall t p st,
    σ.2 !! t = Some p -> passed p st = true -> outcome t st = true;
  ins_index : forall g,
    sh_index σ.1 = Some g ->
    (g < length σ.2)%nat /\ forall st, outcome g st = true;
  ins_secrets : forall g,
    sh_secrets σ.1 = Some g ->
    (g < length σ.2)%nat /\ forall st, outcome g st = true;
  ins_index_set : forall t p,
    σ.2 !! t = Some p -> index_assigned p = true -> is_set (sh_index σ.1) = true;
  ins_secrets_set : forall t p,
    σ.2 !! t = Some p -> secrets_assigned p = true -> is_set (sh_secrets σ.1) = true;
  ins_loaded : sh_loaded σ.1 = true ->
    is_set (sh_index σ.1) = true /\ is_set (sh_secrets σ.1) = true;
  ins_sees : forall t p,
    σ.2 !! t = Some p -> sees_loaded p = true -> sh_loaded σ.1 = true;
  ins_seen : forall t ig sg,
    σ.2 !! t = Some (Finish (Observed ig sg)) \/
    σ.2 !! t = Some (Done (Observed ig sg)) ->
    is_set ig = true /\ is_set sg = true /\
    forall g, ig = Some g ->
      (g < length σ.2)%nat /\ forall st, outcome g st = true
}.

(** A resource that is loaded, with the snapshot of the rebuild [g],
    and [n] queries that arrive. *)
Definition init_loaded (n g : nat) : state :=
  ({| readers := 0; writer := false; sh_loaded := true;
      sh_index := Some g; sh_secrets := Some g; walks := 0; execs := 0 |},
   replicate n Start).

(** Where a query against the loaded resource can be. *)
Definition cache_hit (g : nat) (p : pc) : bool :=
  match p with
  | Start | Check | Answer false => true
  | Finish (Observed (Some i) (Some s)) | Done (Observed (Some i) (Some s)) =>
      (i =? g)%nat && (s =? g)%nat
  | _ => false
  end.

(** The loaded resource stays as it is, and the queries stay on the
    path that answers from its fields. *)
Record Cached (g : nat) (σ : state) : Prop := {
  cached_writer : writer σ.1 = false;
  cached_loaded : sh_loaded σ.1 = true;
  cached_index : sh_index σ.1 = Some g;
  cached_secrets : sh_secrets σ.1 = Some g;
  cached_walks : walks σ.1 = 0%nat;
  cached_execs : execs σ.1 = 0%nat;
  cached_pcs : forall t p, σ.2 !! t = Some p -> cache_hit g p = true
}.

End Progress.

(** * The rebuild, stage by stage, and the snapshot *)

Section Rebuild.
Variable NFKD : string -> string * nat * option error.
Variable Marshal : list item -> string * option error.

(** The answer of [cmd.Wait()] for a command that [cmd.Run()] has waited
    for. *)
Variable again : option error.





(** The goroutines of [Concurrent] with their data.  The rebuild of the
    goroutine [g] sees the world [worlds g]; a field that the [Load] of
    [g] assigned holds the value of that [Load], a field that was never
    assigned the value of the resource [v] the program starts with. *)
Section Fields.
Variable worlds : nat -> World.
Variable v : SecretsResource.



End Fields.
End Rebuild.

(** Two queries and two stores: the rebuild of the first query sees a
    store with the one secret [a/a], that of the second the sample store.
    Both queries find nothing loaded; then the first runs its rebuild,
    installs it and answers, and then the second. *)
Module TwoRebuilds.






End TwoRebuilds.

(** * Properties *)

(** ** The library functions on the examples of their tests *)

(** The tables of the tests of package [path]. *)
Example Clean_examples :
  map GoPath.Clean
    [""; "abc"; "abc/def"; "a/b/c"; "."; ".."; "../.."; "../../abc"; "/abc"; "/";
     "abc/"; "abc/def/"; "a/b/c/"; "./"; "../"; "../../"; "/abc/";
     "abc//def//ghi"; "//abc"; "///abc"; "//abc//"; "abc//";
     "abc/./def"; "/./abc/def"; "abc/.";
     "abc/def/ghi/../jkl"; "abc/def/../ghi/../jkl"; "abc/def/.."; "abc/def/../..";
     "/abc/def/../.."; "abc/def/../../.."; "/abc/def/../../..";
     "abc/def/../../../ghi/jkl/../../../mno";
     "abc/./../def"; "abc//./../def"; "abc/../../././../def"]
  = ["."; "abc"; "abc/def"; "a/b/c"; "."; ".."; "../.."; "../../abc"; "/abc"; "/";
     "abc"; "abc/def"; "a/b/c"; "."; ".."; "../.."; "/abc";
     "abc/def/ghi"; "/abc"; "/abc"; "/abc"; "abc";
     "abc/def"; "/abc/def"; "abc";
     "abc/def/jkl"; "abc/jkl"; "abc"; ".";
     "/"; ".."; "/";
     "../../mno";
     "def"; "def"; "../../def"].
Proof. vm_compute. reflexivity. Qed.

Example Base_examples :
  map GoPath.Base
    [""; "."; "/."; "/"; "////"; "x/"; "abc"; "abc/def"; "a/b/.x"; "a/b/c."; "a/b/c.x"]
  = ["."; "."; "."; "/"; "/"; "x"; "abc"; "def"; ".x"; "c."; "c.x"].
Proof. vm_compute. reflexivity. Qed.

Example Dir_examples :
  map GoPath.Dir
    [""; "."; "/."; "/"; "////"; "/foo"; "x/"; "abc"; "abc/def"; "abc////def";
     "a/b/.x"; "a/b/c."; "a/b/c.x"]
  = ["."; "."; "/"; "/"; "/"; "/"; "x"; "."; "abc"; "abc"; "a/b"; "a/b"; "a/b"].
Proof. vm_compute. reflexivity. Qed.

Example Join_examples :
  GoPath.Join "/store" ".gpg-id" = "/store/.gpg-id" /\
  GoPath.Join "/store/" ".gpg-id" = "/store/.gpg-id" /\
  GoPath.Join "." ".gpg-id" = ".gpg-id" /\ GoPath.Join "" "a" = "a" /\
  GoPath.Join "a" "" = "a".
Proof. repeat split; reflexivity. Qed.

Example Match_examples :
  GoFilepath.Match_star ".gpg" "alice.gpg" = true /\
  GoFilepath.Match_star ".gpg" ".gpg" = true /\
  GoFilepath.Match_star ".gpg" "alice.gpg.bak" = false /\
  GoFilepath.Match_star ".gpg" "gpg" = false /\
  GoFilepath.Match_star ".gpg" "a.gpg.gpg" = true /\
  GoFilepath.Match_star "c" "abc" = true /\
  GoFilepath.Match_star "x" "xxx" = true /\
  GoFilepath.Match_star "c" "a/c" = false.
Proof. repeat split; reflexivity. Qed.

(** U+00E9, U+20AC and U+1D11E; an overlong form, a surrogate, a value
    above U+10FFFF, a lone continuation byte and a cut sequence. *)
Example DecodeRune_examples :
  map (fun l => GoUtf8.DecodeRuneInString (map Zbyte l))
    [[0xC3; 0xA9]; [0xE2; 0x82; 0xAC]; [0xF0; 0x9D; 0x84; 0x9E]; [0x41];
     [0xC0; 0x80]; [0xED; 0xA0; 0x80]; [0xF4; 0x90; 0x80; 0x80]; [0x80];
     [0xE2; 0x82]; []]
  = [(0xE9, 2%nat); (0x20AC, 3%nat); (0x1D11E, 4%nat); (0x41, 1%nat);
     (0xFFFD, 1%nat); (0xFFFD, 1%nat); (0xFFFD, 1%nat); (0xFFFD, 1%nat);
     (0xFFFD, 1%nat); (0xFFFD, 0%nat)].
Proof. vm_compute. reflexivity. Qed.

(** The test vectors of RFC 4648. *)
Example base64_examples :
  map (fun s => string_of_list_ascii (GoBase64.Encode (list_ascii_of_string s)))
    [""; "f"; "fo"; "foo"; "foob"; "fooba"; "foobar"]
  = [""; "Zg=="; "Zm8="; "Zm9v"; "Zm9vYg=="; "Zm9vYmE="; "Zm9vYmFy"].
Proof. vm_compute. reflexivity. Qed.

(** The CRC-24 of the empty text and of the check text. *)
Example crc24_examples :
  GoArmor.crc24 GoArmor.crc24Init [] = 0xB704CE /\
  Z.land (GoArmor.crc24 GoArmor.crc24Init (list_ascii_of_string "123456789"))
    GoArmor.crc24Mask = 0x21CF02.
Proof. split; vm_compute; reflexivity. Qed.

Example armor_examples :
  string_of_list_ascii (GoArmor.Encode "PGP MESSAGE" []) =
    "-----BEGIN PGP MESSAGE-----" +:+ Sample.nl +:+ Sample.nl +:+ Sample.nl
    +:+ "=twTO" +:+ Sample.nl +:+ "-----END PGP MESSAGE-----" /\
  string_of_list_ascii
    (GoArmor.Encode "PGP MESSAGE" (list_ascii_of_string "hello world")) =
    "-----BEGIN PGP MESSAGE-----" +:+ Sample.nl +:+ Sample.nl
    +:+ "aGVsbG8gd29ybGQ=" +:+ Sample.nl
    +:+ "=sDy3" +:+ Sample.nl +:+ "-----END PGP MESSAGE-----".
Proof. split; vm_compute; reflexivity. Qed.

(** Lines with and without carriage returns, an empty line and a last
    line without a newline. *)
Example scan_lines_examples :
  GoBufio.Scanner_tokens
    {| data := "a" +:+ String "013"%char Sample.nl +:+ Sample.nl +:+ "b"
               +:+ Sample.nl +:+ "c";
       readErr := None; closeErr := None |}
  = (["a"; ""; "b"; "c"], None) /\
  GoBufio.Scanner_tokens {| data := ""; readErr := None; closeErr := None |}
  = ([], None) /\
  GoBufio.Scanner_tokens {| data := Sample.nl; readErr := None; closeErr := None |}
  = ([""], None).
Proof. repeat split; vm_compute; reflexivity. Qed.

Example Walk_sample :
  GoFilepath.Walk (walkFn "/store") "/store" Sample.sample_tree [] =
  (["/store/example.com/alice.gpg"; "/store/work/example.com/alice.gpg"], None).
Proof. reflexivity. Qed.

(** ** The effects *)

Ltac io := unfold bind, ret, emit in *; simpl in *.

(** Case analysis on what a [match] of the goal, or else of a hypothesis,
    inspects. *)
Ltac goal_scrutinee :=
  match goal with
  | |- context [match ?scrut with _ => _ end] => destruct scrut eqn:?
  end.

Ltac hyp_scrutinee :=
  match goal with
  | Hyp : context [match ?scrut with _ => _ end] |- _ => destruct scrut eqn:?
  end.

Ltac break_match := first [goal_scrutinee | hyp_scrutinee].

(** ** [cmd.Wait()] after [cmd.Run()] *)

Lemma Wait_finished (c : GoExec.Cmd) :
  GoExec.finished c = true ->
  exists e, GoExec.Wait c = (c, Some e).
Proof.
  intros Hf. unfold GoExec.Wait.
  destruct (GoExec.Process c) as [[out w]|]; [rewrite Hf|]; eauto.
Qed.

Lemma Run_finished run (c c1 : GoExec.Cmd) t :
  GoExec.Run run c = ((c1, None), t) -> GoExec.finished c1 = true.
Proof.
  unfold GoExec.Run, GoExec.Start, GoExec.Wait. io.
  destruct (GoExec.Process c) as [[out w]|] eqn:HP; simpl; [congruence|].
  destruct (run _ _ _) as [e|out w]; simpl; [congruence|].
  intros H; inversion H; subst; reflexivity.
Qed.

Lemma Wait_after_Run run (c c1 : GoExec.Cmd) t :
  GoExec.Run run c = ((c1, None), t) ->
  GoExec.Wait c1 = (c1, Some "exec: Wait was already called").
Proof.
  unfold GoExec.Run, GoExec.Start, GoExec.Wait. io.
  destruct (GoExec.Process c) as [[out w]|] eqn:HP; simpl; [congruence|].
  destruct (run _ _ _) as [e|out w]; simpl; [congruence|].
  intros H; inversion H; subst; reflexivity.
Qed.

Section LoadFacts.
Variable NFKD : string -> string * nat * option error.
Variable Marshal : list item -> string * option error.

(** [Load] returns an error for every store, and leaves the resource as
    it is. *)
Lemma Load_never_installs (w : World) (v : SecretsResource) :
  exists e, fst (Load NFKD Marshal w v) = (Some e, v).
Proof.
  unfold Load. io.
  repeat (break_match; simplify_eq/=; eauto).
  all: match goal with
       | H : GoExec.Run _ _ = _ |- _ =>
           apply Wait_after_Run in H; congruence
       end.
Qed.

(** Every return of [Load] with an error precedes the assignments to
    the fields. *)
Lemma Load_error_unchanged (w : World) (v v' : SecretsResource) e t :
  Load NFKD Marshal w v = ((Some e, v'), t) -> v' = v.
Proof.
  unfold Load. io.
  repeat (break_match; simplify_eq/=; eauto); intros; simplify_eq; done.
Qed.

Lemma Load_trace_walks (w : World) (v : SecretsResource) :
  exists t, snd (Load NFKD Marshal w v) = EvWalk (store v) :: t.
Proof.
  unfold Load. io.
  repeat (break_match; simplify_eq/=; eauto).
Qed.
End LoadFacts.

(** ** The rebuild *)

(** C2 (the code departs from the claim).  In the sample store every stage
    of the rebuild succeeds: the walk finds the two secrets, both are read
    and armored, [.gpg-id] is read, the index is serialized and gpg runs
    and exits with status 0.  Still [Load] returns the error of the
    [cmd.Wait()] that follows [cmd.Run()], nothing is installed, [loaded]
    stays false and [List] answers with status 500 instead of the
    encrypted index. *)
Theorem Load_fails_when_every_stage_succeeds :
  let w := Sample.sample_world in
  let v := Sample.empty_resource in
  (exists stdin,
     Load NFKDLatin1.NFKD Sample.sample_Marshal w v =
       ((Some "unable to encrypt index: exec: Wait was already called", v),
        [EvWalk "/store"; EvOpen "/store/example.com/alice.gpg";
         EvOpen "/store/work/example.com/alice.gpg"; EvOpen "/store/.gpg-id";
         EvExec "gpg"
           ["--encrypt"; "--armor"; "-r"; "KEY1"; "-r"; "KEY2"; "-r"; "KEY1"]
           stdin]) /\
     Sample.sample_run "gpg"
       ["--encrypt"; "--armor"; "-r"; "KEY1"; "-r"; "KEY2"; "-r"; "KEY1"] stdin
     = GoExec.Exits ("encrypted(" +:+ stdin +:+ ")") None) /\
  fst (List NFKDLatin1.NFKD Sample.sample_Marshal w None v) =
    ((StatusInternalServerError,
      ErrorBody "unable to load password store: unable to encrypt index: exec: Wait was already called"),
     v).
Proof.
  split; [eexists; split|]; vm_compute; reflexivity.
Qed.

(** The error of each stage of the rebuild, in the sample store. *)
Example Load_failures :
  let v := Sample.empty_resource in
  fst (Load NFKDLatin1.NFKD Sample.sample_Marshal Sample.broken_world v)
  = (Some "issue while discovering secrets: lstat /store: permission denied", v) /\
  fst (Load NFKDLatin1.NFKD Sample.sample_Marshal Sample.unreadable_world v)
  = (Some ("failed to read secret /store/work/example.com/alice.gpg: "
           +:+ "failed to open file: "
           +:+ "open /store/work/example.com/alice.gpg: permission denied"), v) /\
  fst (Load NFKDLatin1.NFKD Sample.sample_Marshal Sample.no_ids_world v)
  = (Some "unable to load .gpg-id: open /store/.gpg-id: no such file or directory", v) /\
  fst (Load NFKDLatin1.NFKD Sample.failing_Marshal Sample.sample_world v)
  = (Some "failed to create index: json: unsupported value", v) /\
  fst (Load NFKDLatin1.NFKD Sample.sample_Marshal Sample.no_gpg_world v)
  = (Some ("unable to run gpg command to encrypt index: "
           +:+ "exec: gpg: executable file not found in $PATH"), v) /\
  fst (Load NFKDLatin1.NFKD Sample.sample_Marshal Sample.gpg_exit_world v)
  = (Some "unable to run gpg command to encrypt index: exit status 2", v).
Proof. repeat split; vm_compute; reflexivity. Qed.

Section Rebuild.
Variable NFKD : string -> string * nat * option error.
Variable Marshal : list item -> string * option error.

Lemma List_runs_Load (w : World) (v : SecretsResource) e t :
  loaded v = false ->
  Load NFKD Marshal w v = ((Some e, v), t) ->
  List NFKD Marshal w None v =
    (((StatusInternalServerError,
       ErrorBody (Wrap e "unable to load password store")), v), t).
Proof.
  intros Hl HL. unfold List, ensureLoaded. rewrite Hl. simpl.
  unfold bind. rewrite HL. simpl. by rewrite app_nil_r.
Qed.

Lemma Show_runs_Load (w : World) (v : SecretsResource) req e t :
  loaded v = false ->
  Path req <> "" -> Username req <> "" ->
  Load NFKD Marshal w v = ((Some e, v), t) ->
  Show NFKD Marshal w (inr req) v =
    (((StatusInternalServerError,
       ErrorBody (Wrap e "unable to load password store")), v), t).
Proof.
  intros Hl Hp Hu HL. unfold Show, ensureLoaded.
  apply String.eqb_neq in Hp, Hu. rewrite Hp, Hu, Hl. simpl.
  unfold bind. rewrite HL. simpl. by rewrite app_nil_r.
Qed.

Lemma List_trace_walks (w : World) (v : SecretsResource) :
  loaded v = false ->
  exists t, snd (List NFKD Marshal w None v) = EvWalk (store v) :: t.
Proof.
  intros Hl. unfold List, ensureLoaded. rewrite Hl. simpl.
  destruct (Load_trace_walks NFKD Marshal w v) as [t Ht].
  unfold bind. destruct (Load NFKD Marshal w v) as [[e v'] t0].
  simpl in Ht. subst t0. destruct e; simpl; eauto.
Qed.

(** C3.  When [Load] returns an error, whatever the stage that failed,
    the resource is the one it was called with: [index], [secrets] and
    [loaded] are untouched.  The query that ran it ([List], or [Show] with
    both fields) answers with status 500 and this error, and the next
    query, in whatever state the store then is, starts the rebuild again
    with the walk. *)
Theorem failed_rebuild_leaves_resource_untouched
    (w : World) (v v' : SecretsResource) (err : error) (t : list event) :
  Load NFKD Marshal w v = ((Some err, v'), t) ->
  v' = v /\
  (loaded v = false ->
     List NFKD Marshal w None v =
       (((StatusInternalServerError,
          ErrorBody (Wrap err "unable to load password store")), v), t) /\
     (forall req, Path req <> "" -> Username req <> "" ->
        Show NFKD Marshal w (inr req) v =
          (((StatusInternalServerError,
             ErrorBody (Wrap err "unable to load password store")), v), t)) /\
     (forall w', exists t',
        snd (List NFKD Marshal w' None v') = EvWalk (store v) :: t')).
Proof.
  intros HL.
  pose proof (Load_error_unchanged NFKD Marshal w v v' err t HL). subst v'.
  split; [reflexivity|]. intros Hl. repeat split.
  - by apply List_runs_Load.
  - intros. by apply Show_runs_Load.
  - intros w'. by apply List_trace_walks.
Qed.
End Rebuild.

Lemma failed_rebuild_witness :
  Sample.empty_resource = Sample.empty_resource /\
  (loaded Sample.empty_resource = false ->
     List NFKDLatin1.NFKD Sample.sample_Marshal Sample.broken_world None
       Sample.empty_resource =
       (((StatusInternalServerError,
          ErrorBody (Wrap "issue while discovering secrets: lstat /store: permission denied"
                       "unable to load password store")), Sample.empty_resource),
        [EvWalk "/store"]) /\
     (forall req, Path req <> "" -> Username req <> "" ->
        Show NFKDLatin1.NFKD Sample.sample_Marshal Sample.broken_world (inr req)
          Sample.empty_resource =
          (((StatusInternalServerError,
             ErrorBody (Wrap "issue while discovering secrets: lstat /store: permission denied"
                          "unable to load password store")), Sample.empty_resource),
           [EvWalk "/store"])) /\
     (forall w', exists t',
        snd (List NFKDLatin1.NFKD Sample.sample_Marshal w' None Sample.empty_resource)
        = EvWalk (store Sample.empty_resource) :: t')).
Proof.
  apply (failed_rebuild_leaves_resource_untouched NFKDLatin1.NFKD
           Sample.sample_Marshal Sample.broken_world Sample.empty_resource
           Sample.empty_resource).
  reflexivity.
Defined.

(** ** The recipients *)

Lemma split_lines_head (rest line : list ascii) :
  exists l ls, split_lines rest line = (line ++ l) :: ls.
Proof.
  revert line. induction rest as [|c rest IH]; intros line; simpl.
  - exists [], []. by rewrite app_nil_r.
  - destruct (Ascii.eqb c "010").
    + exists [], (split_lines rest []). by rewrite app_nil_r.
    + destruct (IH (line ++ [c])) as (l & ls & ->).
      exists (c :: l), ls. by rewrite <- app_assoc.
Qed.

(** The scanner on lines that fit its buffer: the tokens are the lines
    without their carriage return, but for an empty last line. *)
Lemma scan_lines_short (rest line : list ascii) (last : option error) :
  Forall GoBufio.short (split_lines rest line) ->
  List.filter nonempty (fst (GoBufio.scan_lines rest line last)) =
    List.filter nonempty
      (map (fun l => string_of_list_ascii (GoBufio.dropCR l)) (split_lines rest line))
  /\ snd (GoBufio.scan_lines rest line last) = last.
Proof.
  revert line. induction rest as [|c rest IH]; intros line Hs; simpl.
  - destruct line; simpl; auto.
  - simpl in Hs. destruct (Ascii.eqb c "010") eqn:Hc.
    + inversion Hs as [|? ? _ Hs']; subst.
      destruct (IH [] Hs') as [IH1 IH2].
      destruct (GoBufio.scan_lines rest [] last) as [toks e]. simpl in *.
      rewrite IH1. auto.
    + destruct (split_lines_head rest (line ++ [c])) as (l & ls & Heq).
      assert (Hlen : (N.of_nat (length line) + 1 < GoBufio.MaxScanTokenSize)%N).
      { rewrite Heq in Hs. inversion Hs as [|? ? Hh _]; subst.
        unfold GoBufio.short in Hh. rewrite !length_app in Hh. simpl in Hh. lia. }
      destruct (GoBufio.MaxScanTokenSize <=? N.of_nat (length line) + 1)%N eqn:Hmax.
      * apply N.leb_le in Hmax. lia.
      * apply IH, Hs.
Qed.

(** A line that fills the buffer stops the scanner. *)
Lemma scan_lines_too_long (rest line : list ascii) (c : ascii) (last : option error) :
  Ascii.eqb c "010" = false ->
  (GoBufio.MaxScanTokenSize <= N.of_nat (length line) + 1)%N ->
  GoBufio.scan_lines (c :: rest) line last = ([], Some GoBufio.ErrTooLong).
Proof.
  intros Hc Hlen. simpl. rewrite Hc.
  destruct (GoBufio.MaxScanTokenSize <=? N.of_nat (length line) + 1)%N eqn:Hmax; [done|].
  apply N.leb_gt in Hmax. lia.
Qed.


Lemma readIDs_trace (w : World) (store : string) :
  snd (readIDs w store) = [EvOpen (GoPath.Join store ".gpg-id")].
Proof.
  unfold readIDs, os_Open. io.
  repeat (break_match; simplify_eq/=; eauto).
Qed.

Section Recipients.
Variable NFKD : string -> string * nat * option error.
Variable Marshal : list item -> string * option error.

Lemma load_secrets_trace (w : World) (store : string) (filenames : list string)
    ix sm ev :
  In ev (snd (load_secrets NFKD w store filenames ix sm)) ->
  exists name, ev = EvOpen name.
Proof.
  revert ix sm. induction filenames as [|f fs IH]; intros ix sm; simpl.
  - intros [].
  - unfold readSecret, os_Open. io.
    destruct (Open w f) as [e|fl]; simpl.
    + intros [<-|[]]. eauto.
    + destruct (enarmor fl) as [e|text]; simpl.
      * intros [<-|[]]. eauto.
      * specialize (IH (ix ++ [index_item NFKD store f])
                       (<[item_name (index_item NFKD store f) := text]> sm)).
        destruct (load_secrets _ _ _ _ _ _) as [r t]. simpl in *.
        intros [<-|Hin]; eauto.
Qed.

Lemma Run_trace run (c : GoExec.Cmd) ev :
  In ev (snd (GoExec.Run run c)) ->
  ev = EvExec (GoExec.Path c) (GoExec.Args c) (GoExec.Stdin c).
Proof.
  unfold GoExec.Run, GoExec.Start. io.
  repeat (break_match; simplify_eq/=; eauto);
    intros Hin; decompose [or] Hin; try contradiction; subst; reflexivity.
Qed.

(** The one command [Load] runs is gpg: after the walk, the reading of
    the secrets, [readIDs] and [json.Marshal] went well, with the
    recipients as arguments and the serialized index as input. *)
Lemma Load_exec_full (w : World) (v : SecretsResource) name args stdin :
  In (EvExec name args stdin) (snd (Load NFKD Marshal w v)) ->
  name = "gpg" /\
  exists fns ix sm t ids,
    GoFilepath.Walk (walkFn (store v)) (store v) (tree w) [] = (fns, None) /\
    load_secrets NFKD w (store v) fns [] ∅ = (inr (ix, sm), t) /\
    fst (readIDs w (store v)) = (ids, None) /\
    args = gpg_args ids /\ Marshal ix = (stdin, None).
Proof.
  unfold Load. io.
  destruct (GoFilepath.Walk _ _ _ _) as [fns [e|]] eqn:HW; simpl.
  { intros [?|[]]; discriminate. }
  pose proof (load_secrets_trace w (store v) fns [] ∅) as Hls.
  destruct (load_secrets _ _ _ _ _ _) as [[e|[ix sm]] t1] eqn:HL; simpl in *.
  { rewrite app_nil_r. intros [?|Hin]; [discriminate|].
    destruct (Hls _ Hin); discriminate. }
  pose proof (readIDs_trace w (store v)) as Hrt.
  destruct (readIDs w (store v)) as [[ids [e|]] t2]; simpl in *; subst t2.
  { intros [?|Hin]; [discriminate|].
    apply in_app_or in Hin as [Hin|[?|[]]]; [|discriminate].
    destruct (Hls _ Hin); discriminate. }
  destruct (Marshal ix) as [js [e|]] eqn:HM; simpl.
  { intros [?|Hin]; [discriminate|].
    apply in_app_or in Hin as [Hin|[?|[]]]; [|discriminate].
    destruct (Hls _ Hin); discriminate. }
  match goal with
  | |- context [GoExec.Run ?r ?c] =>
      pose proof (Run_trace r c) as HR; destruct (GoExec.Run r c) as [[c1 oe] t3]
  end.
  simpl in *.
  destruct oe as [e|]; simpl.
  - intros [?|Hin]; [discriminate|].
    apply in_app_or in Hin as [Hin|Hin]; [destruct (Hls _ Hin); discriminate|].
    destruct Hin as [?|Hin]; [discriminate|].
    rewrite app_nil_r in Hin. apply HR in Hin. inversion Hin; subst.
    split; [done|]. exists fns, ix, sm, t1, ids. by rewrite HM.
  - destruct (GoExec.Wait c1) as [c2 [e|]]; simpl;
      (intros [?|Hin]; [discriminate|];
       apply in_app_or in Hin as [Hin|Hin]; [destruct (Hls _ Hin); discriminate|];
       destruct Hin as [?|Hin]; [discriminate|];
       rewrite app_nil_r in Hin; apply HR in Hin; inversion Hin; subst;
       split; [done|]; exists fns, ix, sm, t1, ids; by rewrite HM).
Qed.

Lemma Load_exec (w : World) (v : SecretsResource) name args stdin :
  In (EvExec name args stdin) (snd (Load NFKD Marshal w v)) ->
  name = "gpg" /\
  exists ids, fst (readIDs w (store v)) = (ids, None) /\ args = gpg_args ids.
Proof.
  intros Hin.
  destruct (Load_exec_full w v name args stdin Hin)
    as (-> & fns & ix & sm & t & ids & _ & _ & Hids & -> & _).
  eauto.
Qed.



End Recipients.



(** ** The goroutines: invariants of the lock protocol *)

Module ConcurrentFacts.
Import Concurrent.

(** Changing the program counter of one goroutine changes a count by
    what the old and the new counter contribute. *)
Lemma count_insert (P : pc -> bool) (pcs : list pc) (t : nat) (p q : pc) :
  pcs !! t = Some p ->
  (count P (<[t := q]> pcs) + b2n (P p) = count P pcs + b2n (P q))%nat.
Proof.
  unfold count. revert t. induction pcs as [|x pcs IH]; intros [|t] H;
    simpl in *; try discriminate.
  - inversion H; subst. destruct (P p), (P q); simpl; lia.
  - specialize (IH t H). destruct (P x); simpl; lia.
Qed.

Lemma count_le_length (P : pc -> bool) (pcs : list pc) :
  (count P pcs <= length pcs)%nat.
Proof.
  unfold count. induction pcs as [|x pcs IH]; simpl; [lia|].
  destruct (P x); simpl; lia.
Qed.

Lemma count_one (P : pc -> bool) (pcs : list pc) (t : nat) (p : pc) :
  pcs !! t = Some p -> P p = true -> (1 <= count P pcs)%nat.
Proof.
  unfold count. revert t. induction pcs as [|x pcs IH]; intros [|t] Ht Hp;
    simpl in *; try discriminate.
  - inversion Ht; subst. rewrite Hp. simpl. lia.
  - specialize (IH t Ht Hp). destruct (P x); simpl; lia.
Qed.

(** Two goroutines that satisfy [P] count for two. *)
Lemma count_two (P : pc -> bool) (pcs : list pc) (t u : nat) (p q : pc) :
  t <> u -> pcs !! t = Some p -> pcs !! u = Some q ->
  P p = true -> P q = true -> (2 <= count P pcs)%nat.
Proof.
  revert t u. induction pcs as [|x pcs IH]; intros [|t] [|u] Hne Ht Hu Hp Hq;
    simpl in *; try discriminate; try congruence.
  - inversion Ht; subst. pose proof (count_one P pcs u q Hu Hq) as H1.
    unfold count in *. simpl. rewrite Hp. simpl. lia.
  - inversion Hu; subst. pose proof (count_one P pcs t p Ht Hp) as H1.
    unfold count in *. simpl. rewrite Hq. simpl. lia.
  - assert (Hne' : t <> u) by congruence.
    specialize (IH t u Hne' Ht Hu Hp Hq).
    unfold count in *. simpl. destruct (P x); simpl; lia.
Qed.

Lemma count_replicate_false (P : pc -> bool) (n : nat) (p : pc) :
  P p = false -> count P (replicate n p) = 0%nat.
Proof.
  intros H. unfold count. induction n; simpl; [done|]. by rewrite H.
Qed.

Lemma Inv_init (n : nat) : Inv (init n).
Proof.
  unfold init. constructor; simpl;
    rewrite ?count_replicate_false by reflexivity; try done.
  - intros t H. apply lookup_replicate in H as [? _]. discriminate.
  - intros t [H|H]; apply lookup_replicate in H as [? _]; discriminate.
  - intros t ig sg [H|H]; apply lookup_replicate in H as [? _]; discriminate.
Qed.

(** What a lookup after the step of [t] says about the state before. *)
Lemma lookup_after (pcs : list pc) (t u : nat) (q r : pc) :
  <[t := q]> pcs !! u = Some r ->
  (u = t /\ r = q) \/ (u <> t /\ pcs !! u = Some r).
Proof.
  intros H. apply list_lookup_insert_Some in H as [(-> & -> & _)|[? ?]]; auto.
Qed.

Ltac counts pcs t p q H :=
  pose proof (count_insert holds_rlock pcs t p q H);
  pose proof (count_insert holds_lock pcs t p q H);
  pose proof (count_insert walked pcs t p q H);
  pose proof (count_insert ran_gpg pcs t p q H).

(** A goroutine at [p] holds the write lock, and so does another one at
    [q]: the count of the holders excludes it. *)
Ltac excluded :=
  match goal with
  | Hne : ?u <> ?t, Ht : ?pcs !! ?t = Some ?p, Hu : ?pcs !! ?u = Some ?q,
    Hw : _ = count holds_lock ?pcs |- _ =>
      let H2 := fresh in
      assert (H2 : (2 <= count holds_lock pcs)%nat)
        by (apply (count_two holds_lock pcs u t q p Hne Hu Ht); reflexivity);
      simpl in Hw; lia
  end.

Ltac lookups :=
  repeat match goal with
  | H : <[_ := _]> _ !! _ = Some _ |- _ =>
      apply lookup_after in H as [[-> ?]|[? ?]]
  | H : _ \/ _ |- _ => destruct H
  end; simplify_eq.

Section Steps.
Variable outcome : nat -> stage -> bool.

Lemma step_Inv (t : nat) (σ σ' : state) :
  Inv σ -> step outcome t σ = Some σ' -> Inv σ'.
Proof.
  destruct σ as [s pcs]. intros [Hr Hw Hx Hwk Hex Hi Hb Hs Hsn]. simpl in *.
  unfold step. destruct (pcs !! t) as [p|] eqn:Hp; [|discriminate].
  assert (Hone_r : holds_rlock p = true -> (1 <= count holds_rlock pcs)%nat)
    by (apply (count_one holds_rlock pcs t p Hp)).
  assert (Hone_w : holds_lock p = true -> (1 <= count holds_lock pcs)%nat)
    by (apply (count_one holds_lock pcs t p Hp)).
  destruct p; intros Hstep; simpl in Hone_r, Hone_w;
    repeat match type of Hstep with
           | context [if ?b then _ else _] => destruct b eqn:?
           end;
    simplify_eq;
    repeat match goal with
           | H : _ || _ = false |- _ => apply orb_false_iff in H as [? ?]
           | H : negb _ = false |- _ => apply negb_false_iff in H
           | H : (_ =? _)%nat = true |- _ => apply Nat.eqb_eq in H
           | H : true = true -> _ |- _ => specialize (H eq_refl)
           | st : stage |- _ => destruct st
           end;
    match goal with
    | |- Inv (_, <[t := ?q]> pcs) =>
        match type of Hp with _ = Some ?p => counts pcs t p q Hp end
    end;
    destruct (writer s) eqn:Hwr;
    constructor; simpl in *; rewrite ?Hwr in *; simpl in *; intros; lookups;
    try discriminate; try lia; eauto; try excluded.
  destruct (Hb t) as [-> ->]; auto.
Qed.

Lemma run_Inv (sched : list nat) (σ σ' : state) :
  Inv σ -> run outcome sched σ = Some σ' -> Inv σ'.
Proof.
  revert σ. induction sched as [|t sched IH]; intros σ HI; simpl.
  - intros H; inversion H; subst; exact HI.
  - destruct (step outcome t σ) as [σ1|] eqn:Hs; [|discriminate].
    apply IH. eapply step_Inv; eauto.
Qed.

Lemma step_length (t : nat) (σ σ' : state) :
  step outcome t σ = Some σ' -> length σ'.2 = length σ.2.
Proof.
  destruct σ as [s pcs]. unfold step.
  destruct (pcs !! t) as [p|]; [|discriminate].
  destruct p; intros Hstep;
    repeat match type of Hstep with
           | context [if ?b then _ else _] => destruct b eqn:?
           end;
    simplify_eq; simpl; apply length_insert.
Qed.

Lemma run_length (sched : list nat) (σ σ' : state) :
  run outcome sched σ = Some σ' -> length σ'.2 = length σ.2.
Proof.
  revert σ. induction sched as [|t sched IH]; intros σ; simpl.
  - intros H; inversion H; subst; reflexivity.
  - destruct (step outcome t σ) as [σ1|] eqn:Hs; [|discriminate].
    intros H. rewrite (IH _ H). eapply step_length; eauto.
Qed.

(** Every state that a schedule reaches from the initial one. *)
Lemma reachable_Inv (n : nat) (sched : list nat) (σ : state) :
  run outcome sched (init n) = Some σ -> Inv σ /\ length σ.2 = n.
Proof.
  intros H. split.
  - eapply run_Inv; [apply Inv_init|exact H].
  - rewrite (run_length _ _ _ H). apply length_replicate.
Qed.
End Steps.
End ConcurrentFacts.

(** ** Concurrent queries against an empty cache *)

(** C1, where the claim fails.  Two queries arrive while nothing is
    loaded and take their steps in turn.  Both find [loaded] false, both
    release the read lock and both run [Load]: after eight steps each the
    two rebuilds are in progress at the same time, and at the end two walks
    and two runs of gpg have been made.  (Both queries end with status 500,
    since [Load] never succeeds.) *)
Lemma two_queries_two_rebuilds :
  (exists s,
     Concurrent.run Concurrent.outcome_go (firstn 16 Concurrent.in_turn)
       (Concurrent.init 2)
     = Some (s, [Concurrent.InLoad Concurrent.SWait; Concurrent.InLoad Concurrent.SWait])
     /\ Concurrent.walks s = 2%nat /\ Concurrent.execs s = 2%nat) /\
  (exists s,
     Concurrent.run Concurrent.outcome_go Concurrent.in_turn (Concurrent.init 2)
     = Some (s, [Concurrent.Done Concurrent.Unavailable;
                 Concurrent.Done Concurrent.Unavailable])
     /\ Concurrent.walks s = 2%nat /\ Concurrent.execs s = 2%nat) /\
  ~ (forall n sched σ,
       Concurrent.run Concurrent.outcome_go sched (Concurrent.init n) = Some σ ->
       (Concurrent.walks σ.1 <= 1)%nat /\ (Concurrent.execs σ.1 <= 1)%nat).
Proof.
  split; [|split].
  - eexists. split; [vm_compute; reflexivity|]. split; reflexivity.
  - eexists. split; [vm_compute; reflexivity|]. split; reflexivity.
  - intros H.
    destruct (Concurrent.run Concurrent.outcome_go Concurrent.in_turn
                (Concurrent.init 2)) as [σ|] eqn:Hrun; [|vm_compute in Hrun; discriminate].
    destruct (H 2%nat Concurrent.in_turn σ Hrun) as [Hw _].
    vm_compute in Hrun. inversion Hrun; subst. simpl in Hw. lia.
Qed.

(** C1, as amended.  Whatever the stages of the rebuilds do and however
    the [n] queries are scheduled: there are at most [n] walks and at most
    [n] runs of gpg (a query runs [Load] at most once); at most one
    goroutine is between [v.Lock()] and [v.Unlock()], and while one is, no
    goroutine holds the read lock. *)
Theorem rebuilds_bounded_by_queries
    (outcome : nat -> Concurrent.stage -> bool) (n : nat) (sched : list nat)
    (σ : Concurrent.state) :
  Concurrent.run outcome sched (Concurrent.init n) = Some σ ->
  (Concurrent.walks σ.1 <= n)%nat /\
  (Concurrent.execs σ.1 <= n)%nat /\
  (Concurrent.count Concurrent.holds_lock σ.2 <= 1)%nat /\
  (Concurrent.count Concurrent.holds_lock σ.2 = 1%nat ->
   Concurrent.count Concurrent.holds_rlock σ.2 = 0%nat).
Proof.
  intros Hrun.
  destruct (ConcurrentFacts.reachable_Inv outcome n sched σ Hrun) as [HI Hlen].
  destruct HI as [Hr Hw Hx Hwk Hex _ _ _ _].
  pose proof (ConcurrentFacts.count_le_length Concurrent.walked σ.2).
  pose proof (ConcurrentFacts.count_le_length Concurrent.ran_gpg σ.2).
  repeat split; try lia.
  - rewrite <- Hw. destruct (Concurrent.writer σ.1); simpl; lia.
  - rewrite <- Hw, <- Hr. destruct (Concurrent.writer σ.1); simpl; [auto|lia].
Qed.

Lemma rebuilds_bounded_witness :
  exists σ,
    Concurrent.run Concurrent.outcome_go Concurrent.in_turn (Concurrent.init 2) = Some σ /\
    (Concurrent.walks σ.1 <= 2)%nat /\
    (Concurrent.execs σ.1 <= 2)%nat /\
    (Concurrent.count Concurrent.holds_lock σ.2 <= 1)%nat /\
    (Concurrent.count Concurrent.holds_lock σ.2 = 1%nat ->
     Concurrent.count Concurrent.holds_rlock σ.2 = 0%nat).
Proof.
  eexists. split; [vm_compute; reflexivity|].
  apply (rebuilds_bounded_by_queries Concurrent.outcome_go 2 Concurrent.in_turn).
  vm_compute; reflexivity.
Defined.

(** ** The snapshot *)

Section Snapshot.
Variable NFKD : string -> string * nat * option error.

Lemma load_secrets_consistent (w : World) (store : string)
    (filenames : list string) ix sm ix' sm' t :
  load_secrets NFKD w store filenames ix sm = (inr (ix', sm'), t) ->
  ix' = ix ++ map (index_item NFKD store) filenames /\
  forall name,
    is_Some (sm' !! name) <->
    is_Some (sm !! name) \/
    In name (map item_name (map (index_item NFKD store) filenames)).
Proof.
  revert ix sm t. induction filenames as [|f fs IH]; intros ix sm t; simpl.
  - unfold ret. intros H; inversion H; subst. rewrite app_nil_r.
    split; [done|]. intros name. tauto.
  - unfold readSecret, os_Open. io.
    destruct (Open w f) as [e|fl]; simpl; [discriminate|].
    destruct (enarmor fl) as [e|text]; simpl; [discriminate|].
    destruct (load_secrets _ _ _ _ _ _) as [r t1] eqn:HL. simpl.
    intros H; inversion H; subst r t. clear H.
    destruct (IH _ _ _ HL) as [-> Hdom]. split.
    + by rewrite <- app_assoc.
    + intros name. rewrite Hdom, lookup_insert_is_Some. split.
      * intros [[->|[_ ?]]|?]; auto.
      * intros [?|[->|?]]; auto.
        destruct (decide (item_name (index_item NFKD store f) = name)); auto.
Qed.

Lemma load_secrets_keys (w : World) (store : string)
    (filenames : list string) ix sm t :
  load_secrets NFKD w store filenames [] ∅ = (inr (ix, sm), t) ->
  ix = map (index_item NFKD store) filenames /\
  forall name, In name (map item_name ix) <-> is_Some (sm !! name).
Proof.
  intros HL.
  destruct (load_secrets_consistent _ _ _ _ _ _ _ _ HL) as [Hix Hdom].
  simpl in Hix. subst ix. split; [done|]. intros name. split.
  - intros Hin. apply Hdom. auto.
  - intros Hsome. apply Hdom in Hsome as [Hsome|?]; [|done].
    rewrite lookup_empty in Hsome. by destruct Hsome.
Qed.
End Snapshot.

(** ** Bytes and bits *)

Lemma land_le_r (a b : Z) : 0 <= b -> Z.land a b <= b.
Proof.
  intros Hb.
  pose proof (Zbitwise.Z.add_lor_land (Z.land b a) (Z.ldiff b a)) as H.
  rewrite (Z.lor_comm (Z.land b a)), Z.lor_ldiff_and in H.
  rewrite <- Z.land_assoc, (Z.land_comm a), Z.land_ldiff, Z.land_0_r in H.
  assert (0 <= Z.ldiff b a) by (apply Z.ldiff_nonneg; auto).
  rewrite (Z.land_comm a b). lia.
Qed.

Lemma lor_ge_l (a b : Z) : 0 <= b -> a <= Z.lor a b.
Proof.
  intros Hb. pose proof (Zbitwise.Z.add_lor_land a b).
  pose proof (land_le_r a b Hb). lia.
Qed.

Lemma lor_ge_r (a b : Z) : 0 <= a -> b <= Z.lor a b.
Proof. intros. rewrite Z.lor_comm. by apply lor_ge_l. Qed.

(** A value below [2^k] fills the [k] low bits that a shift leaves free. *)
Lemma lor_shiftl_add (x y k : Z) :
  0 <= k -> 0 <= y < 2 ^ k -> Z.lor (Z.shiftl x k) y = x * 2 ^ k + y.
Proof.
  intros Hk Hy.
  pose proof (Zbitwise.Z.add_lor_land (Z.shiftl x k) y) as H.
  rewrite Z.shiftl_mul_pow2 in * by lia.
  enough (Z.land (x * 2 ^ k) y = 0) by lia.
  apply Z.bits_inj'. intros n Hn. rewrite Z.land_spec, Z.bits_0.
  destruct (Z.lt_ge_cases n k).
  - rewrite Z.mul_pow2_bits_low by lia. reflexivity.
  - replace y with (y mod 2 ^ k) by (apply Z.mod_small; lia).
    rewrite Z.mod_pow2_bits_high by lia. apply andb_false_r.
Qed.

Lemma byteZ_range (c : ascii) : 0 <= byteZ c < 256.
Proof.
  unfold byteZ. pose proof (N_ascii_bounded c). lia.
Qed.

Lemma byteZ_Zbyte (z : Z) : byteZ (Zbyte z) = z mod 256.
Proof.
  unfold byteZ, Zbyte.
  assert (0 <= z mod 256 < 256) by (apply Z.mod_pos_bound; lia).
  rewrite N_ascii_embedding by lia. lia.
Qed.

Lemma Zbyte_byteZ (c : ascii) : Zbyte (byteZ c) = c.
Proof.
  unfold Zbyte. rewrite Z.mod_small by apply byteZ_range.
  unfold byteZ. rewrite N2Z.id. apply ascii_N_embedding.
Qed.

(** ** UTF-8: the runes that [range] visits *)

Module Utf8Facts.
Import GoUtf8.

Lemma first_Some (b : Z) (sz : nat) (lo hi : Z) :
  first b = Some (sz, lo, hi) ->
  0x80 <= lo /\ hi <= 0xBF /\
  ((sz = 2%nat /\ 0xC2 <= b <= 0xDF) \/
   (sz = 3%nat /\ 0xE0 <= b <= 0xEF /\ (b = 0xE0 -> lo = 0xA0)) \/
   (sz = 4%nat /\ 0xF0 <= b <= 0xF4 /\ (b = 0xF0 -> lo = 0x90))).
Proof.
  unfold first.
  repeat match goal with
         | |- context [if ?c then _ else _] => destruct c eqn:?
         end; intros H; inversion H; subst; lia.
Qed.

Lemma first_None_ascii (b : Z) : b < 0x80 -> first b = None.
Proof. intros H. unfold first. destruct (b <? 0xC2) eqn:E; [done|lia]. Qed.

Lemma land_31 x : Z.land x 0x1F = x mod 32.
Proof. change 0x1F with (Z.ones 5). by rewrite Z.land_ones. Qed.
Lemma land_15 x : Z.land x 0x0F = x mod 16.
Proof. change 0x0F with (Z.ones 4). by rewrite Z.land_ones. Qed.
Lemma land_7 x : Z.land x 0x07 = x mod 8.
Proof. change 0x07 with (Z.ones 3). by rewrite Z.land_ones. Qed.
Lemma land_63 x : Z.land x 0x3F = x mod 64.
Proof. change 0x3F with (Z.ones 6). by rewrite Z.land_ones. Qed.

Lemma rune2_ge (s0 s1 : Z) :
  0xC2 <= s0 <= 0xDF -> 0 <= s1 ->
  0x80 <= Z.lor (Z.shiftl (Z.land s0 0x1F) 6) (Z.land s1 0x3F).
Proof.
  intros H0 H1. rewrite land_31, land_63, Z.shiftl_mul_pow2 by lia.
  etransitivity; [|apply lor_ge_l; apply Z.mod_pos_bound; lia].
  change (2 ^ 6) with 64. Z.div_mod_to_equations. lia.
Qed.

Lemma rune3_ge (s0 s1 s2 : Z) :
  0xE0 <= s0 <= 0xEF -> (s0 = 0xE0 -> 0xA0 <= s1) -> 0x80 <= s1 <= 0xBF ->
  0 <= s2 ->
  0x80 <= Z.lor (Z.lor (Z.shiftl (Z.land s0 0x0F) 12)
                       (Z.shiftl (Z.land s1 0x3F) 6))
                (Z.land s2 0x3F).
Proof.
  intros H0 HE H1 H2. rewrite land_15, !land_63, !Z.shiftl_mul_pow2 by lia.
  change (2 ^ 6) with 64. change (2 ^ 12) with 4096.
  etransitivity; [|apply lor_ge_l; apply Z.mod_pos_bound; lia].
  destruct (Z.eq_dec s0 0xE0) as [->|Hne].
  - etransitivity; [|apply lor_ge_r; Z.div_mod_to_equations; lia].
    specialize (HE eq_refl). Z.div_mod_to_equations. lia.
  - etransitivity; [|apply lor_ge_l; Z.div_mod_to_equations; lia].
    Z.div_mod_to_equations. lia.
Qed.

Lemma rune4_ge (s0 s1 s2 s3 : Z) :
  0xF0 <= s0 <= 0xF4 -> (s0 = 0xF0 -> 0x90 <= s1) -> 0x80 <= s1 <= 0xBF ->
  0 <= s2 -> 0 <= s3 ->
  0x80 <= Z.lor (Z.lor (Z.lor (Z.shiftl (Z.land s0 0x07) 18)
                              (Z.shiftl (Z.land s1 0x3F) 12))
                       (Z.shiftl (Z.land s2 0x3F) 6))
                (Z.land s3 0x3F).
Proof.
  intros H0 HE H1 H2 H3.
  rewrite land_7, !land_63, !Z.shiftl_mul_pow2 by lia.
  change (2 ^ 6) with 64. change (2 ^ 12) with 4096. change (2 ^ 18) with 262144.
  etransitivity; [|apply lor_ge_l; apply Z.mod_pos_bound; lia].
  etransitivity; [|apply lor_ge_l; Z.div_mod_to_equations; lia].
  destruct (Z.eq_dec s0 0xF0) as [->|Hne].
  - etransitivity; [|apply lor_ge_r; Z.div_mod_to_equations; lia].
    specialize (HE eq_refl). Z.div_mod_to_equations. lia.
  - etransitivity; [|apply lor_ge_l; Z.div_mod_to_equations; lia].
    Z.div_mod_to_equations. lia.
Qed.
End Utf8Facts.

Module RangeFacts.
Import GoUtf8 Utf8Facts.

(** One step of [range]: the rune at [c0 :: s'] takes [c0] and the
    bytes [skipped], none of which is ASCII; it is [c0] when [c0] is
    ASCII and a code point from 0x80 on when not. *)
Lemma decode_step (c0 : ascii) (s' : list ascii) (r : Z) (w : nat) :
  DecodeRuneInString (c0 :: s') = (r, w) ->
  exists skipped rest',
    s' = skipped ++ rest' /\ w = S (length skipped) /\
    Forall (fun c => is_ascii c = false) skipped /\
    (is_ascii c0 = true -> r = byteZ c0 /\ skipped = []) /\
    (is_ascii c0 = false -> 0x80 <= r).
Proof.
  intros H. unfold DecodeRuneInString in H. unfold is_ascii.
  pose proof (byteZ_range c0) as Hc0.
  destruct (first (byteZ c0)) as [[[sz lo] hi]|] eqn:Hf.
  2: { exists [], s'. inversion H; subst.
       split; [done|]. split; [done|]. split; [constructor|]. split.
       - intros Ha. by rewrite Ha.
       - intros Ha. rewrite Ha. unfold RuneError. lia. }
  apply first_Some in Hf as (Hlo & Hhi & Hsz).
  assert (Hna : (byteZ c0 <? 128) = false) by lia.
  rewrite Hna.
  assert (Hfin : forall sk rest', s' = sk ++ rest' -> w = S (length sk) ->
             Forall (fun c => (byteZ c <? 128) = false) sk -> 0x80 <= r ->
             exists skipped rest'0,
               s' = skipped ++ rest'0 /\ w = S (length skipped) /\
               Forall (fun c => (byteZ c <? 128) = false) skipped /\
               (false = true -> r = byteZ c0 /\ skipped = []) /\
               (false = false -> 128 <= r)).
  { intros sk rest' ? ? ? ?. exists sk, rest'.
    split; [done|]. split; [done|]. split; [done|]. split; [discriminate|done]. }
  destruct Hsz as [[-> Hb]|[[-> (Hb & HE)]|[-> (Hb & HE)]]];
    destruct s' as [|c1 [|c2 [|c3 s'']]]; simpl in H;
    repeat match type of H with
           | context [if ?c then _ else _] => destruct c eqn:?
           end;
    inversion H; subst; clear H;
    repeat match goal with
           | H : _ || _ = false |- _ => apply orb_false_iff in H as [? ?]
           | H : negb _ = false |- _ => apply negb_false_iff in H
           | H : cont _ = true |- _ =>
               unfold cont in H; apply andb_true_iff in H as [? ?]
           end;
    try (apply (Hfin [] _ eq_refl eq_refl); [constructor|unfold RuneError; lia]).
  - apply (Hfin [c1] _ eq_refl eq_refl); [repeat constructor; lia|].
    apply rune2_ge; [lia|apply byteZ_range].
  - apply (Hfin [c1] _ eq_refl eq_refl); [repeat constructor; lia|].
    apply rune2_ge; [lia|apply byteZ_range].
  - apply (Hfin [c1] _ eq_refl eq_refl); [repeat constructor; lia|].
    apply rune2_ge; [lia|apply byteZ_range].
  - apply (Hfin [c1; c2] _ eq_refl eq_refl); [repeat constructor; lia|].
    apply rune3_ge; lia.
  - apply (Hfin [c1; c2] _ eq_refl eq_refl); [repeat constructor; lia|].
    apply rune3_ge; lia.
  - apply (Hfin [c1; c2; c3] _ eq_refl eq_refl); [repeat constructor; lia|].
    apply rune4_ge; lia.
Qed.

Lemma filter_not_ascii (l : list ascii) :
  Forall (fun c => is_ascii c = false) l -> List.filter is_ascii l = [].
Proof.
  induction 1 as [|c l Hc _ IH]; simpl; [done|]. by rewrite Hc.
Qed.

Lemma filter_all_ascii (l : list ascii) :
  forallb is_ascii l = true -> List.filter is_ascii l = l.
Proof.
  induction l as [|c l IH]; simpl; [done|].
  intros H. apply andb_true_iff in H as [Hc Hl]. rewrite Hc. f_equal. auto.
Qed.

Lemma forallb_filter_ascii (l : list ascii) :
  forallb is_ascii (List.filter is_ascii l) = true.
Proof.
  induction l as [|c l IH]; simpl; [done|].
  destruct (is_ascii c) eqn:Hc; simpl; [by rewrite Hc|done].
Qed.

(** The loop of [normalize] over [range rs] appends the ASCII bytes of
    [rs]: the bytes it does not visit are not ASCII. *)
Lemma range_loop (rs : list ascii) (fuel : nat) :
  forall (pre rest acc : list ascii),
    rs = pre ++ rest -> (length rest <= fuel)%nat ->
    fold_left
      (fun b '(i, _) =>
         let c := nth i rs "000"%char in
         if byteZ c <? 0x80 then b ++ [c] else b)
      (range_from fuel (length pre) rest) acc
    = acc ++ List.filter is_ascii rest.
Proof.
  induction fuel as [|fuel IH]; intros pre rest acc Hrs Hlen.
  - destruct rest; simpl in *; [by rewrite app_nil_r|lia].
  - destruct rest as [|c0 s']; [simpl; by rewrite app_nil_r|].
    cbn [range_from].
    destruct (DecodeRuneInString (c0 :: s')) as [r w] eqn:Hd.
    destruct (decode_step _ _ _ _ Hd) as (sk & rest' & -> & -> & Hsk & _ & _).
    cbn [fold_left].
    assert (Hnth : nth (length pre) rs "000"%char = c0)
      by (subst rs; apply nth_middle).
    rewrite Hnth.
    replace (length pre + S (length sk))%nat
      with (length (pre ++ c0 :: sk)) by (rewrite length_app; simpl; lia).
    replace (skipn (S (length sk)) (c0 :: sk ++ rest')) with rest'
      by (simpl; by rewrite drop_app_length).
    rewrite IH.
    + cbn [List.filter]. rewrite List.filter_app, (filter_not_ascii sk Hsk).
      unfold is_ascii at 2. simpl.
      destruct (byteZ c0 <? 128); [by rewrite <- app_assoc|done].
    + subst rs. by rewrite <- app_assoc.
    + simpl in Hlen. rewrite length_app in Hlen. lia.
Qed.

(** The runes below 0x80 of [range rs], each as a byte, are the ASCII
    bytes of [rs]. *)
Lemma range_runes (fuel : nat) :
  forall (i : nat) (rest : list ascii),
    (length rest <= fuel)%nat ->
    map Zbyte (List.filter (fun r => r <? 0x80) (map snd (range_from fuel i rest)))
    = List.filter is_ascii rest.
Proof.
  induction fuel as [|fuel IH]; intros i rest Hlen.
  - destruct rest; simpl in *; [done|lia].
  - destruct rest as [|c0 s']; [done|].
    cbn [range_from].
    destruct (DecodeRuneInString (c0 :: s')) as [r w] eqn:Hd.
    destruct (decode_step _ _ _ _ Hd) as (sk & rest' & -> & -> & Hsk & Ha & Hn).
    replace (skipn (S (length sk)) (c0 :: sk ++ rest')) with rest'
      by (simpl; by rewrite drop_app_length).
    cbn [map snd List.filter]. rewrite List.filter_app, (filter_not_ascii sk Hsk).
    simpl. destruct (is_ascii c0) eqn:Hc.
    + destruct (Ha eq_refl) as [-> _]. unfold is_ascii in Hc. rewrite Hc.
      simpl. rewrite Zbyte_byteZ. f_equal. apply IH.
      simpl in Hlen. rewrite length_app in Hlen. lia.
    + specialize (Hn eq_refl).
      destruct (r <? 128) eqn:Hr; [lia|].
      apply IH. simpl in Hlen. rewrite length_app in Hlen. lia.
Qed.
End RangeFacts.

(** ** [normalize] *)

Section Normalize.
Variable NFKD : string -> string * nat * option error.

(** What [normalize] computes: the ASCII bytes of the NFKD form. *)
Lemma normalize_filter (s rs : string) (n : nat) :
  NFKD s = (rs, n, None) ->
  normalize NFKD s =
    string_of_list_ascii (List.filter is_ascii (list_ascii_of_string rs)).
Proof.
  intros H. unfold normalize. rewrite H. f_equal.
  apply (RangeFacts.range_loop _ _ [] _ []); [done|lia].
Qed.

Lemma normalize_error (s rs : string) (n : nat) (e : error) :
  NFKD s = (rs, n, Some e) -> normalize NFKD s = "".
Proof. intros H. unfold normalize. by rewrite H. Qed.

(** C6.  [normalize] is the function of the specification: the runes of
    the NFKD form of [s] that are below 0x80, which are the bytes of that
    form that are below 0x80, and the empty string when the
    transformation fails.  With the NFKD form of "Ångström", A, U+030A,
    n, g, s, t, r, o, U+0308, m, the result is "Angstrom". *)
Theorem normalize_keeps_ascii_of_NFKD (s : string) :
  normalize NFKD s = spec_normalize NFKD s /\
  (forall rs n, NFKD s = (rs, n, None) ->
     normalize NFKD s =
       string_of_list_ascii (List.filter is_ascii (list_ascii_of_string rs))) /\
  (forall rs n e, NFKD s = (rs, n, Some e) -> normalize NFKD s = "") /\
  (forall n, NFKD Angstrom_utf8 = (Angstrom_nfkd, n, None) ->
     normalize NFKD Angstrom_utf8 = "Angstrom").
Proof.
  split; [|split; [|split]].
  - unfold spec_normalize. destruct (NFKD s) as [[rs n] [e|]] eqn:H.
    + eapply normalize_error; eauto.
    + rewrite (normalize_filter _ _ _ H). f_equal. symmetry.
      apply RangeFacts.range_runes. lia.
  - apply normalize_filter.
  - apply normalize_error.
  - intros n H. rewrite (normalize_filter _ _ _ H). reflexivity.
Qed.

(** C10.  NFKD leaves ASCII text as it is; then [normalize], whose
    result is ASCII text, is idempotent. *)
Theorem normalize_idempotent :
  (forall t, forallb is_ascii (list_ascii_of_string t) = true ->
             exists n, NFKD t = (t, n, None)) ->
  forall s, normalize NFKD (normalize NFKD s) = normalize NFKD s.
Proof.
  intros Hfix s.
  assert (Hout : forall t, forallb is_ascii (list_ascii_of_string t) = true ->
                           normalize NFKD t = t).
  { intros t Ht. destruct (Hfix t Ht) as [n Hn].
    rewrite (normalize_filter _ _ _ Hn), RangeFacts.filter_all_ascii by done.
    apply string_of_list_ascii_of_string. }
  apply Hout.
  destruct (NFKD s) as [[rs n] [e|]] eqn:H.
  - by rewrite (normalize_error _ _ _ _ H).
  - rewrite (normalize_filter _ _ _ H), list_ascii_of_string_of_list_ascii.
    apply RangeFacts.forallb_filter_ascii.
Qed.
End Normalize.

(** The part of NFKD of [NFKDLatin1] leaves ASCII text as it is. *)
Lemma NFKDLatin1_ascii (t : string) :
  forallb is_ascii (list_ascii_of_string t) = true ->
  exists n, NFKDLatin1.NFKD t = (t, n, None).
Proof.
  intros Ht. exists (String.length t). unfold NFKDLatin1.NFKD. f_equal. f_equal.
  rewrite <- (string_of_list_ascii_of_string t) at 2. f_equal.
  induction (list_ascii_of_string t) as [|c0 l IH]; [done|].
  simpl in Ht. apply andb_true_iff in Ht as [Hc Hl].
  cbn [NFKDLatin1.decompose]. destruct l as [|c1 l']; [done|].
  unfold is_ascii in Hc.
  destruct (byteZ c0 =? 0xC3) eqn:E; [lia|]. f_equal. auto.
Qed.

Lemma normalize_Angstrom_witness :
  normalize NFKDLatin1.NFKD Angstrom_utf8 = "Angstrom".
Proof.
  exact (proj2 (proj2 (proj2
           (normalize_keeps_ascii_of_NFKD NFKDLatin1.NFKD Angstrom_utf8)))
           10%nat eq_refl).
Defined.

Lemma normalize_idempotent_witness :
  normalize NFKDLatin1.NFKD (normalize NFKDLatin1.NFKD Angstrom_utf8)
  = normalize NFKDLatin1.NFKD Angstrom_utf8.
Proof.
  exact (normalize_idempotent NFKDLatin1.NFKD NFKDLatin1_ascii Angstrom_utf8).
Defined.

(** ** Base64 *)

Module Base64Facts.
Import GoBase64.

Lemma enc_table :
  forallb
    (fun n =>
       let v := Z.of_nat n in
       match dec (enc v) with
       | Some u => (u =? v) && negb (Ascii.eqb (enc v) pad)
                   && negb (Ascii.eqb (enc v) nl)
       | None => false
       end) (seq 0 64) = true.
Proof. vm_compute. reflexivity. Qed.

Lemma enc_spec (v : Z) :
  0 <= v < 64 ->
  dec (enc v) = Some v /\ Ascii.eqb (enc v) pad = false /\
  Ascii.eqb (enc v) nl = false.
Proof.
  intros Hv. pose proof enc_table as H. rewrite forallb_forall in H.
  specialize (H (Z.to_nat v)). rewrite Z2Nat.id in H by lia.
  assert (Hin : In (Z.to_nat v) (seq 0 64)) by (apply in_seq; lia).
  specialize (H Hin). cbv zeta in H.
  destruct (dec (enc v)) as [u|]; [|discriminate].
  apply andb_true_iff in H as [H Hnl]. apply andb_true_iff in H as [Hu Hpad].
  apply Z.eqb_eq in Hu. apply negb_true_iff in Hpad, Hnl. by subst.
Qed.

Lemma land_sextet x : Z.land x 0x3F = x mod 64.
Proof. change 0x3F with (Z.ones 6). by rewrite Z.land_ones. Qed.

(** The 24-bit value of three bytes. *)
Lemma val3 (a b c : Z) :
  0 <= a < 256 -> 0 <= b < 256 -> 0 <= c < 256 ->
  Z.lor (Z.lor (Z.shiftl a 16) (Z.shiftl b 8)) c = a * 65536 + b * 256 + c.
Proof.
  intros Ha Hb Hc.
  rewrite (Z.shiftl_mul_pow2 b) by lia.
  rewrite (lor_shiftl_add a (b * 2 ^ 8) 16) by lia.
  replace (a * 2 ^ 16 + b * 2 ^ 8) with (Z.shiftl (a * 256 + b) 8)
    by (rewrite Z.shiftl_mul_pow2 by lia; lia).
  rewrite lor_shiftl_add by lia. lia.
Qed.

Lemma val2 (a b : Z) :
  0 <= a < 256 -> 0 <= b < 256 ->
  Z.lor (Z.shiftl a 16) (Z.shiftl b 8) = a * 65536 + b * 256.
Proof.
  intros Ha Hb. rewrite (Z.shiftl_mul_pow2 b) by lia.
  rewrite (lor_shiftl_add a (b * 2 ^ 8) 16) by lia. lia.
Qed.

(** The sextets of a 24-bit value, and the bytes they give back. *)
Lemma sextets (val : Z) (a b c : Z) :
  0 <= a < 256 -> 0 <= b < 256 -> 0 <= c < 256 ->
  val = a * 65536 + b * 256 + c ->
  let v0 := Z.land (Z.shiftr val 18) 0x3F in
  let v1 := Z.land (Z.shiftr val 12) 0x3F in
  let v2 := Z.land (Z.shiftr val 6) 0x3F in
  let v3 := Z.land val 0x3F in
  (0 <= v0 < 64 /\ 0 <= v1 < 64 /\ 0 <= v2 < 64 /\ 0 <= v3 < 64) /\
  Z.lor (Z.shiftl v0 2) (Z.shiftr v1 4) mod 256 = a /\
  Z.lor (Z.shiftl v1 4) (Z.shiftr v2 2) mod 256 = b /\
  Z.lor (Z.shiftl v2 6) v3 mod 256 = c.
Proof.
  intros Ha Hb Hc -> v0 v1 v2 v3. subst v0 v1 v2 v3.
  rewrite !land_sextet, !Z.shiftr_div_pow2 by lia.
  change (2 ^ 18) with 262144. change (2 ^ 12) with 4096.
  change (2 ^ 6) with 64. change (2 ^ 4) with 16. change (2 ^ 2) with 4.
  set (val := a * 65536 + b * 256 + c).
  assert (H0 : 0 <= (val / 262144) mod 64 < 64) by (apply Z.mod_pos_bound; lia).
  assert (H1 : 0 <= (val / 4096) mod 64 < 64) by (apply Z.mod_pos_bound; lia).
  assert (H2 : 0 <= (val / 64) mod 64 < 64) by (apply Z.mod_pos_bound; lia).
  assert (H3 : 0 <= val mod 64 < 64) by (apply Z.mod_pos_bound; lia).
  split; [auto|].
  rewrite (lor_shiftl_add _ ((val / 4096) mod 64 / 16) 2)
    by (try lia; Z.div_mod_to_equations; lia).
  rewrite (lor_shiftl_add _ ((val / 64) mod 64 / 4) 4)
    by (try lia; Z.div_mod_to_equations; lia).
  rewrite (lor_shiftl_add _ (val mod 64) 6) by lia.
  subst val. repeat split; Z.div_mod_to_equations; lia.
Qed.
End Base64Facts.

Module Base64RoundTrip.
Import GoBase64 Base64Facts.

Lemma Zbyte_mod (x : Z) (a : ascii) : x mod 256 = byteZ a -> Zbyte x = a.
Proof.
  intros H. unfold Zbyte. rewrite H. unfold byteZ. rewrite N2Z.id.
  apply ascii_N_embedding.
Qed.

Lemma shiftl16 (a : Z) : Z.shiftl a 16 = a * 65536 + 0 * 256 + 0.
Proof. rewrite Z.shiftl_mul_pow2 by lia. lia. Qed.

Lemma Decode_Encode_le (n : nat) :
  forall d, (length d <= n)%nat -> Decode (Encode d) = Some d.
Proof.
  induction n as [|n IH]; intros d Hd.
  { destruct d; simpl in *; [done|lia]. }
  destruct d as [|a [|b [|c rest]]]; [done| | |].
  - pose proof (byteZ_range a) as Ha.
    destruct (sextets (Z.shiftl (byteZ a) 16) (byteZ a) 0 0 Ha)
      as ((R0 & R1 & _ & _) & E0 & _ & _); [lia|lia|apply shiftl16|].
    destruct (enc_spec _ R0) as (D0 & _ & _).
    destruct (enc_spec _ R1) as (D1 & _ & _).
    cbn [Encode Decode]. rewrite D0, D1. simpl.
    by rewrite (Zbyte_mod _ _ E0).
  - pose proof (byteZ_range a) as Ha. pose proof (byteZ_range b) as Hb.
    destruct (sextets (Z.lor (Z.shiftl (byteZ a) 16) (Z.shiftl (byteZ b) 8))
                (byteZ a) (byteZ b) 0 Ha Hb)
      as ((R0 & R1 & R2 & _) & E0 & E1 & _);
      [lia|rewrite val2 by done; lia|].
    destruct (enc_spec _ R0) as (D0 & _ & _).
    destruct (enc_spec _ R1) as (D1 & _ & _).
    destruct (enc_spec _ R2) as (D2 & P2 & _).
    cbn [Encode Decode]. rewrite D0, D1. simpl. rewrite P2, D2.
    by rewrite (Zbyte_mod _ _ E0), (Zbyte_mod _ _ E1).
  - pose proof (byteZ_range a) as Ha. pose proof (byteZ_range b) as Hb.
    pose proof (byteZ_range c) as Hc.
    destruct (sextets
                (Z.lor (Z.lor (Z.shiftl (byteZ a) 16) (Z.shiftl (byteZ b) 8))
                   (byteZ c)) (byteZ a) (byteZ b) (byteZ c) Ha Hb Hc)
      as ((R0 & R1 & R2 & R3) & E0 & E1 & E2); [by apply val3|].
    destruct (enc_spec _ R0) as (D0 & _ & _).
    destruct (enc_spec _ R1) as (D1 & _ & _).
    destruct (enc_spec _ R2) as (D2 & _ & _).
    destruct (enc_spec _ R3) as (D3 & P3 & _).
    cbn [Encode Decode]. rewrite D0, D1, P3, D2, D3.
    rewrite IH by (simpl in Hd; lia).
    by rewrite (Zbyte_mod _ _ E0), (Zbyte_mod _ _ E1), (Zbyte_mod _ _ E2).
Qed.

(** Decoding the base64 text of [d] gives [d]. *)
Lemma base64_round_trip (d : list ascii) : Decode (Encode d) = Some d.
Proof. by apply (Decode_Encode_le (length d)). Qed.

Lemma land_range (x : Z) : 0 <= Z.land x 0x3F < 64.
Proof. rewrite land_sextet. apply Z.mod_pos_bound. lia. Qed.

Lemma Encode_shape (n : nat) :
  forall d, (length d <= n)%nat ->
    no_nl (Encode d) /\ exists k, length (Encode d) = (4 * k)%nat.
Proof.
  induction n as [|n IH]; intros d Hd.
  { destruct d; simpl in *; [|lia]. split; [constructor|by exists 0%nat]. }
  destruct d as [|a [|b [|c rest]]].
  - split; [constructor|by exists 0%nat].
  - split; [|by exists 1%nat].
    cbn [Encode]. repeat constructor;
      try (apply enc_spec, land_range).
  - split; [|by exists 1%nat].
    cbn [Encode]. repeat constructor;
      try (apply enc_spec, land_range).
  - destruct (IH rest) as [Hnl [k Hk]]; [simpl in Hd; lia|].
    split; [|exists (S k); cbn [Encode length]; lia].
    cbn [Encode]. repeat (constructor; [apply enc_spec, land_range|]).
    exact Hnl.
Qed.
End Base64RoundTrip.

(** ** The armor *)

Module ArmorFacts.
Import GoArmor Base64Facts Base64RoundTrip.

Lemma split_lines_app (l rest acc : list ascii) :
  no_nl l ->
  split_lines (l ++ nl :: rest) acc = (acc ++ l) :: split_lines rest [].
Proof.
  intros Hl. revert acc. induction Hl as [|c l Hc _ IH]; intros acc; simpl.
  - by rewrite app_nil_r.
  - unfold nl in Hc. rewrite Hc, IH. by rewrite <- app_assoc.
Qed.

Lemma split_lines_nl (rest acc : list ascii) :
  split_lines (nl :: rest) acc = acc :: split_lines rest [].
Proof. reflexivity. Qed.

Lemma split_lines_last (l acc : list ascii) :
  no_nl l -> split_lines l acc = [acc ++ l].
Proof.
  intros Hl. revert acc. induction Hl as [|c l Hc _ IH]; intros acc; simpl.
  - by rewrite app_nil_r.
  - unfold nl in Hc. rewrite Hc, IH. by rewrite <- app_assoc.
Qed.

(** The lines of the breaker: pieces of the text, none of five bytes
    when the text is made of quantums of four. *)
Lemma chunks_spec (fuel : nat) :
  forall (l : list ascii) (k : nat),
    (length l <= fuel)%nat -> no_nl l -> length l = (4 * k)%nat ->
    concat (chunks fuel 64 l) = l /\
    Forall (fun c => no_nl c /\ length c <> 5%nat) (chunks fuel 64 l).
Proof.
  induction fuel as [|fuel IH]; intros l k Hlen Hnl Hk.
  { destruct l; simpl in *; [auto|lia]. }
  destruct l as [|c l']; [simpl; auto|].
  cbn [chunks]. set (l := c :: l') in *.
  assert (Hl : (0 < length l)%nat) by (simpl; lia).
  destruct (IH (skipn 64 l) (k - 16)%nat) as [Hcat Hall].
  - rewrite length_drop. lia.
  - by apply Forall_drop.
  - rewrite length_drop. lia.
  - split.
    + cbn [concat]. rewrite Hcat. apply take_drop.
    + constructor; [|exact Hall]. split; [by apply Forall_take|].
      rewrite length_take. lia.
Qed.

Lemma chunks_nil (fuel n : nat) : chunks fuel n [] = [].
Proof. by destruct fuel. Qed.

Lemma chunks_cons (fuel n : nat) (c : ascii) (l : list ascii) :
  chunks (S fuel) n (c :: l) <> [].
Proof. done. Qed.

Lemma lines_join (ls : list (list ascii)) (rest : list ascii) :
  Forall no_nl ls -> ls <> [] ->
  split_lines (join_lines ls ++ nl :: rest) [] = ls ++ split_lines rest [].
Proof.
  induction ls as [|l ls IH]; intros Hall Hne; [done|].
  inversion Hall as [|? ? Hl Hls]; subst.
  destruct ls as [|l2 ls'].
  - cbn [join_lines]. by rewrite split_lines_app.
  - cbn [join_lines]. rewrite <- app_assoc. cbn [app].
    rewrite split_lines_app by done. cbn [app]. f_equal.
    by apply IH.
Qed.

Lemma read_body_skip (l : list ascii) (ls : list (list ascii)) (body : list ascii) :
  length l <> 5%nat -> read_body (l :: ls) body = read_body ls (body ++ l).
Proof.
  intros Hl. destruct l as [|? [|? [|? [|? [|? [|? ?]]]]]]; try reflexivity.
  by destruct Hl.
Qed.

Lemma read_body_lines (ls tail : list (list ascii)) (body : list ascii) :
  Forall (fun l => length l <> 5%nat) ls ->
  read_body (ls ++ tail) body = read_body tail (body ++ concat ls).
Proof.
  intros Hall. revert body. induction Hall as [|l ls Hl _ IH]; intros body.
  - simpl. by rewrite app_nil_r.
  - cbn [app concat]. rewrite read_body_skip by done. rewrite IH.
    by rewrite <- app_assoc.
Qed.

(** The three bytes of the checksum line are the low 24 bits of the
    checksum. *)
Lemma checksum_bytes (crc : Z) :
  Z.lor (Z.lor (Z.shiftl (byteZ (Zbyte (Z.shiftr crc 16))) 16)
               (Z.shiftl (byteZ (Zbyte (Z.shiftr crc 8))) 8))
        (byteZ (Zbyte crc))
  = Z.land crc crc24Mask.
Proof.
  rewrite !byteZ_Zbyte.
  rewrite val3 by (apply Z.mod_pos_bound; lia).
  change crc24Mask with (Z.ones 24). rewrite Z.land_ones by lia.
  rewrite !Z.shiftr_div_pow2 by lia.
  change (2 ^ 16) with 65536. change (2 ^ 8) with 256.
  change (2 ^ 24) with 16777216.
  Z.div_mod_to_equations. lia.
Qed.

Lemma no_nl_forallb (l : list ascii) :
  forallb (fun c => negb (Ascii.eqb c nl)) l = true -> no_nl l.
Proof.
  intros H. apply Forall_forall. intros c Hc.
  rewrite forallb_forall in H. apply negb_true_iff, H.
  by apply list_elem_of_In.
Qed.

(** The text of an armored block, line by line. *)
Lemma Encode_lines (d : list ascii) :
  exists x1 x2 x3 x4 body_lines,
    GoBase64.Encode
      [Zbyte (Z.shiftr (crc24 crc24Init d) 16);
       Zbyte (Z.shiftr (crc24 crc24Init d) 8); Zbyte (crc24 crc24Init d)]
    = [x1; x2; x3; x4] /\
    concat body_lines = GoBase64.Encode d /\
    Forall (fun l => length l <> 5%nat) body_lines /\
    split_lines (Encode "PGP MESSAGE" d) [] =
      start_line :: [] :: body_lines ++ [[GoBase64.pad; x1; x2; x3; x4]; end_line].
Proof.
  set (crc := crc24 crc24Init d).
  set (sum := [Zbyte (Z.shiftr crc 16); Zbyte (Z.shiftr crc 8); Zbyte crc]).
  destruct (Encode_shape 3 sum) as [Hsum_nl _]; [simpl; lia|].
  destruct (Encode_shape (length d) d) as [Hb_nl [k Hk]]; [lia|].
  remember (GoBase64.Encode sum) as crc4 eqn:Hcrc4.
  assert (Hshape : exists x1 x2 x3 x4, crc4 = [x1; x2; x3; x4]).
  { subst crc4 sum. cbn [GoBase64.Encode]. eauto. }
  destruct Hshape as (x1 & x2 & x3 & x4 & Hx). exists x1, x2, x3, x4.
  set (b64 := GoBase64.Encode d) in *.
  assert (Htail : split_lines (GoBase64.pad :: crc4 ++ nl :: end_line) []
                  = [GoBase64.pad :: crc4; end_line]).
  { change (GoBase64.pad :: crc4 ++ nl :: end_line)
      with ((GoBase64.pad :: crc4) ++ nl :: end_line).
    rewrite split_lines_app.
    - cbn [app].
      by rewrite (split_lines_last end_line [])
        by (apply no_nl_forallb; vm_compute; reflexivity).
    - constructor; [reflexivity|exact Hsum_nl]. }
  assert (Hall : Encode "PGP MESSAGE" d =
                 start_line ++ nl :: nl ::
                   (join_lines (chunks (length b64) 64 b64) ++ nl ::
                      ((GoBase64.pad :: crc4) ++ nl :: end_line))).
  { unfold Encode. fold crc. fold sum. fold b64. rewrite <- Hcrc4.
    unfold newline, start_line, end_line, nl. reflexivity. }
  rewrite Hall.
  rewrite split_lines_app by (apply no_nl_forallb; vm_compute; reflexivity).
  rewrite split_lines_nl.
  cbn [app].
  destruct b64 as [|c b64'] eqn:Hb64.
  - exists [[]]. rewrite chunks_nil. cbn [join_lines app].
    rewrite split_lines_nl.
    rewrite Htail, <- Hx. repeat split; auto.
  - destruct (chunks_spec (length (c :: b64')) (c :: b64') k) as [Hcat Hch];
      [lia|done|done|].
    exists (chunks (length (c :: b64')) 64 (c :: b64')).
    rewrite lines_join.
    + rewrite Htail, <- Hx. repeat split; auto.
      eapply Forall_impl; [exact Hch|]. by intros ? [_ ?].
    + eapply Forall_impl; [exact Hch|]. by intros ? [? _].
    + apply chunks_cons.
Qed.

(** Decoding an armored block gives the bytes that were armored. *)
Lemma armor_Decode_Encode (d : list ascii) :
  Decode "PGP MESSAGE" (Encode "PGP MESSAGE" d) = Some d.
Proof.
  destruct (Encode_lines d) as (x1 & x2 & x3 & x4 & bl & Hsum & Hcat & Hlen & Hlines).
  unfold Decode. rewrite Hlines.
  unfold start_line. rewrite string_of_list_ascii_of_string, String.eqb_refl.
  rewrite read_body_lines by done. rewrite Hcat. cbn [app].
  cbn [read_body]. rewrite Ascii.eqb_refl.
  rewrite <- Hsum, Base64RoundTrip.base64_round_trip.
  replace (GoStrings.HasPrefix (string_of_list_ascii end_line) armorEnd)
    with true by (vm_compute; reflexivity).
  rewrite Base64RoundTrip.base64_round_trip.
  rewrite checksum_bytes, Z.eqb_refl. reflexivity.
Qed.
End ArmorFacts.

(** C7.  The text that [enarmor] returns for a file that is read to its
    end is the armor of its bytes, and decoding it gives these bytes
    back. *)
Theorem armor_round_trip (b : string) (closed : option error) :
  exists text,
    enarmor {| data := b; readErr := None; closeErr := closed |} = inr text /\
    text = string_of_list_ascii
             (GoArmor.Encode "PGP MESSAGE" (list_ascii_of_string b)) /\
    option_map string_of_list_ascii
      (GoArmor.Decode "PGP MESSAGE" (list_ascii_of_string text)) = Some b.
Proof.
  eexists. split; [reflexivity|]. split; [reflexivity|].
  rewrite list_ascii_of_string_of_list_ascii, ArmorFacts.armor_Decode_Encode.
  simpl. by rewrite string_of_list_ascii_of_string.
Qed.

(** ** Strings and paths *)

Module StringFacts.
Import GoStrings.

#[local] Arguments String.append !_ _ /.

Lemma sapp_assoc (a b c : string) : (a +:+ b) +:+ c = a +:+ (b +:+ c).
Proof. induction a as [|x a IH]; simpl; [done|]. by rewrite IH. Qed.

Lemma sapp_nil_r (a : string) : a +:+ "" = a.
Proof. induction a as [|x a IH]; simpl; [done|]. by rewrite IH. Qed.

Lemma length_sapp (a b : string) :
  String.length (a +:+ b) = (String.length a + String.length b)%nat.
Proof. induction a as [|x a IH]; simpl; [done|]. by rewrite IH. Qed.

Lemma substring_full (x : string) : substring 0 (String.length x) x = x.
Proof. induction x as [|c x IH]; simpl; [done|]. by rewrite IH. Qed.

Lemma substring_take (p x : string) :
  substring 0 (String.length p) (p +:+ x) = p.
Proof.
  induction p as [|c p IH]; simpl; [by destruct x|]. by rewrite IH.
Qed.

Lemma substring_drop (p x : string) (m : nat) :
  substring (String.length p) m (p +:+ x) = substring 0 m x.
Proof. induction p as [|c p IH]; simpl; done. Qed.

Lemma slice_drop (p x : string) :
  slice (p +:+ x) (String.length p) (String.length (p +:+ x)) = x.
Proof.
  unfold slice. rewrite length_sapp.
  replace (String.length p + String.length x - String.length p)%nat
    with (String.length x) by lia.
  rewrite substring_drop. apply substring_full.
Qed.

Lemma slice_take (p x : string) :
  slice (p +:+ x) 0 (String.length p) = p.
Proof.
  unfold slice. rewrite Nat.sub_0_r. apply substring_take.
Qed.

Lemma HasPrefix_app (p x : string) : HasPrefix (p +:+ x) p = true.
Proof.
  induction p as [|c p IH]; simpl; [by destruct x|]. by rewrite Ascii.eqb_refl.
Qed.

Lemma TrimPrefix_app (p x : string) : TrimPrefix (p +:+ x) p = x.
Proof. unfold TrimPrefix. rewrite HasPrefix_app. apply slice_drop. Qed.

Lemma TrimSuffix_app (x suffix : string) : TrimSuffix (x +:+ suffix) suffix = x.
Proof.
  unfold TrimSuffix, HasSuffix. rewrite length_sapp.
  replace (String.length x + String.length suffix - String.length suffix)%nat
    with (String.length x) by lia.
  replace (String.length suffix <=? String.length x + String.length suffix)%nat
    with true by (symmetry; apply Nat.leb_le; lia).
  rewrite <- (length_sapp x suffix), slice_drop, String.eqb_refl. simpl.
  apply slice_take.
Qed.

(** The last slash. *)
Lemma LastIndexSlash_from_app (x y : string) (i found : Z) :
  LastIndexSlash_from (x +:+ y) i found =
  LastIndexSlash_from y (i + Z.of_nat (String.length x))
    (LastIndexSlash_from x i found).
Proof.
  revert i found. induction x as [|c x IH]; intros i found; simpl.
  - by rewrite Z.add_0_r.
  - rewrite IH. f_equal. lia.
Qed.

Lemma LastIndexSlash_from_none (u : string) (i found : Z) :
  no_slash u = true -> LastIndexSlash_from u i found = found.
Proof.
  revert i found. induction u as [|c u IH]; intros i found H; simpl in *; [done|].
  apply andb_true_iff in H as [Hc Hu]. apply negb_true_iff in Hc.
  rewrite Hc. by apply IH.
Qed.

Lemma LastIndexSlash_app (x u : string) :
  no_slash u = true ->
  LastIndexSlash (x +:+ "/" +:+ u) = Z.of_nat (String.length x).
Proof.
  intros Hu. unfold LastIndexSlash.
  rewrite LastIndexSlash_from_app. simpl.
  by rewrite LastIndexSlash_from_none.
Qed.

Lemma LastIndexSlash_none (u : string) :
  no_slash u = true -> LastIndexSlash u = -1.
Proof. apply LastIndexSlash_from_none. Qed.

Lemma get_last (x : string) (c : ascii) :
  String.get (String.length x) (x +:+ String c "") = Some c.
Proof. induction x as [|d x IH]; simpl; done. Qed.

Lemma no_slash_app (a b : string) :
  no_slash (a +:+ b) = no_slash a && no_slash b.
Proof.
  induction a as [|c a IH]; simpl; [done|]. rewrite IH. by rewrite andb_assoc.
Qed.

(** A string that is not empty ends with a byte. *)
Lemma string_last (s : string) :
  s <> "" -> exists x c, s = x +:+ String c "".
Proof.
  induction s as [|d s IH]; [done|]. intros _.
  destruct s as [|e s'].
  - by exists "", d.
  - destruct IH as (x & c & Hx); [done|]. exists (String d x), c.
    simpl. by rewrite <- Hx.
Qed.
End StringFacts.

Module PathFacts.
Import GoStrings GoPath StringFacts.

#[local] Arguments String.append !_ _ /.

Lemma bytes_app (a b : string) :
  list_ascii_of_string (a +:+ b) = list_ascii_of_string a ++ list_ascii_of_string b.
Proof. induction a as [|c a IH]; simpl; [done|]. by rewrite IH. Qed.

Lemma length_bytes (a : string) :
  length (list_ascii_of_string a) = String.length a.
Proof. induction a as [|c a IH]; simpl; [done|]. by rewrite IH. Qed.

Lemma plain_no_slash (c : string) : plain c = true -> no_slash c = true.
Proof. unfold plain. intros H. by apply andb_true_iff in H as [_ ?]. Qed.

Lemma plain_nonempty (c : string) : plain c = true -> c <> "".
Proof. by intros H ->. Qed.

(** A name without a slash ends with a byte that is not a slash. *)
Lemma plain_last (c : string) :
  c <> "" -> no_slash c = true ->
  exists x d, c = x +:+ String d "" /\ Ascii.eqb d "/" = false.
Proof.
  intros Hne Hns. destruct (string_last c Hne) as (x & d & ->).
  exists x, d. split; [done|].
  rewrite no_slash_app in Hns. apply andb_true_iff in Hns as [_ Hd].
  simpl in Hd. apply andb_true_iff in Hd as [Hd _]. by apply negb_true_iff.
Qed.

Lemma strip_no_trailing (fuel : nat) (x : string) (d : ascii) :
  Ascii.eqb d "/" = false ->
  strip_trailing_slashes fuel (x +:+ String d "") = x +:+ String d "".
Proof.
  intros Hd. destruct fuel; [done|]. cbn [strip_trailing_slashes].
  rewrite length_sapp. simpl String.length.
  replace (String.length x + 1 - 1)%nat with (String.length x) by lia.
  rewrite get_last, Hd. by rewrite andb_false_r.
Qed.

Lemma strip_trailing_one (fuel : nat) (x : string) :
  strip_trailing_slashes (S fuel) (x +:+ "/") = strip_trailing_slashes fuel x.
Proof.
  cbn [strip_trailing_slashes]. rewrite length_sapp. simpl String.length.
  replace (String.length x + 1 - 1)%nat with (String.length x) by lia.
  rewrite get_last. simpl. replace (0 <? String.length x + 1)%nat with true
    by (symmetry; apply Nat.ltb_lt; lia).
  simpl. by rewrite slice_take.
Qed.

Lemma Base_last (dir name : string) :
  dir_prefix dir -> name <> "" -> no_slash name = true ->
  Base (dir +:+ name) = name.
Proof.
  intros Hdir Hne Hns. unfold Base.
  destruct (plain_last name Hne Hns) as (x & d & Hname & Hd).
  assert (Hpath : dir +:+ name <> "").
  { destruct dir; [done|]. simpl. discriminate. }
  apply String.eqb_neq in Hpath. rewrite Hpath.
  assert (Hstrip : strip_trailing_slashes (String.length (dir +:+ name)) (dir +:+ name)
                   = dir +:+ name).
  { rewrite Hname, <- sapp_assoc. by apply strip_no_trailing. }
  rewrite Hstrip. apply String.eqb_neq in Hne.
  destruct Hdir as [->|[dd ->]].
  - simpl. rewrite LastIndexSlash_none by done. simpl. by rewrite Hne.
  - rewrite sapp_assoc. rewrite LastIndexSlash_app by done.
    replace (0 <=? Z.of_nat (String.length dd)) with true
      by (symmetry; apply Z.leb_le; lia).
    replace (Z.to_nat (Z.of_nat (String.length dd) + 1))
      with (String.length (dd +:+ "/")) by (rewrite length_sapp; simpl; lia).
    rewrite <- sapp_assoc, slice_drop. by rewrite Hne.
Qed.

Lemma Base_last_slash (dir name : string) :
  dir_prefix dir -> name <> "" -> no_slash name = true ->
  Base ((dir +:+ name) +:+ "/") = name.
Proof.
  intros Hdir Hne Hns.
  pose proof (Base_last dir name Hdir Hne Hns) as HB. unfold Base in *.
  assert (Hpath : dir +:+ name <> "").
  { destruct dir; [done|]. simpl. discriminate. }
  assert (Hpath2 : (dir +:+ name) +:+ "/" <> "").
  { destruct (dir +:+ name); simpl; discriminate. }
  apply String.eqb_neq in Hpath, Hpath2. rewrite Hpath in HB. rewrite Hpath2.
  rewrite length_sapp. simpl String.length.
  replace (String.length (dir +:+ name) + 1)%nat
    with (S (String.length (dir +:+ name))) by lia.
  rewrite strip_trailing_one. exact HB.
Qed.

Lemma Split_last (dir name : string) :
  no_slash name = true ->
  Split ((dir +:+ "/") +:+ name) = (dir +:+ "/", name).
Proof.
  intros Hns. unfold Split. rewrite sapp_assoc. rewrite LastIndexSlash_app by done.
  replace (Z.to_nat (Z.of_nat (String.length dir) + 1))
    with (String.length (dir +:+ "/")) by (rewrite length_sapp; simpl; lia).
  rewrite <- sapp_assoc. by rewrite slice_take, slice_drop.
Qed.
(** The copy loop of [Clean] takes a whole name. *)
Lemma copy_element_name (c : string) (R out : list ascii) :
  no_slash c = true -> (R = [] \/ exists R', R = "/"%char :: R') ->
  copy_element (list_ascii_of_string c ++ R) out = (R, out ++ list_ascii_of_string c).
Proof.
  intros Hns HR. revert out. induction c as [|c0 c IH]; intros out.
  - simpl. rewrite app_nil_r. destruct HR as [->|[R' ->]]; reflexivity.
  - simpl in Hns. apply andb_true_iff in Hns as [Hc Hns].
    apply negb_true_iff in Hc. simpl. rewrite Hc, (IH Hns).
    by rewrite <- app_assoc.
Qed.

(** One turn of the loop of [Clean] at a name takes the name as a real
    path element. *)
Lemma clean_loop_name (fuel : nat) (rooted : bool) (c : string)
    (R out : list ascii) (dotdot : nat) :
  plain c = true -> (R = [] \/ exists R', R = "/"%char :: R') ->
  clean_loop (S fuel) rooted (list_ascii_of_string c ++ R) out dotdot =
  clean_loop fuel rooted R
    ((if (rooted && negb (length out =? 1)%nat)
         || (negb rooted && negb (length out =? 0)%nat)
      then out ++ ["/"%char] else out) ++ list_ascii_of_string c) dotdot.
Proof.
  intros Hp HR. pose proof (plain_no_slash c Hp) as Hns.
  pose proof (copy_element_name c R) as Hcopy.
  unfold plain in Hp.
  destruct c as [|c0 s1]; [discriminate|].
  simpl in Hns. apply andb_true_iff in Hns as [Hc0 Hns1].
  apply negb_true_iff in Hc0.
  cbn [list_ascii_of_string app clean_loop]. rewrite Hc0.
  assert (H2 : Ascii.eqb c0 "."
               && match list_ascii_of_string s1 ++ R with
                  | [] => true
                  | d :: _ => Ascii.eqb d "/"
                  end = false).
  { destruct (Ascii.eqb c0 ".") eqn:E0; [|done]. simpl.
    apply Ascii.eqb_eq in E0. subst c0.
    destruct s1 as [|c1 s2]; [discriminate|].
    simpl in Hns1. apply andb_true_iff in Hns1 as [Hc1 _].
    by apply negb_true_iff in Hc1. }
  rewrite H2.
  assert (H3 : Ascii.eqb c0 "."
               && match list_ascii_of_string s1 ++ R with
                  | [d] => Ascii.eqb d "."
                  | d :: e :: _ => Ascii.eqb d "." && Ascii.eqb e "/"
                  | [] => false
                  end = false).
  { destruct (Ascii.eqb c0 ".") eqn:E0; [|done]. simpl.
    apply Ascii.eqb_eq in E0. subst c0.
    destruct s1 as [|c1 s2]; [discriminate|].
    destruct (Ascii.eqb c1 ".") eqn:E1.
    - apply Ascii.eqb_eq in E1. subst c1.
      destruct s2 as [|c2 s3]; [discriminate|].
      simpl in Hns1. apply andb_true_iff in Hns1 as [Hc2 _].
      apply negb_true_iff in Hc2.
      simpl. by rewrite Hc2.
    - simpl. rewrite E1. by destruct (list_ascii_of_string s2 ++ R). }
  rewrite H3.
  change (c0 :: list_ascii_of_string s1 ++ R)
    with (list_ascii_of_string (String c0 s1) ++ R).
  rewrite Hcopy; [reflexivity| |exact HR].
  simpl. by rewrite Hc0.
Qed.
Lemma join_path_cons (c c2 : string) (cs : list string) :
  join_path (c :: c2 :: cs) = c +:+ "/" +:+ join_path (c2 :: cs).
Proof. reflexivity. Qed.

(** The loop of [Clean] on plain names that slashes separate and end:
    the names are appended, with single slashes between them. *)
Lemma clean_loop_comps (comps : list string) :
  forall (fuel : nat) (out : list ascii),
    Forall (fun c => plain c = true) comps -> comps <> [] ->
    (length (list_ascii_of_string (join_path comps)) + 1 <= fuel)%nat ->
    (1 <= length out)%nat ->
    clean_loop fuel true (list_ascii_of_string (join_path comps) ++ ["/"%char]) out 1
    = (if (length out =? 1)%nat then out else out ++ ["/"%char])
      ++ list_ascii_of_string (join_path comps).
Proof.
  induction comps as [|c cs IH]; intros fuel out Hall Hne Hfuel Hout; [done|].
  inversion Hall as [|? ? Hc Hcs]; subst.
  assert (Hlen : (1 <= length (list_ascii_of_string c))%nat).
  { destruct c; [discriminate|]. simpl. lia. }
  assert (Hsel : forall A (X Y : A) (b : bool),
             (if (true && negb b) || (negb true && negb (length out =? 0)%nat)
              then X else Y) = if b then Y else X).
  { intros A X Y b. by destruct b. }
  destruct cs as [|c2 cs'].
  - change (join_path [c]) with c in *.
    destruct fuel as [|[|fuel]]; [lia|lia|].
    rewrite clean_loop_name by (auto; right; eauto).
    rewrite Hsel. cbn [clean_loop]. simpl Ascii.eqb. cbn iota.
    by destruct fuel.
  - rewrite join_path_cons in *. rewrite !bytes_app in *.
    cbn [list_ascii_of_string app] in *. rewrite length_app in Hfuel.
    cbn [length] in Hfuel.
    destruct fuel as [|[|fuel]]; [lia|lia|].
    rewrite <- app_assoc. cbn [app].
    rewrite clean_loop_name by (auto; right; eauto).
    rewrite Hsel. cbn [clean_loop]. simpl Ascii.eqb. cbn iota.
    rewrite IH; [|done|done|lia|].
    + replace (length ((if (length out =? 1)%nat then out else out ++ ["/"%char])
                       ++ list_ascii_of_string c) =? 1)%nat with false.
      * by rewrite <- !app_assoc.
      * symmetry. apply Nat.eqb_neq. rewrite length_app.
        destruct (length out =? 1)%nat; [lia|]. rewrite length_app. lia.
    + rewrite length_app. lia.
Qed.

Lemma Clean_rooted (comps : list string) :
  Forall (fun c => plain c = true) comps -> comps <> [] ->
  Clean (("/" +:+ join_path comps) +:+ "/") = "/" +:+ join_path comps.
Proof.
  intros Hall Hne. unfold Clean.
  rewrite bytes_app. cbn [String.append list_ascii_of_string app].
  simpl Ascii.eqb. cbn iota. cbn [tl].
  rewrite clean_loop_comps; [|done|done| |simpl; lia].
  - simpl. by rewrite string_of_list_ascii_of_string.
  - cbn [length]. rewrite length_app. simpl. lia.
Qed.

(** The path of one or more names: what precedes the last name is empty
    or ends with a slash. *)
Lemma join_path_last (comps : list string) :
  comps <> [] ->
  exists dir, join_path comps = dir +:+ List.last comps "" /\ dir_prefix dir.
Proof.
  induction comps as [|c cs IH]; intros Hne; [done|].
  destruct cs as [|c2 cs'].
  - exists "". split; [done|by left].
  - destruct IH as (dir & Hj & Hd); [done|].
    exists ((c +:+ "/") +:+ dir). split.
    + rewrite join_path_cons, Hj. cbn [List.last].
      by rewrite !sapp_assoc.
    + right. destruct Hd as [->|[d ->]].
      * exists c. by rewrite sapp_nil_r.
      * exists ((c +:+ "/") +:+ d). by rewrite !sapp_assoc.
Qed.

Lemma Forall_last (comps : list string) :
  Forall (fun c => plain c = true) comps -> comps <> [] ->
  plain (List.last comps "") = true.
Proof.
  induction 1 as [|c cs Hc Hcs IH]; intros Hne; [done|].
  destruct cs; [done|]. by apply IH.
Qed.
End PathFacts.

(** ** The names of a secret file *)

Section IndexItem.
Variable NFKD : string -> string * nat * option error.
Import StringFacts PathFacts.

(** The file [name.gpg] in the directory [comps] of the store: the path
    is the directory, the domain its last name and the username is
    [name], or the last name of the directory when [name] is empty. *)
Lemma index_item_components (store : string) (comps : list string) (name : string) :
  comps <> [] -> Forall (fun c => plain c = true) comps ->
  no_slash name = true ->
  let it :=
    index_item NFKD store
      (store +:+ "/" +:+ join_path comps +:+ "/" +:+ name +:+ ".gpg") in
  item_Path it = join_path comps /\
  Domain it = List.last comps "" /\
  item_Username it = (if String.eqb name "" then List.last comps "" else name).
Proof.
  intros Hne Hall Hns it. subst it. unfold index_item.
  cbn [item_Path Domain item_Username].
  rewrite TrimPrefix_app.
  replace ("/" +:+ join_path comps +:+ "/" +:+ name +:+ ".gpg")
    with (((("/" +:+ join_path comps) +:+ "/") +:+ name) +:+ ".gpg")
    by (by rewrite !sapp_assoc).
  rewrite TrimSuffix_app.
  unfold GoPath.Dir. rewrite Split_last by done. cbn [fst].
  rewrite Clean_rooted by done. rewrite TrimPrefix_app.
  destruct (join_path_last comps Hne) as (dir & Hj & Hd).
  pose proof (Forall_last comps Hall Hne) as Hl.
  assert (Hbase : GoPath.Base (join_path comps) = List.last comps "").
  { rewrite Hj. apply Base_last; [done|by apply plain_nonempty|by apply plain_no_slash]. }
  split; [done|]. split; [done|].
  destruct (String.eqb name "") eqn:Hname.
  - apply String.eqb_eq in Hname. subst name. rewrite sapp_nil_r, Hj.
    rewrite <- sapp_assoc. apply Base_last_slash.
    + right. destruct Hd as [->|[d ->]]; [by exists ""|by exists ("/" +:+ d)].
    + by apply plain_nonempty.
    + by apply plain_no_slash.
  - apply String.eqb_neq in Hname. apply Base_last; [|done|done].
    right. by exists ("/" +:+ join_path comps).
Qed.
End IndexItem.

Section Decomposition.
Variable NFKD : string -> string * nat * option error.

(** C5.  The decomposition of the two paths of the specification, for the
    store root [/store]; and for every store root, the file [name.gpg] in
    a directory of one or more plain names below the root has the
    username [name], the path made of the names of the directory and the
    domain that is the last of them. *)
Theorem path_decomposition :
  (let one := index_item NFKD "/store" "/store/example.com/alice.gpg" in
   Domain one = "example.com" /\ item_Path one = "example.com" /\
   item_Username one = "alice") /\
  (let two := index_item NFKD "/store" "/store/work/example.com/alice.gpg" in
   Domain two = "example.com" /\ item_Path two = "work/example.com" /\
   item_Username two = "alice") /\
  GoStrings.TrimSuffix
    (GoStrings.TrimPrefix "/store/work/example.com/alice.gpg" "/store") ".gpg"
  = "/work/example.com/alice" /\
  forall (store : string) (comps : list string) (name : string),
    comps <> [] -> Forall (fun c => plain c = true) comps ->
    no_slash name = true -> name <> "" ->
    let it :=
      index_item NFKD store
        (store +:+ "/" +:+ join_path comps +:+ "/" +:+ name +:+ ".gpg") in
    Domain it = List.last comps "" /\ item_Path it = join_path comps /\
    item_Username it = name.
Proof.
  split; [repeat split; reflexivity|]. split; [repeat split; reflexivity|].
  split; [reflexivity|].
  intros store comps name Hne Hall Hns Hname it.
  destruct (index_item_components NFKD store comps name Hne Hall Hns)
    as (Hp & Hd & Hu).
  apply String.eqb_neq in Hname. rewrite Hname in Hu. auto.
Qed.

(** C9.  A file named [.gpg] that is not in the root passes the walk
    function: [*.gpg] matches [.gpg].  In a directory of one or more plain
    names below the root it is indexed with the path of the directory and,
    as username, the last name of the directory, which is not empty: the
    name of the file [d.gpg] of a directory named [d].  So for
    [/store/a/.gpg], whose stem is [/a/]: the walk of a store that holds
    it next to [/store/a/a.gpg] returns both, both are indexed as path
    [a], username [a], and in the map of secrets the file read last takes
    the entry. *)
Theorem dotgpg_file_is_indexed_under_its_directory :
  (forall (store path : string) (filenames : list string),
     String.eqb (GoFilepath.Dir path) store = false ->
     walkFn store path
       (GoFilepath.Visit {| GoFilepath.Name := ".gpg"; GoFilepath.IsDir := false |})
       filenames
     = (filenames ++ [path], GoFilepath.WNil)) /\
  (forall (store : string) (comps : list string),
     comps <> [] -> Forall (fun c => plain c = true) comps ->
     item_name (index_item NFKD store (store +:+ "/" +:+ join_path comps +:+ "/.gpg"))
     = {| Path := join_path comps; Username := List.last comps "" |} /\
     item_name (index_item NFKD store
                  (store +:+ "/" +:+ join_path comps +:+ "/"
                   +:+ List.last comps "" +:+ ".gpg"))
     = {| Path := join_path comps; Username := List.last comps "" |} /\
     List.last comps "" <> "") /\
  GoFilepath.Walk (walkFn "/store") "/store" Sample.dotgpg_tree []
  = (["/store/a/.gpg"; "/store/a/a.gpg"], None) /\
  GoStrings.TrimSuffix (GoStrings.TrimPrefix "/store/a/.gpg" "/store") ".gpg"
  = "/a/" /\
  item_name (index_item NFKD "/store" "/store/a/.gpg")
  = {| Path := "a"; Username := "a" |} /\
  item_name (index_item NFKD "/store" "/store/a/a.gpg")
  = {| Path := "a"; Username := "a" |} /\
  exists ix sm t,
    load_secrets NFKD Sample.dotgpg_world "/store"
      ["/store/a/.gpg"; "/store/a/a.gpg"] [] ∅ = (inr (ix, sm), t) /\
    map item_name ix =
      [{| Path := "a"; Username := "a" |}; {| Path := "a"; Username := "a" |}] /\
    sm = {[ {| Path := "a"; Username := "a" |} :=
              string_of_list_ascii
                (GoArmor.Encode "PGP MESSAGE" (list_ascii_of_string "second")) ]}.
Proof.
  split; [|split].
  - intros store path fns Hdir. unfold walkFn. simpl. by rewrite Hdir.
  - intros store comps Hne Hall.
    pose proof (PathFacts.Forall_last comps Hall Hne) as Hl.
    destruct (index_item_components NFKD store comps "" Hne Hall eq_refl)
      as (Hp1 & _ & Hu1).
    destruct (index_item_components NFKD store comps (List.last comps "") Hne Hall
                (PathFacts.plain_no_slash _ Hl)) as (Hp2 & _ & Hu2).
    pose proof (PathFacts.plain_nonempty _ Hl) as Hne2.
    apply String.eqb_neq in Hne2. rewrite Hne2 in Hu2.
    unfold item_name.
    split; [|split].
    + f_equal; [exact Hp1|exact Hu1].
    + f_equal; [exact Hp2|exact Hu2].
    + by apply String.eqb_neq.
  - repeat split; try reflexivity.
    eexists _, _, _. split; [reflexivity|]. split; [reflexivity|].
    apply map_eq. intros k. vm_compute. reflexivity.
Qed.
End Decomposition.

Lemma path_decomposition_witness :
  let it := index_item NFKDLatin1.NFKD "/store" "/store/work/example.com/alice.gpg" in
  Domain it = "example.com" /\ item_Path it = "work/example.com" /\
  item_Username it = "alice".
Proof.
  apply (proj2 (proj2 (proj2 (path_decomposition NFKDLatin1.NFKD)))
           "/store" ["work"; "example.com"] "alice").
  - discriminate.
  - repeat constructor.
  - reflexivity.
  - discriminate.
Defined.

Lemma dotgpg_witness :
  item_name (index_item NFKDLatin1.NFKD "/store" "/store/work/example.com/.gpg")
  = {| Path := "work/example.com"; Username := "example.com" |} /\
  item_name (index_item NFKDLatin1.NFKD "/store"
               "/store/work/example.com/example.com.gpg")
  = {| Path := "work/example.com"; Username := "example.com" |} /\
  "example.com" <> "".
Proof.
  apply (proj1 (proj2 (dotgpg_file_is_indexed_under_its_directory NFKDLatin1.NFKD))
           "/store" ["work"; "example.com"]).
  - discriminate.
  - repeat constructor.
Defined.

(** * More of the code: the handlers *)

Section Handlers.
Variable NFKD : string -> string * nat * option error.
Variable Marshal : list item -> string * option error.

(** X1.  [Show] checks the request before it looks at the resource: a
    body that cannot be bound, an empty path (tested first) or an empty
    username is answered with status 400 and the message of the check,
    without a lock, a walk, a file or a command, whether the resource is
    loaded or not, and the resource is left as it is. *)
Theorem Show_rejects_incomplete_request
    (w : World) (v : SecretsResource) (req : error + secretName) :
  match req with
  | inl _ => True
  | inr r => Path r = "" \/ Username r = ""
  end ->
  Show NFKD Marshal w req v =
    (((StatusBadRequest,
       ErrorBody
         match req with
         | inl err => Wrap err "unable to read request body"
         | inr r =>
             if String.eqb (Path r) "" then "no path found in request body"
             else "no username found in request body"
         end), v), []).
Proof.
  destruct req as [err|r]; [reflexivity|].
  intros H. unfold Show.
  destruct (String.eqb (Path r) "") eqn:Hp; [reflexivity|].
  destruct H as [H|H]; [apply String.eqb_neq in Hp; contradiction|].
  by rewrite H.
Qed.

(** X2.  A loaded resource answers from its fields: [ensureLoaded] does
    nothing, [List] returns [index], and [Show] returns the text stored
    for the name of the request, or status 400 and [unknown secret] when
    the map has no such key.  No walk is made, no file is opened, no
    command is run and the resource is unchanged. *)
Theorem loaded_resource_answers_from_its_fields (w : World) (v : SecretsResource) :
  loaded v = true ->
  ensureLoaded NFKD Marshal w v = ((None, v), []) /\
  List NFKD Marshal w None v = (((StatusOK, ResponseBody (index v)), v), []) /\
  forall req, Path req <> "" -> Username req <> "" ->
    Show NFKD Marshal w (inr req) v =
      ((match secrets v !! req with
        | Some text => (StatusOK, ResponseBody text)
        | None => (StatusBadRequest, ErrorBody "unknown secret")
        end, v), []).
Proof.
  intros Hl. split; [|split].
  - unfold ensureLoaded. by rewrite Hl.
  - unfold List, ensureLoaded. by rewrite Hl.
  - intros req Hp Hu. unfold Show, ensureLoaded.
    apply String.eqb_neq in Hp, Hu. rewrite Hp, Hu, Hl. simpl.
    by destruct (secrets v !! req).
Qed.

(** When gpg was run and exited with status 0, [Load] returns the error
    of the second wait. *)
Lemma Load_after_gpg (w : World) (v : SecretsResource) args stdin out :
  In (EvExec "gpg" args stdin) (snd (Load NFKD Marshal w v)) ->
  run w "gpg" args stdin = GoExec.Exits out None ->
  fst (Load NFKD Marshal w v)
  = (Some "unable to encrypt index: exec: Wait was already called", v).
Proof.
  intros Hin Hrun.
  destruct (Load_exec_full NFKD Marshal w v _ _ _ Hin)
    as (_ & fns & ix & sm & t & ids & HW & HL & HR & -> & HM).
  unfold Load. io. rewrite HW. simpl. rewrite HL. simpl.
  destruct (readIDs w (store v)) as [[ids' oe] t2]. simpl in HR.
  inversion HR; subst ids' oe. simpl. rewrite HM. simpl.
  unfold GoExec.Run, GoExec.Start. io. rewrite Hrun. reflexivity.
Qed.

(** X3.  [Load] returns an error for every store, whatever the files,
    the recipients and gpg do, and leaves the resource as it is: also
    when gpg ran and exited with status 0, where the error is the one of
    the [cmd.Wait()] that follows [cmd.Run()].  So a query that finds
    the resource not loaded is answered with status 500, and the resource
    is still not loaded after it. *)
Theorem Load_returns_an_error_for_every_store (w : World) (v : SecretsResource) :
  (exists e t, Load NFKD Marshal w v = ((Some e, v), t)) /\
  (forall args stdin out,
     In (EvExec "gpg" args stdin) (snd (Load NFKD Marshal w v)) ->
     run w "gpg" args stdin = GoExec.Exits out None ->
     fst (Load NFKD Marshal w v)
     = (Some "unable to encrypt index: exec: Wait was already called", v)) /\
  (loaded v = false ->
   (exists msg,
      fst (List NFKD Marshal w None v)
      = ((StatusInternalServerError, ErrorBody msg), v)) /\
   (forall req, Path req <> "" -> Username req <> "" ->
      exists msg,
        fst (Show NFKD Marshal w (inr req) v)
        = ((StatusInternalServerError, ErrorBody msg), v))).
Proof.
  destruct (Load_never_installs NFKD Marshal w v) as [e He].
  destruct (Load NFKD Marshal w v) as [[oe v'] t] eqn:HL. simpl in He.
  inversion He; subst oe v'.
  split; [eauto|]. split.
  - intros args stdin out Hin Hrun.
    pose proof (Load_after_gpg w v args stdin out) as H.
    rewrite HL in H. by apply H.
  - intros Hl. split.
    + eexists. by rewrite (List_runs_Load NFKD Marshal w v e t Hl HL).
    + intros req Hp Hu. eexists.
      by rewrite (Show_runs_Load NFKD Marshal w v req e t Hl Hp Hu HL).
Qed.
End Handlers.

Lemma Show_rejects_witness :
  Show NFKDLatin1.NFKD Sample.sample_Marshal Sample.sample_world
    (inr {| Path := ""; Username := "" |}) Sample.empty_resource
  = (((StatusBadRequest, ErrorBody "no path found in request body"),
      Sample.empty_resource), []).
Proof.
  apply (Show_rejects_incomplete_request NFKDLatin1.NFKD Sample.sample_Marshal
           Sample.sample_world Sample.empty_resource
           (inr {| Path := ""; Username := "" |})).
  left. reflexivity.
Defined.

Lemma loaded_resource_witness :
  let v := {| store := "/store"; loaded := true; index := "encrypted index";
              secrets := Sample.sample_secrets |} in
  ensureLoaded NFKDLatin1.NFKD Sample.sample_Marshal Sample.broken_world v
  = ((None, v), []) /\
  List NFKDLatin1.NFKD Sample.sample_Marshal Sample.broken_world None v
  = (((StatusOK, ResponseBody "encrypted index"), v), []) /\
  forall req, Path req <> "" -> Username req <> "" ->
    Show NFKDLatin1.NFKD Sample.sample_Marshal Sample.broken_world (inr req) v =
      ((match Sample.sample_secrets !! req with
        | Some text => (StatusOK, ResponseBody text)
        | None => (StatusBadRequest, ErrorBody "unknown secret")
        end, v), []).
Proof.
  apply (loaded_resource_answers_from_its_fields NFKDLatin1.NFKD
           Sample.sample_Marshal Sample.broken_world
           {| store := "/store"; loaded := true; index := "encrypted index";
              secrets := Sample.sample_secrets |}).
  reflexivity.
Defined.

(** * More of the code: the order of the rebuild *)

Lemma readSecret_trace (w : World) (filename : string) :
  snd (readSecret w filename) = [EvOpen filename].
Proof. unfold readSecret, os_Open. io. by destruct (Open w filename). Qed.

(** What [readSecret] returns, by what [os.Open] returns. *)
Lemma readSecret_result (w : World) (filename : string) :
  fst (readSecret w filename) =
    match Open w filename with
    | inl err => inl (Wrap err "failed to open file")
    | inr f => enarmor f
    end.
Proof. unfold readSecret, os_Open. io. by destruct (Open w filename). Qed.

Section LoadOrder.
Variable NFKD : string -> string * nat * option error.
Variable Marshal : list item -> string * option error.

(** The loop over the file names reads them in their order and stops at
    the first one that cannot be read. *)
Lemma load_secrets_shape (w : World) (store : string) (fns : list string) :
  forall ix sm,
    (Forall (can_be_read w) fns /\
     exists ix' sm',
       load_secrets NFKD w store fns ix sm = (inr (ix', sm'), map EvOpen fns)) \/
    (exists pre f post e,
       fns = pre ++ f :: post /\
       Forall (can_be_read w) pre /\
       fst (readSecret w f) = inl e /\
       load_secrets NFKD w store fns ix sm
       = (inl (Wrap e ("failed to read secret " +:+ f)), map EvOpen (pre ++ [f]))).
Proof.
  induction fns as [|f fns IH]; intros ix sm.
  - left. split; [constructor|]. by exists ix, sm.
  - cbn [load_secrets]. unfold bind.
    pose proof (readSecret_trace w f) as Ht.
    destruct (readSecret w f) as [[e|text] t1] eqn:HR; simpl in Ht; subst t1.
    + right. exists [], f, fns, e. rewrite HR.
      split; [done|]. split; [constructor|]. by split.
    + assert (Hf : can_be_read w f) by (exists text; by rewrite HR).
      destruct (IH (ix ++ [index_item NFKD store f])
                   (<[item_name (index_item NFKD store f) := text]> sm))
        as [(Hall & ix' & sm' & ->)|(pre & g & post & e & -> & Hpre & Hg & ->)].
      * left. split; [by constructor|]. by exists ix', sm'.
      * right. exists (f :: pre), g, post, e.
        split; [done|]. split; [by constructor|]. by split.
Qed.

Lemma load_secrets_stops (w : World) (store : string) (pre : list string)
    (f : string) (post : list string) (e : error) :
  Forall (can_be_read w) pre ->
  fst (readSecret w f) = inl e ->
  forall ix sm,
    load_secrets NFKD w store (pre ++ f :: post) ix sm
    = (inl (Wrap e ("failed to read secret " +:+ f)), map EvOpen (pre ++ [f])).
Proof.
  intros Hpre Hf. induction Hpre as [|g pre [text Hg] _ IH]; intros ix sm.
  - cbn [app load_secrets]. unfold bind.
    pose proof (readSecret_trace w f) as Ht.
    destruct (readSecret w f) as [r t1]. simpl in *. by subst.
  - cbn [app load_secrets]. unfold bind.
    pose proof (readSecret_trace w g) as Ht.
    destruct (readSecret w g) as [r t1]. simpl in *. subst r t1.
    by rewrite IH.
Qed.

(** X4.  What [Load] does outside the process, in order, for every
    store.  A walk that fails is all it does.  Else it opens the files
    that the walk returned, in the order of the walk and each once, up to
    the first one that cannot be read, and that is all when there is such
    a file.  When every file was read it opens [.gpg-id], and then, when
    the recipients were read and the index was serialized, it runs one
    command as the last thing: gpg, with the arguments made of the
    recipients and the serialized index as input. *)
Theorem Load_effects_in_order (w : World) (v : SecretsResource) :
  exists fns werr,
    GoFilepath.Walk (walkFn (store v)) (store v) (tree w) [] = (fns, werr) /\
    match werr with
    | Some _ => snd (Load NFKD Marshal w v) = [EvWalk (store v)]
    | None =>
        (exists pre f post e,
           fns = pre ++ f :: post /\
           Forall (can_be_read w) pre /\
           fst (readSecret w f) = inl e /\
           snd (Load NFKD Marshal w v)
           = EvWalk (store v) :: map EvOpen (pre ++ [f])) \/
        (Forall (can_be_read w) fns /\
         exists ix sm t1,
           load_secrets NFKD w (store v) fns [] ∅ = (inr (ix, sm), t1) /\
           snd (Load NFKD Marshal w v)
           = EvWalk (store v) :: map EvOpen fns
             ++ EvOpen (GoPath.Join (store v) ".gpg-id")
                :: match fst (readIDs w (store v)), Marshal ix with
                   | (ids, None), (js, None) =>
                       [EvExec "gpg" (gpg_args ids) js]
                   | _, _ => []
                   end)
    end.
Proof.
  unfold Load. io.
  destruct (GoFilepath.Walk _ _ _ _) as [fns [e|]] eqn:HW; simpl.
  { by exists fns, (Some e). }
  exists fns, None. split; [done|].
  destruct (load_secrets_shape w (store v) fns [] ∅)
    as [(Hall & ix & sm & HL)|(pre & f & post & e & Hfns & Hpre & Hf & HL)];
    rewrite HL; simpl.
  2: { left. exists pre, f, post, e. by rewrite app_nil_r. }
  right. split; [done|]. exists ix, sm, (map EvOpen fns). split; [done|].
  pose proof (readIDs_trace w (store v)) as Hrt.
  destruct (readIDs w (store v)) as [[ids [e|]] t2]; simpl in *; subst t2.
  { done. }
  destruct (Marshal ix) as [js [e|]] eqn:HM; simpl.
  { done. }
  unfold GoExec.Run, GoExec.Start. io.
  destruct (run w "gpg" (gpg_args ids) js) as [e|out [e|]]; simpl;
    by rewrite ?app_nil_r.
Qed.

(** X5.  The first secret that cannot be read stops the rebuild: when
    the files before it were read, and it cannot be opened or the copy to
    the armor encoder gets a read error, [Load] returns that error,
    wrapped with the name of the file, and leaves the resource as it is;
    the files after it and [.gpg-id] are not opened and gpg is not
    run. *)
Theorem unreadable_secret_stops_the_rebuild
    (w : World) (v : SecretsResource) (pre : list string) (f : string)
    (post : list string) (e : error) :
  GoFilepath.Walk (walkFn (store v)) (store v) (tree w) [] = (pre ++ f :: post, None) ->
  Forall (fun g => exists fl, Open w g = inr fl /\ readErr fl = None) pre ->
  (Open w f = inl e \/ exists fl, Open w f = inr fl /\ readErr fl = Some e) ->
  Load NFKD Marshal w v =
    ((Some (Wrap (Wrap e (match Open w f with
                          | inl _ => "failed to open file"
                          | inr _ => "failed to copy to armored encoder"
                          end))
              ("failed to read secret " +:+ f)), v),
     EvWalk (store v) :: map EvOpen (pre ++ [f])).
Proof.
  intros HW Hpre Hf. unfold Load. io. rewrite HW. simpl.
  rewrite (load_secrets_stops w (store v) pre f post
             (Wrap e (match Open w f with
                      | inl _ => "failed to open file"
                      | inr _ => "failed to copy to armored encoder"
                      end))).
  - simpl. by rewrite app_nil_r.
  - eapply Forall_impl; [exact Hpre|]. intros g (fl & HO & Hr).
    unfold can_be_read. rewrite readSecret_result, HO.
    unfold enarmor. rewrite Hr. eauto.
  - rewrite readSecret_result.
    destruct Hf as [HO|(fl & HO & Hr)]; rewrite HO; [done|].
    unfold enarmor. by rewrite Hr.
Qed.
End LoadOrder.

Lemma unreadable_secret_witness :
  Load NFKDLatin1.NFKD Sample.sample_Marshal Sample.unreadable_world
    Sample.empty_resource =
    ((Some (Wrap (Wrap "open /store/work/example.com/alice.gpg: permission denied"
                    "failed to open file")
              ("failed to read secret " +:+ "/store/work/example.com/alice.gpg")),
      Sample.empty_resource),
     EvWalk "/store" :: map EvOpen (["/store/example.com/alice.gpg"]
                                    ++ ["/store/work/example.com/alice.gpg"])).
Proof.
  apply (unreadable_secret_stops_the_rebuild NFKDLatin1.NFKD Sample.sample_Marshal
           Sample.unreadable_world Sample.empty_resource
           ["/store/example.com/alice.gpg"] "/store/work/example.com/alice.gpg" []
           "open /store/work/example.com/alice.gpg: permission denied").
  - reflexivity.
  - constructor; [|constructor]. eexists. split; reflexivity.
  - left. reflexivity.
Defined.

Lemma Load_effects_witness :
  exists fns werr,
    GoFilepath.Walk (walkFn (store Sample.empty_resource))
      (store Sample.empty_resource) (tree Sample.unreadable_world) []
    = (fns, werr) /\
    match werr with
    | Some _ =>
        snd (Load NFKDLatin1.NFKD Sample.sample_Marshal Sample.unreadable_world
               Sample.empty_resource)
        = [EvWalk (store Sample.empty_resource)]
    | None =>
        (exists pre f post e,
           fns = pre ++ f :: post /\
           Forall (can_be_read Sample.unreadable_world) pre /\
           fst (readSecret Sample.unreadable_world f) = inl e /\
           snd (Load NFKDLatin1.NFKD Sample.sample_Marshal
                  Sample.unreadable_world Sample.empty_resource)
           = EvWalk (store Sample.empty_resource) :: map EvOpen (pre ++ [f])) \/
        (Forall (can_be_read Sample.unreadable_world) fns /\
         exists ix sm t1,
           load_secrets NFKDLatin1.NFKD Sample.unreadable_world
             (store Sample.empty_resource) fns [] ∅ = (inr (ix, sm), t1) /\
           snd (Load NFKDLatin1.NFKD Sample.sample_Marshal
                  Sample.unreadable_world Sample.empty_resource)
           = EvWalk (store Sample.empty_resource) :: map EvOpen fns
             ++ EvOpen (GoPath.Join (store Sample.empty_resource) ".gpg-id")
                :: match fst (readIDs Sample.unreadable_world
                                (store Sample.empty_resource)),
                         Sample.sample_Marshal ix with
                   | (ids, None), (js, None) =>
                       [EvExec "gpg" (gpg_args ids) js]
                   | _, _ => []
                   end)
    end.
Proof.
  exact (Load_effects_in_order NFKDLatin1.NFKD Sample.sample_Marshal
           Sample.unreadable_world Sample.empty_resource).
Defined.

(** * More of the code: the walk of the store *)

Module MatchFacts.
Import GoStrings GoFilepath StringFacts.

#[local] Arguments String.append !_ _ /.

Lemma substring_split (s : string) :
  forall k, (k <= String.length s)%nat ->
    s = substring 0 k s +:+ substring k (String.length s - k) s.
Proof.
  induction s as [|c s IH]; intros [|k] Hk; simpl in *; try lia.
  - done.
  - by rewrite substring_full.
  - f_equal. apply IH. lia.
Qed.

(** [HasSuffix]: the text ends with the suffix. *)
Lemma HasSuffix_spec (s suffix : string) :
  HasSuffix s suffix = true <-> exists pre, s = pre +:+ suffix.
Proof.
  unfold HasSuffix. split.
  - intros H. apply andb_true_iff in H as [Hlen Heq].
    apply Nat.leb_le in Hlen. apply String.eqb_eq in Heq.
    exists (substring 0 (String.length s - String.length suffix) s).
    pose proof (substring_split s (String.length s - String.length suffix)) as Hs.
    unfold slice in Heq. rewrite Heq in Hs. apply Hs. lia.
  - intros [pre ->]. apply andb_true_iff. split.
    + apply Nat.leb_le. rewrite length_sapp. lia.
    + rewrite length_sapp.
      replace (String.length pre + String.length suffix - String.length suffix)%nat
        with (String.length pre) by lia.
      rewrite <- (length_sapp pre suffix), slice_drop. apply String.eqb_refl.
Qed.

Lemma matchChunk_spec (chunk s r : string) :
  matchChunk chunk s = Some r <-> s = chunk +:+ r.
Proof.
  revert s. induction chunk as [|c chunk IH]; intros s; simpl.
  - split; [by intros [= ->]|by intros ->].
  - destruct s as [|d s]; [split; discriminate|].
    destruct (Ascii.eqb c d) eqn:E.
    + apply Ascii.eqb_eq in E. subst d. rewrite IH.
      split; [by intros ->|by intros [= ->]].
    + split; [discriminate|]. intros [= -> _]. by rewrite Ascii.eqb_refl in E.
Qed.

Lemma star_skip_suffix (chunk name : string) :
  star_skip chunk name = true -> exists pre, name = pre +:+ chunk.
Proof.
  induction name as [|c name IH]; simpl; [discriminate|].
  destruct (Ascii.eqb c "/"); [discriminate|].
  destruct (matchChunk chunk name) as [[|d r]|] eqn:E.
  - intros _. apply matchChunk_spec in E. subst name.
    exists (String c ""). simpl. by rewrite sapp_nil_r.
  - intros H. destruct (IH H) as [pre ->]. by exists (String c pre).
  - intros H. destruct (IH H) as [pre ->]. by exists (String c pre).
Qed.

Lemma star_skip_prefix (chunk pre : string) (c : ascii) :
  no_slash (String c pre) = true ->
  star_skip chunk (String c pre +:+ chunk) = true.
Proof.
  revert c. induction pre as [|d pre IH]; intros c Hns; simpl in *.
  - apply andb_true_iff in Hns as [Hc _]. apply negb_true_iff in Hc. rewrite Hc.
    assert (E : matchChunk chunk chunk = Some "")
      by (apply matchChunk_spec; by rewrite sapp_nil_r).
    by rewrite E.
  - apply andb_true_iff in Hns as [Hc Hns]. apply negb_true_iff in Hc. rewrite Hc.
    specialize (IH d Hns). simpl in IH.
    by destruct (matchChunk chunk (String d (pre +:+ chunk))) as [[|? ?]|].
Qed.

(** The pattern of a star and literal bytes matches the names that end
    with these bytes, when the name has no slash. *)
Lemma Match_star_suffix (chunk name : string) :
  no_slash name = true ->
  Match_star chunk name = HasSuffix name chunk.
Proof.
  intros Hns. apply eq_true_iff_eq. rewrite HasSuffix_spec. unfold Match_star.
  split.
  - destruct (matchChunk chunk name) as [[|d r]|] eqn:E;
      [|apply star_skip_suffix..].
    intros _. apply matchChunk_spec in E. exists "". simpl.
    by rewrite E, sapp_nil_r.
  - intros [pre ->]. destruct pre as [|c pre].
    + simpl. assert (E : matchChunk chunk chunk = Some "")
        by (apply matchChunk_spec; by rewrite sapp_nil_r).
      by rewrite E.
    + rewrite no_slash_app in Hns. apply andb_true_iff in Hns as [Hns _].
      rewrite (star_skip_prefix chunk pre c Hns).
      by destruct (matchChunk chunk (String c pre +:+ chunk)) as [[|? ?]|].
Qed.
End MatchFacts.

Module RootedFacts.
Import GoStrings GoPath StringFacts PathFacts.

#[local] Arguments String.append !_ _ /.

Lemma join_path_app (a b : list string) :
  a <> [] -> b <> [] ->
  join_path (a ++ b) = join_path a +:+ "/" +:+ join_path b.
Proof.
  intros Ha Hb. induction a as [|c a IH]; [done|].
  destruct a as [|c2 a'].
  - destruct b as [|d b']; [done|]. reflexivity.
  - cbn [app] in *. rewrite !join_path_cons, IH by done.
    by rewrite !sapp_assoc.
Qed.

Lemma join_path_snoc (a : list string) (c : string) :
  a <> [] -> join_path (a ++ [c]) = join_path a +:+ "/" +:+ c.
Proof. intros Ha. by rewrite join_path_app. Qed.

(** The loop of [Clean] on plain names that slashes separate. *)
Lemma clean_loop_comps_end (comps : list string) :
  forall (fuel : nat) (out : list ascii),
    Forall (fun c => plain c = true) comps -> comps <> [] ->
    (length (list_ascii_of_string (join_path comps)) + 1 <= fuel)%nat ->
    (1 <= length out)%nat ->
    clean_loop fuel true (list_ascii_of_string (join_path comps)) out 1
    = (if (length out =? 1)%nat then out else out ++ ["/"%char])
      ++ list_ascii_of_string (join_path comps).
Proof.
  induction comps as [|c cs IH]; intros fuel out Hall Hne Hfuel Hout; [done|].
  inversion Hall as [|? ? Hc Hcs]; subst.
  assert (Hlen : (1 <= length (list_ascii_of_string c))%nat).
  { destruct c; [discriminate|]. simpl. lia. }
  assert (Hsel : forall A (X Y : A) (b : bool),
             (if (true && negb b) || (negb true && negb (length out =? 0)%nat)
              then X else Y) = if b then Y else X).
  { intros A X Y b. by destruct b. }
  destruct cs as [|c2 cs'].
  - change (join_path [c]) with c in *.
    destruct fuel as [|fuel]; [lia|].
    pose proof (clean_loop_name fuel true c [] out 1 Hc (or_introl eq_refl)) as H.
    rewrite app_nil_r in H. rewrite H, Hsel.
    by destruct fuel.
  - rewrite join_path_cons in *. rewrite !bytes_app in *.
    cbn [list_ascii_of_string app] in *. rewrite length_app in Hfuel.
    cbn [length] in Hfuel.
    destruct fuel as [|[|fuel]]; [lia|lia|].
    rewrite clean_loop_name by (auto; right; eauto).
    rewrite Hsel. cbn [clean_loop]. simpl Ascii.eqb. cbn iota.
    rewrite IH; [|done|done|lia|].
    + replace (length ((if (length out =? 1)%nat then out else out ++ ["/"%char])
                       ++ list_ascii_of_string c) =? 1)%nat with false.
      * by rewrite <- !app_assoc.
      * symmetry. apply Nat.eqb_neq. rewrite length_app.
        destruct (length out =? 1)%nat; [lia|]. rewrite length_app. lia.
    + rewrite length_app. lia.
Qed.

(** A rooted path of plain names is clean. *)
Lemma Clean_store_path (comps : list string) :
  Forall (fun c => plain c = true) comps -> comps <> [] ->
  Clean (store_path comps) = store_path comps.
Proof.
  intros Hall Hne. unfold Clean, store_path.
  cbn [String.append list_ascii_of_string].
  simpl Ascii.eqb. cbn iota. cbn [tl].
  rewrite clean_loop_comps_end; [|done|done| |simpl; lia].
  - simpl. by rewrite string_of_list_ascii_of_string.
  - cbn [length]. lia.
Qed.

Lemma store_path_snoc (comps : list string) (name : string) :
  comps <> [] ->
  store_path (comps ++ [name]) = (store_path comps +:+ "/") +:+ name.
Proof.
  intros Hne. unfold store_path. rewrite join_path_snoc by done.
  by rewrite !sapp_assoc.
Qed.

(** [Join] of a directory of the store and the name of an entry. *)
Lemma Join_store_path (comps : list string) (name : string) :
  Forall (fun c => plain c = true) comps -> comps <> [] -> plain name = true ->
  Join (store_path comps) name = store_path (comps ++ [name]).
Proof.
  intros Hall Hne Hname. unfold Join.
  replace (String.eqb (store_path comps) "") with false by done.
  replace (String.eqb name "") with false
    by (symmetry; apply String.eqb_neq; by apply plain_nonempty).
  rewrite store_path_snoc by done.
  rewrite <- sapp_assoc, <- store_path_snoc by done.
  apply Clean_store_path.
  - apply Forall_app. split; [done|]. by constructor.
  - by destruct comps.
Qed.

(** [Dir] of an entry of a directory of the store. *)
Lemma Dir_store_path (comps : list string) (name : string) :
  Forall (fun c => plain c = true) comps -> comps <> [] -> plain name = true ->
  Dir (store_path (comps ++ [name])) = store_path comps.
Proof.
  intros Hall Hne Hname. unfold Dir.
  rewrite store_path_snoc by done.
  rewrite Split_last by (by apply plain_no_slash). cbn [fst].
  by apply Clean_rooted.
Qed.

(** [Dir] of an entry of the root directory. *)
Lemma Dir_top (name : string) :
  plain name = true -> Dir (store_path [name]) = "/".
Proof.
  intros Hname. unfold Dir, store_path.
  change ("/" +:+ join_path [name]) with (("" +:+ "/") +:+ name).
  by rewrite Split_last by (by apply plain_no_slash).
Qed.

Lemma sapp_longer (a x : string) : x <> "" -> a +:+ x <> a.
Proof.
  intros Hx H. apply (f_equal String.length) in H. rewrite length_sapp in H.
  destruct x; [done|]. simpl in H. lia.
Qed.

Lemma store_path_longer (comps ds : list string) :
  comps <> [] -> ds <> [] -> store_path (comps ++ ds) <> store_path comps.
Proof.
  intros Hc Hd. unfold store_path. rewrite join_path_app by done.
  rewrite <- (sapp_assoc "/" (join_path comps)). by apply sapp_longer.
Qed.

Lemma snoc_cases {A} (l : list A) : l = [] \/ exists l' x, l = l' ++ [x].
Proof.
  induction l as [|a l IH] using rev_ind; [by left|right; eauto].
Qed.

(** The test [filepath.Dir(path) == v.store] of the walk function holds
    for the entries of the root directory and for no other path of the
    tree. *)
Lemma Dir_is_store (comps ds : list string) :
  Forall (fun c => plain c = true) comps -> comps <> [] ->
  Forall (fun c => plain c = true) ds ->
  String.eqb (Dir (store_path (comps ++ ds))) (store_path comps)
  = (length ds =? 1)%nat.
Proof.
  intros Hall Hne Hds.
  destruct (snoc_cases ds) as [->|(ds' & d & ->)].
  - rewrite app_nil_r. simpl. apply String.eqb_neq.
    destruct (snoc_cases comps) as [->|(cs & c & ->)]; [done|].
    apply Forall_app in Hall as [Hcs Hc]. inversion Hc; subst.
    destruct cs as [|c0 cs'].
    + cbn [app]. rewrite Dir_top by done. unfold store_path.
      change (join_path [c]) with c. intros H.
      apply (sapp_longer "/" c); [by apply plain_nonempty|done].
    + rewrite Dir_store_path by done. intros H. symmetry in H. revert H.
      by apply store_path_longer.
  - apply Forall_app in Hds as [Hds' Hd]. inversion Hd; subst.
    rewrite app_assoc, Dir_store_path;
      [|by apply Forall_app|by destruct comps|done].
    rewrite length_app. cbn [length].
    destruct ds' as [|d0 ds''].
    + rewrite app_nil_r, String.eqb_refl. reflexivity.
    + replace (length (d0 :: ds'') + 1 =? 1)%nat with false
        by (symmetry; apply Nat.eqb_neq; simpl; lia).
      apply String.eqb_neq. by apply store_path_longer.
Qed.
End RootedFacts.

Module WalkFacts.
Import GoFilepath StoreTree StringFacts PathFacts RootedFacts.

(** Induction on a tree, with the property for the entries of a
    directory. *)
Lemma node_induction (P : node -> Prop) :
  (forall name, P (File name)) ->
  (forall name e, P (Unstat name e)) ->
  (forall name e entries, Forall P entries -> P (Directory name e entries)) ->
  forall n, P n.
Proof.
  intros HF HU HD. fix IH 1. intros [name|name e entries|name e].
  - apply HF.
  - apply HD. induction entries as [|c l IHl]; constructor; [apply IH|exact IHl].
  - apply HU.
Qed.

Lemma node_name_prune (n : node) : node_name (prune_git n) = node_name n.
Proof. destruct n as [name|name e entries|name e]; simpl; try done.
       by destruct (String.eqb name ".git"). Qed.

Lemma walkFn_dir (store path name : string) (st : list string) :
  walkFn store path (Visit {| Name := name; IsDir := true |}) st
  = (st, if String.eqb name ".git" then WSkipDir else WNil).
Proof. unfold walkFn. cbn [IsDir Name andb]. by destruct (String.eqb name ".git"). Qed.

Lemma walkFn_failed (store path : string) (info : option FileInfo)
    (e : error) (st : list string) :
  walkFn store path (Failed info e) st = (st, WErr e).
Proof. reflexivity. Qed.

(** The walk does not depend on what the directories named [.git]
    hold. *)
Lemma lstat_walk_prune (store : string) (n : node) :
  forall path st,
    lstat_walk (walkFn store) path (prune_git n) st
    = lstat_walk (walkFn store) path n st.
Proof.
  induction n as [name|name e|name e entries IH] using node_induction;
    intros path st; [done|done|].
  cbn [prune_git]. destruct (String.eqb name ".git") eqn:Hgit.
  - cbn [lstat_walk]. destruct e as [err|]; [done|].
    rewrite !walkFn_dir, Hgit. reflexivity.
  - cbn [lstat_walk]. destruct e as [err|]; [done|].
    rewrite !walkFn_dir, Hgit.
    clear Hgit. revert st. induction IH as [|c l Hc _ IHl]; intros st; [done|].
    cbn [map]. rewrite node_name_prune, Hc.
    destruct (lstat_walk (walkFn store) (Join path (node_name c)) c st)
      as [st' r].
    assert (Hkind : forall A (x y : A),
               match prune_git c with File _ => x | _ => y end
               = match c with File _ => x | _ => y end).
    { intros A x y. destruct c as [?|n0 ? ?|? ?]; cbn [prune_git]; try done.
      by destruct (String.eqb n0 ".git"). }
    rewrite Hkind. destruct c, r; try done; apply IHl.
Qed.

Section Store.
Variable comps : list string.
Hypothesis comps_ne : comps <> [].
Hypothesis comps_plain : Forall (fun c => plain c = true) comps.

(** The walk of a tree that can be walked to its end, at a path of
    the store: it appends the secret files of the tree and returns no
    error. *)
Lemma lstat_walk_walkable (n : node) :
  forall ds st,
    walkable n = true -> Forall (fun c => plain c = true) ds ->
    no_slash (node_name n) = true ->
    exists r,
      lstat_walk (walkFn (store_path comps)) (store_path (comps ++ ds)) n st
      = (st ++ secret_files (length ds) (store_path (comps ++ ds)) n, r) /\
      quiet n r.
Proof.
  induction n as [name|name e|name e entries IH] using node_induction;
    intros ds st Hw Hds Hname; [|done|].
  - exists WNil. split; [|by left].
    cbn [lstat_walk secret_files]. unfold walkFn. cbn [IsDir Name andb].
    rewrite Dir_is_store by done.
    destruct (length ds =? 1)%nat eqn:Hlen; [by rewrite app_nil_r|].
    rewrite MatchFacts.Match_star_suffix by done.
    destruct (GoStrings.HasSuffix name ".gpg"); [done|by rewrite app_nil_r].
  - cbn [walkable] in Hw. apply andb_true_iff in Hw as [He Hall].
    destruct e as [err|]; [discriminate|]. clear He Hname.
    cbn [lstat_walk secret_files]. rewrite walkFn_dir.
    destruct (String.eqb name ".git") eqn:Hgit.
    { exists WSkipDir. rewrite app_nil_r. split; [done|by right]. }
    cbn [orb] in Hall. exists WNil. split; [|by left].
    revert st. induction IH as [|c l Hc _ IHl]; intros st.
    { cbn [flat_map]. by rewrite app_nil_r. }
    cbn [forallb] in Hall. apply andb_true_iff in Hall as [Hcw Hall].
    apply andb_true_iff in Hcw as [Hcn Hcw].
    specialize (IHl Hall).
    rewrite Join_store_path;
      [|by apply Forall_app|by destruct comps|done].
    rewrite <- app_assoc.
    destruct (Hc (ds ++ [node_name c]) st Hcw) as (r & -> & Hq);
      [apply Forall_app; split; [done|by constructor]
      |by apply plain_no_slash|].
    rewrite length_app, Nat.add_1_r.
    rewrite (app_assoc comps ds), store_path_snoc, sapp_assoc
      by (by destruct comps).
    cbn [flat_map]. rewrite (app_assoc st), <- IHl.
    destruct Hq as [->|[-> Hd]]; destruct c; try discriminate; reflexivity.
Qed.
End Store.
End WalkFacts.

(** X6.  The files that [Load] reads.  For a store at a rooted path of
    plain names whose tree can be walked to its end, the walk with the
    walk function of [Load] returns, in the order of the directories, the
    files whose name ends in [.gpg] and that lie in a directory below the
    root: not the entries of the root directory itself, and nothing that a
    directory named [.git] holds. *)
Theorem walk_collects_the_secret_files (comps : list string) (t : GoFilepath.node) :
  comps <> [] -> Forall (fun c => plain c = true) comps ->
  StoreTree.walkable t = true -> no_slash (GoFilepath.node_name t) = true ->
  GoFilepath.Walk (walkFn (store_path comps)) (store_path comps) t []
  = (StoreTree.secret_files 0 (store_path comps) t, None).
Proof.
  intros Hne Hall Hw Hname. unfold GoFilepath.Walk.
  destruct (WalkFacts.lstat_walk_walkable comps Hne Hall t [] [] Hw
              (List.Forall_nil _) Hname) as (r & H & Hq).
  rewrite app_nil_r in H. rewrite H.
  by destruct Hq as [->|[-> _]].
Qed.

Lemma walk_sample_witness :
  GoFilepath.Walk (walkFn (store_path ["store"])) (store_path ["store"])
    Sample.sample_tree []
  = (StoreTree.secret_files 0 (store_path ["store"]) Sample.sample_tree, None).
Proof.
  apply (walk_collects_the_secret_files ["store"] Sample.sample_tree).
  - discriminate.
  - repeat constructor.
  - reflexivity.
  - reflexivity.
Defined.

(** X7.  The walk never looks at what a directory named [.git] holds:
    whatever its entries are, the walk returns the same file names and the
    same error as for the tree in which these directories are empty.  This
    holds for every tree, store and root.  (Whether such a directory can be
    read is kept in the pruned tree, for it does matter: a directory is read
    before the walk function is called, and the walk function returns the
    error of reading before it tests the name.) *)
Theorem walk_skips_git_directories
    (store root : string) (t : GoFilepath.node) (filenames : list string) :
  GoFilepath.Walk (walkFn store) root (StoreTree.prune_git t) filenames
  = GoFilepath.Walk (walkFn store) root t filenames.
Proof.
  unfold GoFilepath.Walk. by rewrite WalkFacts.lstat_walk_prune.
Qed.

(** * More of the code: the armored text *)

Module ArmorFormat.
Import GoArmor Base64Facts Base64RoundTrip ArmorFacts.

Lemma ascii_forallb (l : list ascii) :
  Forall (fun c => is_ascii c = true) l <-> forallb is_ascii l = true.
Proof. rewrite forallb_forall, List.Forall_forall. done. Qed.

Lemma get_In (s : string) :
  forall n c, String.get n s = Some c -> In c (list_ascii_of_string s).
Proof.
  induction s as [|d s IH]; intros [|n] c H; simpl in *; try discriminate.
  - left. congruence.
  - right. eauto.
Qed.

(** The bytes of the alphabet and the padding are ASCII. *)
Lemma enc_ascii (v : Z) : is_ascii (GoBase64.enc v) = true.
Proof.
  unfold GoBase64.enc.
  destruct (String.get (Z.to_nat v) GoBase64.encodeStd) as [c|] eqn:E; [|done].
  apply get_In in E. revert c E. apply forallb_forall. vm_compute. reflexivity.
Qed.

Lemma base64_ascii_le (n : nat) :
  forall d, (length d <= n)%nat -> Forall (fun c => is_ascii c = true) (GoBase64.Encode d).
Proof.
  induction n as [|n IH]; intros d Hd.
  { destruct d; simpl in *; [constructor|lia]. }
  destruct d as [|a [|b [|c rest]]]; cbn [GoBase64.Encode];
    repeat (constructor; [first [apply enc_ascii|reflexivity]|]);
    try constructor.
  apply IH. simpl in Hd. lia.
Qed.

Lemma base64_ascii (d : list ascii) : Forall (fun c => is_ascii c = true) (GoBase64.Encode d).
Proof. by apply (base64_ascii_le (length d)). Qed.

Lemma chunks_ascii (fuel n : nat) :
  forall l, Forall (fun c => is_ascii c = true) l -> Forall (fun l => Forall (fun c => is_ascii c = true) l) (chunks fuel n l).
Proof.
  induction fuel as [|fuel IH]; intros l Hl; cbn [chunks]; [constructor|].
  destruct l as [|c l']; constructor.
  - by apply Forall_take.
  - apply IH. by apply Forall_drop.
Qed.

(** The breaker cuts lines of at most [n] bytes. *)
Lemma chunks_short (fuel n : nat) :
  forall l, Forall (fun c => (length c <= n)%nat) (chunks fuel n l).
Proof.
  induction fuel as [|fuel IH]; intros l; cbn [chunks]; [constructor|].
  destruct l as [|c l']; constructor; [|apply IH].
  rewrite length_take. lia.
Qed.

Lemma join_lines_ascii (ls : list (list ascii)) :
  Forall (fun l => Forall (fun c => is_ascii c = true) l) ls -> Forall (fun c => is_ascii c = true) (join_lines ls).
Proof.
  induction 1 as [|l ls Hl Hls IH]; [constructor|].
  destruct ls as [|l2 ls']; [exact Hl|].
  cbn [join_lines]. apply Forall_app. split; [exact Hl|].
  constructor; [reflexivity|exact IH].
Qed.

(** The armored text is ASCII. *)
Lemma Encode_ascii (d : list ascii) : Forall (fun c => is_ascii c = true) (Encode "PGP MESSAGE" d).
Proof.
  unfold Encode.
  repeat (apply Forall_app; split).
  - apply ascii_forallb. vm_compute. reflexivity.
  - by repeat constructor.
  - by repeat constructor.
  - apply join_lines_ascii, chunks_ascii, base64_ascii.
  - by repeat constructor.
  - by repeat constructor.
  - apply base64_ascii.
  - by repeat constructor.
  - apply ascii_forallb. vm_compute. reflexivity.
Qed.

(** The armored text, line by line: the start line, an empty line, the
    base64 text in lines of at most 64 bytes, the line of the checksum
    and the end line. *)
Lemma Encode_lines_short (d : list ascii) :
  exists body sum,
    concat body = GoBase64.Encode d /\
    Forall (fun l => (length l <= 64)%nat) body /\
    length sum = 4%nat /\
    split_lines (Encode "PGP MESSAGE" d) [] =
      start_line :: [] :: (body ++ [GoBase64.pad :: sum]) ++ [end_line].
Proof.
  set (crc := crc24 crc24Init d).
  set (sum := [Zbyte (Z.shiftr crc 16); Zbyte (Z.shiftr crc 8); Zbyte crc]).
  destruct (Encode_shape 3 sum) as [Hsum_nl _]; [simpl; lia|].
  destruct (Encode_shape (length d) d) as [Hb_nl [k Hk]]; [lia|].
  remember (GoBase64.Encode sum) as crc4 eqn:Hcrc4.
  assert (Hlen4 : length crc4 = 4%nat) by (subst crc4 sum; reflexivity).
  set (b64 := GoBase64.Encode d) in *.
  assert (Htail : split_lines (GoBase64.pad :: crc4 ++ nl :: end_line) []
                  = [GoBase64.pad :: crc4; end_line]).
  { change (GoBase64.pad :: crc4 ++ nl :: end_line)
      with ((GoBase64.pad :: crc4) ++ nl :: end_line).
    rewrite split_lines_app.
    - cbn [app].
      by rewrite (split_lines_last end_line [])
        by (apply no_nl_forallb; vm_compute; reflexivity).
    - constructor; [reflexivity|exact Hsum_nl]. }
  assert (Hall : Encode "PGP MESSAGE" d =
                 start_line ++ nl :: nl ::
                   (join_lines (chunks (length b64) 64 b64) ++ nl ::
                      ((GoBase64.pad :: crc4) ++ nl :: end_line))).
  { unfold Encode. fold crc. fold sum. fold b64. rewrite <- Hcrc4.
    unfold newline, start_line, end_line, nl. reflexivity. }
  rewrite Hall.
  rewrite split_lines_app by (apply no_nl_forallb; vm_compute; reflexivity).
  rewrite split_lines_nl.
  cbn [app].
  destruct b64 as [|c b64'] eqn:Hb64.
  - exists [[]], crc4. rewrite chunks_nil. cbn [join_lines app].
    rewrite split_lines_nl, Htail.
    split; [done|]. split; [repeat constructor; simpl; lia|]. by split.
  - destruct (chunks_spec (length (c :: b64')) (c :: b64') k) as [Hcat Hch];
      [lia|done|done|].
    exists (chunks (length (c :: b64')) 64 (c :: b64')), crc4.
    rewrite lines_join.
    + rewrite Htail. split; [done|]. split; [apply chunks_short|].
      split; [done|]. by rewrite <- app_assoc.
    + eapply Forall_impl; [exact Hch|]. by intros ? [? _].
    + apply chunks_cons.
Qed.
End ArmorFormat.

(** X8.  The text that [enarmor] returns for a file that is read to its
    end has the form of an armored block: every byte is of the ASCII
    subset; the first line is the start line of a [PGP MESSAGE], an empty
    line follows, then the base64 text of the bytes of the file in lines of
    at most 64 bytes, then the line of the checksum ([=] and four bytes),
    and the end line ends the text, without a newline after it. *)
Theorem enarmor_text_format (b : string) (closed : option error) :
  exists text body sum,
    enarmor {| data := b; readErr := None; closeErr := closed |} = inr text /\
    forallb is_ascii (list_ascii_of_string text) = true /\
    split_lines (list_ascii_of_string text) [] =
      GoArmor.start_line :: [] :: (body ++ [GoBase64.pad :: sum])
      ++ [GoArmor.end_line] /\
    concat body = GoBase64.Encode (list_ascii_of_string b) /\
    Forall (fun l => (length l <= 64)%nat) body /\
    length sum = 4%nat.
Proof.
  destruct (ArmorFormat.Encode_lines_short (list_ascii_of_string b))
    as (body & sum & Hcat & Hshort & Hsum & Hlines).
  eexists _, body, sum. split; [reflexivity|].
  rewrite list_ascii_of_string_of_list_ascii.
  split; [apply ArmorFormat.ascii_forallb, ArmorFormat.Encode_ascii|].
  by repeat split.
Qed.

(** X9.  [enarmor] tells the files apart: two files that are read to
    their end and have the same armored text hold the same bytes. *)
Theorem enarmor_injective (f g : file) (text : string) :
  enarmor f = inr text -> enarmor g = inr text -> data f = data g.
Proof.
  unfold enarmor. intros Hf Hg.
  destruct (readErr f); [discriminate|]. destruct (readErr g); [discriminate|].
  assert (E : string_of_list_ascii
                (GoArmor.Encode "PGP MESSAGE" (list_ascii_of_string (data f)))
              = string_of_list_ascii
                  (GoArmor.Encode "PGP MESSAGE" (list_ascii_of_string (data g))))
    by congruence.
  apply (f_equal list_ascii_of_string) in E.
  rewrite !list_ascii_of_string_of_list_ascii in E.
  apply (f_equal (GoArmor.Decode "PGP MESSAGE")) in E.
  rewrite !ArmorFacts.armor_Decode_Encode in E.
  injection E as E.
  apply (f_equal string_of_list_ascii) in E.
  by rewrite !string_of_list_ascii_of_string in E.
Qed.

Lemma enarmor_injective_witness :
  data {| data := "ciphertext one"; readErr := None; closeErr := None |}
  = data {| data := "ciphertext one"; readErr := None;
            closeErr := Some "close: input/output error" |}.
Proof.
  apply (enarmor_injective
           {| data := "ciphertext one"; readErr := None; closeErr := None |}
           {| data := "ciphertext one"; readErr := None;
              closeErr := Some "close: input/output error" |}
           (Sample.armored "ciphertext one")); reflexivity.
Defined.

(** * More of the code: names and recipients *)

Section NormalizeAscii.
Variable NFKD : string -> string * nat * option error.
Import PathFacts.

Lemma length_string_of_list (l : list ascii) :
  String.length (string_of_list_ascii l) = length l.
Proof. by rewrite <- length_bytes, list_ascii_of_string_of_list_ascii. Qed.

(** X10.  Whatever the transformation returns, the result of
    [normalize] is text of the ASCII subset that is not longer than the
    transformed text, and it is the transformed text when that is ASCII
    already; so the [username_normalized] of every item of the index is
    ASCII. *)
Theorem normalize_gives_ascii (s : string) :
  forallb is_ascii (list_ascii_of_string (normalize NFKD s)) = true /\
  (String.length (normalize NFKD s) <= String.length (NFKD s).1.1)%nat /\
  (forall rs n, NFKD s = (rs, n, None) ->
     forallb is_ascii (list_ascii_of_string rs) = true ->
     normalize NFKD s = rs) /\
  forall store,
    forallb is_ascii
      (list_ascii_of_string (UsernameNormalized (index_item NFKD store s))) = true.
Proof.
  assert (Hascii : forall t,
             forallb is_ascii (list_ascii_of_string (normalize NFKD t)) = true).
  { intros t. destruct (NFKD t) as [[rs n] [e|]] eqn:H.
    - by rewrite (normalize_error _ _ _ _ _ H).
    - rewrite (normalize_filter _ _ _ _ H), list_ascii_of_string_of_list_ascii.
      apply RangeFacts.forallb_filter_ascii. }
  split; [apply Hascii|]. split; [|split].
  - destruct (NFKD s) as [[rs n] [e|]] eqn:H; cbn [fst].
    + rewrite (normalize_error _ _ _ _ _ H). simpl. lia.
    + rewrite (normalize_filter _ _ _ _ H), length_string_of_list.
      rewrite <- length_bytes. apply List.filter_length_le.
  - intros rs n H Hrs.
    rewrite (normalize_filter _ _ _ _ H), RangeFacts.filter_all_ascii by done.
    apply string_of_list_ascii_of_string.
  - intros store. apply Hascii.
Qed.
End NormalizeAscii.

Module RelativeFacts.
Import GoStrings GoPath StringFacts PathFacts RootedFacts.

#[local] Arguments String.append !_ _ /.

(** The loop of [Clean] on plain names of a path that is not rooted. *)
Lemma clean_loop_relative (comps : list string) :
  forall (fuel : nat) (out : list ascii),
    Forall (fun c => plain c = true) comps -> comps <> [] ->
    (length (list_ascii_of_string (join_path comps)) + 1 <= fuel)%nat ->
    clean_loop fuel false (list_ascii_of_string (join_path comps) ++ ["/"%char]) out 0
    = (if (length out =? 0)%nat then out else out ++ ["/"%char])
      ++ list_ascii_of_string (join_path comps).
Proof.
  induction comps as [|c cs IH]; intros fuel out Hall Hne Hfuel; [done|].
  inversion Hall as [|? ? Hc Hcs]; subst.
  assert (Hlen : (1 <= length (list_ascii_of_string c))%nat).
  { destruct c; [discriminate|]. simpl. lia. }
  assert (Hsel : forall A (X Y : A) (b b' : bool),
             (if (false && negb b') || (negb false && negb b)
              then X else Y) = if b then Y else X).
  { intros A X Y b b'. by destruct b. }
  destruct cs as [|c2 cs'].
  - change (join_path [c]) with c in *.
    destruct fuel as [|[|fuel]]; [lia|lia|].
    rewrite clean_loop_name by (auto; right; eauto).
    rewrite Hsel. cbn [clean_loop]. simpl Ascii.eqb. cbn iota.
    by destruct fuel.
  - rewrite join_path_cons in *. rewrite !bytes_app in *.
    cbn [list_ascii_of_string app] in *. rewrite length_app in Hfuel.
    cbn [length] in Hfuel.
    destruct fuel as [|[|fuel]]; [lia|lia|].
    rewrite <- app_assoc. cbn [app].
    rewrite clean_loop_name by (auto; right; eauto).
    rewrite Hsel. cbn [clean_loop]. simpl Ascii.eqb. cbn iota.
    rewrite IH; [|done|done|lia].
    replace (length ((if (length out =? 0)%nat then out else out ++ ["/"%char])
                     ++ list_ascii_of_string c) =? 0)%nat with false.
    + by rewrite <- !app_assoc.
    + symmetry. apply Nat.eqb_neq. rewrite length_app. lia.
Qed.

(** A path of plain names begins with a byte that is not a slash. *)
Lemma join_path_head (comps : list string) :
  Forall (fun c => plain c = true) comps -> comps <> [] ->
  exists c0 rest, join_path comps = String c0 rest /\ Ascii.eqb c0 "/" = false.
Proof.
  intros Hall Hne. destruct comps as [|c cs]; [done|].
  inversion Hall as [|? ? Hc _]; subst.
  pose proof (plain_no_slash c Hc) as Hns.
  destruct c as [|c0 c']; [discriminate|].
  simpl in Hns. apply andb_true_iff in Hns as [H0 _]. apply negb_true_iff in H0.
  destruct cs as [|c2 cs']; [by exists c0, c'|].
  rewrite join_path_cons. simpl. eauto.
Qed.

Lemma Clean_relative (comps : list string) :
  Forall (fun c => plain c = true) comps -> comps <> [] ->
  Clean (join_path comps +:+ "/") = join_path comps.
Proof.
  intros Hall Hne. unfold Clean. rewrite bytes_app.
  pose proof (clean_loop_relative comps
                (length (list_ascii_of_string (join_path comps) ++ ["/"%char]))
                [] Hall Hne) as HL.
  destruct (join_path_head comps Hall Hne) as (c0 & rest & Hj & H0).
  rewrite Hj in *. cbn [list_ascii_of_string app] in *. rewrite H0.
  rewrite HL by (cbn [length]; rewrite length_app; simpl; lia).
  simpl. by rewrite string_of_list_ascii_of_string.
Qed.

Lemma TrimPrefix_no_slash (comps : list string) :
  Forall (fun c => plain c = true) comps -> comps <> [] ->
  TrimPrefix (join_path comps) "/" = join_path comps.
Proof.
  intros Hall Hne.
  destruct (join_path_head comps Hall Hne) as (c0 & rest & -> & H0).
  unfold TrimPrefix. cbn [HasPrefix]. rewrite Ascii.eqb_sym, H0. reflexivity.
Qed.

(** The names of the file [name.gpg] in the directory [comps], from its
    path without the store. *)
Lemma relative_names (comps : list string) (name : string) :
  comps <> [] -> Forall (fun c => plain c = true) comps ->
  no_slash name = true -> name <> "" ->
  let secret := TrimSuffix (join_path comps +:+ "/" +:+ name +:+ ".gpg") ".gpg" in
  Base secret = name /\
  TrimPrefix (Dir secret) "/" = join_path comps /\
  Base (join_path comps) = List.last comps "".
Proof.
  intros Hne Hall Hns Hname secret. subst secret.
  replace (join_path comps +:+ "/" +:+ name +:+ ".gpg")
    with (((join_path comps +:+ "/") +:+ name) +:+ ".gpg")
    by (by rewrite !sapp_assoc).
  rewrite TrimSuffix_app. split; [|split].
  - apply Base_last; [|done|done]. right. by exists (join_path comps).
  - unfold Dir. rewrite Split_last by done. cbn [fst].
    rewrite Clean_relative by done. by apply TrimPrefix_no_slash.
  - destruct (join_path_last comps Hne) as (dir & Hj & Hd).
    pose proof (Forall_last comps Hall Hne) as Hl.
    rewrite Hj. apply Base_last;
      [done|by apply plain_nonempty|by apply plain_no_slash].
Qed.

Lemma HasPrefix_head (a b p : string) :
  a <> "" -> p <> "" -> String.length p = 1%nat ->
  HasPrefix (a +:+ b) p = HasPrefix a p.
Proof.
  intros Ha Hp Hlen. destruct p as [|c [|? ?]]; try done.
  destruct a as [|d a']; [done|]. simpl.
  destruct (Ascii.eqb c d); [|done]. by destruct (a' +:+ b), a'.
Qed.

Lemma join_path_dot (c : string) (comps : list string) :
  join_path (("." +:+ c) :: comps) = "." +:+ join_path (c :: comps).
Proof. destruct comps as [|c2 cs]; [done|]. by rewrite !join_path_cons. Qed.
End RelativeFacts.

Section DefaultStoreNames.
Variable NFKD : string -> string * nat * option error.
Import StringFacts PathFacts RelativeFacts.

Lemma relative_item (store : string) (comps : list string) (name : string) :
  comps <> [] -> Forall (fun c => plain c = true) comps ->
  no_slash name = true -> name <> "" ->
  GoStrings.TrimPrefix (join_path comps +:+ "/" +:+ name +:+ ".gpg") store
  = join_path comps +:+ "/" +:+ name +:+ ".gpg" ->
  let it := index_item NFKD store (join_path comps +:+ "/" +:+ name +:+ ".gpg") in
  item_Path it = join_path comps /\ Domain it = List.last comps "" /\
  item_Username it = name.
Proof.
  intros Hne Hall Hns Hname Htrim it. subst it. unfold index_item.
  cbn [item_Path Domain item_Username]. rewrite Htrim.
  destruct (relative_names comps name Hne Hall Hns Hname) as (Hb & Hd & Hl).
  rewrite Hb, Hd, Hl. done.
Qed.

(** X11.  The store is [.] when the environment does not set
    [PASSWORD_STORE], and the walk of [.] yields paths like
    [example.com/alice.gpg].  For the file [name.gpg] in a directory of
    plain names the item then has the names of the directory as path,
    the last of them as domain and [name] as username, provided the
    first name of the directory does not begin with a dot.  When it does,
    the dot is taken for the store and cut off: the secret of [.d/...] is
    indexed, and stored, under the path [d/...], the same as the secret
    of that name in the directory [d]. *)
Theorem default_store_names :
  STORE no_env = "." /\
  GoFilepath.Walk (walkFn (STORE no_env)) (STORE no_env)
    DefaultStore.hidden_tree []
  = ([".private/alice.gpg"; "private/alice.gpg"], None) /\
  (forall (comps : list string) (name : string),
     comps <> [] -> Forall (fun c => plain c = true) comps ->
     no_slash name = true -> name <> "" ->
     GoStrings.HasPrefix (hd "" comps) "." = false ->
     let it :=
       index_item NFKD (STORE no_env)
         (join_path comps +:+ "/" +:+ name +:+ ".gpg") in
     item_Path it = join_path comps /\ Domain it = List.last comps "" /\
     item_Username it = name) /\
  (forall (c : string) (comps : list string) (name : string),
     plain c = true -> Forall (fun c => plain c = true) comps ->
     no_slash name = true -> name <> "" ->
     let it :=
       index_item NFKD (STORE no_env)
         (join_path (("." +:+ c) :: comps) +:+ "/" +:+ name +:+ ".gpg") in
     item_Path it = join_path (c :: comps) /\
     Domain it = List.last (c :: comps) "" /\
     item_Username it = name).
Proof.
  split; [reflexivity|]. split; [reflexivity|]. split.
  - intros comps name Hne Hall Hns Hname Hdot.
    apply relative_item; try done.
    change (STORE no_env) with ".".
    unfold GoStrings.TrimPrefix.
    destruct comps as [|c cs]; [done|]. cbn [hd] in Hdot.
    inversion Hall as [|? ? Hc _]; subst.
    assert (Hhead : GoStrings.HasPrefix
                      (join_path (c :: cs) +:+ "/" +:+ name +:+ ".gpg") "." = false).
    { destruct cs as [|c2 cs'].
      - change (join_path [c]) with c.
        rewrite HasPrefix_head; [done|by apply plain_nonempty|done|done].
      - rewrite join_path_cons, sapp_assoc.
        rewrite HasPrefix_head; [done|by apply plain_nonempty|done|done]. }
    by rewrite Hhead.
  - intros c comps name Hc Hall Hns Hname it. subst it.
    change (STORE no_env) with ".".
    assert (Hall' : Forall (fun c => plain c = true) (c :: comps))
      by (by constructor).
    destruct (relative_names (c :: comps) name) as (Hb & Hd & Hl); try done.
    unfold index_item. cbn [item_Path Domain item_Username].
    rewrite join_path_dot, sapp_assoc, TrimPrefix_app.
    rewrite Hb, Hd, Hl. done.
Qed.
End DefaultStoreNames.

Lemma default_store_witness :
  let it := index_item NFKDLatin1.NFKD (STORE no_env)
              (join_path ["work"; "example.com"] +:+ "/" +:+ "alice" +:+ ".gpg") in
  item_Path it = join_path ["work"; "example.com"] /\
  Domain it = List.last ["work"; "example.com"] "" /\
  item_Username it = "alice".
Proof.
  apply (proj1 (proj2 (proj2 (default_store_names NFKDLatin1.NFKD)))
           ["work"; "example.com"] "alice").
  - discriminate.
  - repeat constructor.
  - reflexivity.
  - discriminate.
  - reflexivity.
Defined.

(** ** A recipients file without recipients *)

Lemma readIDs_nonempty (w : World) (store : string) :
  Forall (fun id => id <> "") (fst (fst (readIDs w store))).
Proof.
  assert (Hf : forall toks,
             Forall (fun id => id <> "")
               (List.filter (fun id => negb (String.eqb id "")) toks)).
  { intros toks. apply List.Forall_forall. intros id Hin.
    apply filter_In in Hin as [_ Hid]. apply negb_true_iff in Hid.
    by apply String.eqb_neq. }
  unfold readIDs, os_Open. io.
  destruct (Open w (GoPath.Join store ".gpg-id")) as [e|f]; simpl; [constructor|].
  destruct (GoBufio.Scanner_tokens f) as [toks [e|]]; simpl; apply Hf.
Qed.

Lemma blank_lines (ls : list (list ascii)) :
  Forall (fun l => l = [] \/ l = ["013"%char]) ls ->
  Forall GoBufio.short ls /\
  List.filter nonempty
    (map (fun l => string_of_list_ascii (GoBufio.dropCR l)) ls) = [].
Proof.
  induction 1 as [|l ls Hl _ [IH1 IH2]]; [by split|].
  split.
  - constructor; [|done]. by destruct Hl as [->| ->].
  - cbn [map List.filter]. by destruct Hl as [->| ->].
Qed.

Section BlankRecipients.
Variable NFKD : string -> string * nat * option error.
Variable Marshal : list item -> string * option error.

(** X12.  [readIDs] never returns an empty identifier.  A recipients
    file that holds no identifier (it is empty, or all its lines are
    empty) is not an error: [readIDs] returns no recipient, with the
    error of closing the file, and when the rest of the rebuild goes
    well gpg is run with the arguments [--encrypt --armor] and no
    recipient at all. *)
Theorem recipients_file_without_recipients (w : World) (v : SecretsResource) :
  Forall (fun id => id <> "") (fst (fst (readIDs w (store v)))) /\
  forall f,
    Open w (GoPath.Join (store v) ".gpg-id") = inr f ->
    readErr f = None -> blank (data f) ->
    fst (readIDs w (store v)) = ([], closeErr f) /\
    (closeErr f = None ->
     (forall name args stdin,
        In (EvExec name args stdin) (snd (Load NFKD Marshal w v)) ->
        args = ["--encrypt"; "--armor"]) /\
     (forall fns ix sm t js,
        GoFilepath.Walk (walkFn (store v)) (store v) (tree w) [] = (fns, None) ->
        load_secrets NFKD w (store v) fns [] ∅ = (inr (ix, sm), t) ->
        Marshal ix = (js, None) ->
        In (EvExec "gpg" ["--encrypt"; "--armor"] js)
           (snd (Load NFKD Marshal w v)))).
Proof.
  split; [apply readIDs_nonempty|].
  intros f HO Hr Hblank.
  destruct (blank_lines _ Hblank) as [Hshort Hnone].
  assert (HR : fst (readIDs w (store v)) = ([], closeErr f)).
  { unfold readIDs, os_Open. io. rewrite HO. simpl.
    unfold GoBufio.Scanner_tokens. rewrite Hr.
    destruct (scan_lines_short _ [] None Hshort) as [H1 H2].
    destruct (GoBufio.scan_lines _ _ _) as [toks e]. simpl in *. subst e.
    simpl. f_equal. rewrite <- Hnone. exact H1. }
  split; [exact HR|]. intros Hc. rewrite Hc in HR. split.
  - intros name args stdin Hin.
    destruct (Load_exec NFKD Marshal w v _ _ _ Hin) as [_ (ids & Hids & ->)].
    rewrite HR in Hids. by inversion Hids.
  - intros fns ix sm t js HW HL HM. unfold Load. io.
    rewrite HW. simpl. rewrite HL. simpl.
    pose proof (readIDs_trace w (store v)) as Ht.
    destruct (readIDs w (store v)) as [[ids oe] t2]. simpl in HR, Ht.
    inversion HR; subst ids oe t2. simpl. rewrite HM. simpl.
    unfold GoExec.Run, GoExec.Start. io.
    change (gpg_args []) with ["--encrypt"; "--armor"].
    destruct (run w "gpg" ["--encrypt"; "--armor"] js) as [e|out [e|]];
      simpl; right; apply in_or_app; right; simpl; auto.
Qed.
End BlankRecipients.

Lemma recipients_file_without_recipients_witness :
  let w := {| tree := Sample.sample_tree;
              Open := fun name =>
                if String.eqb name "/store/.gpg-id"
                then Sample.readable (Sample.nl +:+ String "013"%char Sample.nl)
                else Sample.sample_open name;
              run := Sample.sample_run |} in
  fst (readIDs w "/store") = ([], None) /\
  (@None error = None ->
   (forall name args stdin,
      In (EvExec name args stdin)
         (snd (Load NFKDLatin1.NFKD Sample.sample_Marshal w Sample.empty_resource)) ->
      args = ["--encrypt"; "--armor"]) /\
   (forall fns ix sm t js,
      GoFilepath.Walk (walkFn "/store") "/store" Sample.sample_tree [] = (fns, None) ->
      load_secrets NFKDLatin1.NFKD w "/store" fns [] ∅ = (inr (ix, sm), t) ->
      Sample.sample_Marshal ix = (js, None) ->
      In (EvExec "gpg" ["--encrypt"; "--armor"] js)
         (snd (Load NFKDLatin1.NFKD Sample.sample_Marshal w Sample.empty_resource)))).
Proof.
  apply (proj2 (recipients_file_without_recipients NFKDLatin1.NFKD
                  Sample.sample_Marshal
                  {| tree := Sample.sample_tree;
                     Open := fun name =>
                       if String.eqb name "/store/.gpg-id"
                       then Sample.readable (Sample.nl +:+ String "013"%char Sample.nl)
                       else Sample.sample_open name;
                     run := Sample.sample_run |}
                  Sample.empty_resource)
           {| data := Sample.nl +:+ String "013"%char Sample.nl;
              readErr := None; closeErr := None |}).
  - reflexivity.
  - reflexivity.
  - unfold blank. simpl.
    constructor; [by left|]. constructor; [by right|].
    constructor; [by left|constructor].
Defined.

(** * More of the code: the queries make progress *)

Module ProgressFacts.
Import Concurrent Progress ConcurrentFacts.

Lemma remaining_insert (pcs : list pc) (t : nat) (p q : pc) :
  pcs !! t = Some p ->
  (remaining (<[t := q]> pcs) + rank p = remaining pcs + rank q)%nat.
Proof.
  unfold remaining. revert t. induction pcs as [|x pcs IH]; intros [|t] H;
    simpl in *; try discriminate.
  - inversion H; subst. lia.
  - specialize (IH t H). lia.
Qed.

Lemma remaining_init (n : nat) : remaining (replicate n Start) = (17 * n)%nat.
Proof.
  unfold remaining. induction n as [|n IH]; [done|].
  simpl in *. lia.
Qed.

Lemma count_zero (P : pc -> bool) (pcs : list pc) :
  (forall p, In p pcs -> P p = false) -> count P pcs = 0%nat.
Proof.
  unfold count. induction pcs as [|x pcs IH]; intros H; [done|].
  simpl. rewrite (H x) by (by left). apply IH. intros p Hp. apply H. by right.
Qed.

Lemma existsb_lookup (P : pc -> bool) (pcs : list pc) :
  existsb P pcs = true -> exists t p, pcs !! t = Some p /\ P p = true.
Proof.
  induction pcs as [|x pcs IH]; simpl; [discriminate|].
  destruct (P x) eqn:Hx; simpl.
  - intros _. by exists 0%nat, x.
  - intros H. destruct (IH H) as (t & p & Ht & Hp). by exists (S t), p.
Qed.

Lemma existsb_none (P : pc -> bool) (pcs : list pc) :
  existsb P pcs = false -> forall p, In p pcs -> P p = false.
Proof.
  intros H p Hp. destruct (P p) eqn:E; [|done].
  assert (existsb P pcs = true) by (apply existsb_exists; eauto). congruence.
Qed.

Section Steps.
Variable outcome : nat -> stage -> bool.

(** Every step takes the goroutine nearer to its end. *)
Lemma step_rank (t : nat) (σ σ' : state) :
  step outcome t σ = Some σ' -> (remaining σ'.2 < remaining σ.2)%nat.
Proof.
  destruct σ as [s pcs]. unfold step.
  destruct (pcs !! t) as [p|] eqn:Hp; [|discriminate].
  destruct p; intros Hstep;
    repeat match type of Hstep with
           | context [if ?b then _ else _] => destruct b eqn:?
           end;
    simplify_eq; cbn [snd];
    match goal with
    | |- (remaining (<[t := ?q]> pcs) < _)%nat =>
        match type of Hp with
        | _ = Some ?p => pose proof (remaining_insert pcs t p q Hp) as Hr
        end
    end;
    repeat match goal with st : stage |- _ => destruct st end;
    cbn [rank next_stage] in *; lia.
Qed.

Lemma run_rank (sched : list nat) (σ σ' : state) :
  run outcome sched σ = Some σ' ->
  (length sched + remaining σ'.2 <= remaining σ.2)%nat.
Proof.
  revert σ. induction sched as [|t sched IH]; intros σ; simpl.
  - intros H; inversion H; subst; lia.
  - destruct (step outcome t σ) as [σ1|] eqn:Hs; [|discriminate].
    intros H. specialize (IH _ H). apply step_rank in Hs. lia.
Qed.

(** A goroutine that is not at an acquisition takes its step. *)
Lemma runs_step (t : nat) (σ : state) (p : pc) :
  σ.2 !! t = Some p -> runs p = true -> is_Some (step outcome t σ).
Proof.
  destruct σ as [s pcs]. simpl. intros Hp Hr. unfold step. rewrite Hp.
  destruct p; try discriminate; try (by eexists).
  by destruct (sh_loaded s); eexists.
Qed.

(** When nobody holds the mutex, every goroutine that is not through
    takes its step. *)
Lemma free_step (t : nat) (σ : state) (p : pc) :
  σ.2 !! t = Some p -> finished p = false ->
  readers σ.1 = 0%nat -> writer σ.1 = false ->
  is_Some (step outcome t σ).
Proof.
  destruct σ as [s pcs]. simpl. intros Hp Hf Hrd Hw. unfold step.
  rewrite Hp, Hw, Hrd.
  destruct p; try discriminate; try (by eexists).
  by destruct (sh_loaded s); eexists.
Qed.

(** In a state of the protocol: a goroutine can run, or nobody holds
    the mutex. *)
Lemma Inv_free (σ : state) :
  Inv σ ->
  (exists t p, σ.2 !! t = Some p /\ runs p = true) \/
  (readers σ.1 = 0%nat /\ writer σ.1 = false).
Proof.
  intros [Hr Hw _ _ _ _ _ _ _].
  destruct (existsb runs σ.2) eqn:E.
  - left. by apply existsb_lookup.
  - right. pose proof (existsb_none _ _ E) as Hnone.
    rewrite (count_zero holds_rlock) in Hr.
    2: { intros p Hp. specialize (Hnone p Hp). by destruct p. }
    rewrite (count_zero holds_lock) in Hw.
    2: { intros p Hp. specialize (Hnone p Hp). by destruct p. }
    split; [done|]. by destruct (writer σ.1).
Qed.
End Steps.
End ProgressFacts.

(** X13.  The queries cannot block each other for good, and each ends.
    In every state that [n] queries reach: as long as a query is not
    answered, either some goroutine is at a statement that does not wait
    for the mutex, or nobody holds the mutex; so some goroutine can take a
    step.  ([ensureLoaded] gives the read lock back before [Load] asks for
    the write lock, and takes it again only after [Load] released that.)
    A goroutine takes at most 17 steps, so every schedule has at most
    [17 * n] steps, and a state in which no goroutine can take a step is
    one in which every query is answered. *)
Theorem every_query_is_answered
    (outcome : nat -> Concurrent.stage -> bool) (n : nat) (sched : list nat)
    (σ : Concurrent.state) :
  Concurrent.run outcome sched (Concurrent.init n) = Some σ ->
  (length sched + Progress.remaining σ.2 <= 17 * n)%nat /\
  ((exists t p, σ.2 !! t = Some p /\ Progress.finished p = false) ->
   ((exists t p, σ.2 !! t = Some p /\ Progress.runs p = true) \/
    (Concurrent.readers σ.1 = 0%nat /\ Concurrent.writer σ.1 = false)) /\
   exists t, is_Some (Concurrent.step outcome t σ)) /\
  ((forall t, Concurrent.step outcome t σ = None) ->
   forall t p, σ.2 !! t = Some p -> Progress.finished p = true).
Proof.
  intros Hrun.
  destruct (ConcurrentFacts.reachable_Inv outcome n sched σ Hrun) as [HI Hlen].
  pose proof (ProgressFacts.run_rank outcome sched _ _ Hrun) as Hrank.
  cbn [Concurrent.init snd] in Hrank. rewrite ProgressFacts.remaining_init in Hrank.
  assert (Hlive : (exists t p, σ.2 !! t = Some p /\ Progress.finished p = false) ->
                  exists t, is_Some (Concurrent.step outcome t σ)).
  { intros (t & p & Hp & Hf).
    destruct (ProgressFacts.Inv_free σ HI) as [(u & q & Hq & Hr)|[Hrd Hw]].
    - exists u. by apply (ProgressFacts.runs_step outcome u σ q).
    - exists t. by apply (ProgressFacts.free_step outcome t σ p). }
  split; [exact Hrank|]. split.
  - intros Hex. split; [by apply ProgressFacts.Inv_free|by apply Hlive].
  - intros Hstuck t p Hp.
    destruct (Progress.finished p) eqn:Hf; [done|].
    destruct Hlive as [u [σ' Hu]]; [by exists t, p|].
    by rewrite Hstuck in Hu.
Qed.

Lemma every_query_is_answered_witness :
  exists σ,
    Concurrent.run Concurrent.outcome_go Concurrent.in_turn (Concurrent.init 2)
    = Some σ /\
    (length Concurrent.in_turn + Progress.remaining σ.2 <= 17 * 2)%nat /\
    ((exists t p, σ.2 !! t = Some p /\ Progress.finished p = false) ->
     ((exists t p, σ.2 !! t = Some p /\ Progress.runs p = true) \/
      (Concurrent.readers σ.1 = 0%nat /\ Concurrent.writer σ.1 = false)) /\
     exists t, is_Some (Concurrent.step Concurrent.outcome_go t σ)) /\
    ((forall t, Concurrent.step Concurrent.outcome_go t σ = None) ->
     forall t p, σ.2 !! t = Some p -> Progress.finished p = true).
Proof.
  eexists. split; [vm_compute; reflexivity|].
  apply (every_query_is_answered Concurrent.outcome_go 2 Concurrent.in_turn).
  vm_compute; reflexivity.
Defined.

(** * More of the code: what a query answers *)

Module InstalledFacts.
Import Concurrent Progress ConcurrentFacts.

Lemma Installed_init (outcome : nat -> stage -> bool) (n : nat) :
  Installed outcome (init n).
Proof.
  unfold init. constructor; simpl; try done.
  - intros t p st H. apply lookup_replicate in H as [-> _]. done.
  - intros t p H. apply lookup_replicate in H as [-> _]. done.
  - intros t p H. apply lookup_replicate in H as [-> _]. done.
  - intros t p H. apply lookup_replicate in H as [-> _]. done.
  - intros t ig sg [H|H]; apply lookup_replicate in H as [? _]; discriminate.
Qed.

Section Steps.
Variable outcome : nat -> stage -> bool.

Lemma step_Installed (t : nat) (σ σ' : state) :
  Installed outcome σ -> step outcome t σ = Some σ' -> Installed outcome σ'.
Proof.
  destruct σ as [s pcs].
  intros [Hpa Hix Hsec Hixs Hsecs Hl Hsees Hseen]. simpl in *.
  unfold step. destruct (pcs !! t) as [p|] eqn:Hp; [|discriminate].
  pose proof (lookup_lt_Some _ _ _ Hp) as Hlt.
  destruct p; intros Hstep;
    repeat match type of Hstep with
           | context [if ?b then _ else _] => destruct b eqn:?
           end;
    simplify_eq;
    constructor; simpl; rewrite ?length_insert; intros; lookups;
    try discriminate; eauto.
  all: repeat match goal with st : stage |- _ => destruct st end;
    simpl in *; try discriminate; eauto.
  all: try (eapply Hpa; [eassumption|reflexivity]).
  - split; [done|]. by apply Hl.
  - pose proof (Hsees _ _ Hp eq_refl) as Hld. destruct (Hl Hld).
    split; [done|]. split; [done|]. exact Hix.
Qed.

Lemma run_Installed (sched : list nat) (σ σ' : state) :
  Installed outcome σ -> run outcome sched σ = Some σ' -> Installed outcome σ'.
Proof.
  revert σ. induction sched as [|t sched IH]; intros σ HI; simpl.
  - intros H; inversion H; subst; exact HI.
  - destruct (step outcome t σ) as [σ1|] eqn:Hs; [|discriminate].
    apply IH. eapply step_Installed; eauto.
Qed.
End Steps.
End InstalledFacts.

(** X14.  What a query answers with status 200 was installed by a
    rebuild that went well.  Whatever the stages of the rebuilds do and
    however the queries are scheduled: a query that ends with an answer
    made from the fields has read an [index] and a map of secrets that are
    both set, by the [Load] of one goroutine, and every stage of that
    [Load] succeeded; the zero values of a resource that is not loaded and
    the results of a rebuild that failed are never answered.  Hence, when
    the second wait fails in every goroutine, as it does, every query ends
    with status 500. *)
Theorem answers_come_from_a_rebuild_that_went_well
    (outcome : nat -> Concurrent.stage -> bool) (n : nat) (sched : list nat)
    (σ : Concurrent.state) :
  Concurrent.run outcome sched (Concurrent.init n) = Some σ ->
  (forall t ig sg,
     σ.2 !! t = Some (Concurrent.Done (Concurrent.Observed ig sg)) ->
     exists g, ig = Some g /\ sg = Some g /\ (g < n)%nat /\
               forall st, outcome g st = true) /\
  ((forall g, outcome g Concurrent.SWait = false) ->
   forall t r, σ.2 !! t = Some (Concurrent.Done r) -> r = Concurrent.Unavailable).
Proof.
  intros Hrun.
  destruct (ConcurrentFacts.reachable_Inv outcome n sched σ Hrun) as [HI Hlen].
  pose proof (InstalledFacts.run_Installed outcome sched _ _
                (InstalledFacts.Installed_init outcome n) Hrun) as HJ.
  assert (Hobs : forall t ig sg,
             σ.2 !! t = Some (Concurrent.Done (Concurrent.Observed ig sg)) ->
             exists g, ig = Some g /\ sg = Some g /\ (g < n)%nat /\
                       forall st, outcome g st = true).
  { intros t ig sg Ht.
    pose proof (Concurrent.inv_seen σ HI t ig sg (or_intror Ht)) as Heq.
    destruct (Progress.ins_seen outcome σ HJ t ig sg (or_intror Ht))
      as (Hig & _ & Hg).
    destruct ig as [g|]; [|discriminate].
    destruct (Hg g eq_refl) as [Hlt Hall].
    exists g. subst sg. rewrite <- Hlen. auto. }
  split; [exact Hobs|].
  intros Hwait t r Ht. destruct r as [|ig sg]; [done|].
  destruct (Hobs t ig sg Ht) as (g & _ & _ & _ & Hall).
  specialize (Hall Concurrent.SWait). by rewrite Hwait in Hall.
Qed.

Lemma answers_witness :
  exists σ,
    Concurrent.run Concurrent.outcome_all Concurrent.alone (Concurrent.init 1)
    = Some σ /\
    σ.2 !! 0%nat
    = Some (Concurrent.Done (Concurrent.Observed (Some 0%nat) (Some 0%nat))) /\
    (forall t ig sg,
       σ.2 !! t = Some (Concurrent.Done (Concurrent.Observed ig sg)) ->
       exists g, ig = Some g /\ sg = Some g /\ (g < 1)%nat /\
                 forall st, Concurrent.outcome_all g st = true) /\
    ((forall g, Concurrent.outcome_all g Concurrent.SWait = false) ->
     forall t r, σ.2 !! t = Some (Concurrent.Done r) -> r = Concurrent.Unavailable).
Proof.
  eexists. split; [vm_compute; reflexivity|]. split; [reflexivity|].
  apply (answers_come_from_a_rebuild_that_went_well Concurrent.outcome_all 1
           Concurrent.alone).
  vm_compute; reflexivity.
Defined.

(** * More of the code: queries against a loaded resource *)

Module CachedFacts.
Import Concurrent Progress ConcurrentFacts.

Lemma Cached_init (n g : nat) : Cached g (init_loaded n g).
Proof.
  unfold init_loaded. constructor; simpl; try done.
  intros t p H. apply lookup_replicate in H as [-> _]. done.
Qed.

Section Steps.
Variable outcome : nat -> stage -> bool.

Lemma step_Cached (g t : nat) (σ σ' : state) :
  Cached g σ -> step outcome t σ = Some σ' -> Cached g σ'.
Proof.
  destruct σ as [s pcs]. intros [Hw Hl Hi Hs Hwk Hex Hpcs]. simpl in *.
  unfold step. destruct (pcs !! t) as [p|] eqn:Hp; [|discriminate].
  pose proof (Hpcs t p Hp) as Hhit. rewrite Hw, Hl.
  destruct p as [| | | | | | | | |err|err|r|r]; try discriminate;
    try destruct err; try discriminate;
    intros Hstep; simplify_eq;
    constructor; simpl; try done; intros; lookups; eauto.
  rewrite Hi, Hs. simpl. by rewrite !Nat.eqb_refl.
Qed.

Lemma run_Cached (g : nat) (sched : list nat) (σ σ' : state) :
  Cached g σ -> run outcome sched σ = Some σ' -> Cached g σ'.
Proof.
  revert σ. induction sched as [|t sched IH]; intros σ HI; simpl.
  - intros H; inversion H; subst; exact HI.
  - destruct (step outcome t σ) as [σ1|] eqn:Hs; [|discriminate].
    apply IH. eapply step_Cached; eauto.
Qed.

(** No query against the loaded resource has to wait. *)
Lemma Cached_step (g t : nat) (σ : state) (p : pc) :
  Cached g σ -> σ.2 !! t = Some p -> finished p = false ->
  is_Some (step outcome t σ).
Proof.
  destruct σ as [s pcs]. intros [Hw Hl _ _ _ _ Hpcs] Hp Hf. simpl in *.
  pose proof (Hpcs t p Hp) as Hhit.
  unfold step. rewrite Hp, Hw, Hl.
  destruct p as [| | | | | | | | |err|err|r|r]; try discriminate;
    by eexists.
Qed.
End Steps.
End CachedFacts.

(** X15.  A loaded resource serves any number of concurrent queries from
    its fields.  However the [n] queries are scheduled, no walk is made
    and no command is run, nobody takes the write lock, the fields stay as
    they are, a query never has to wait for another one, and every query
    that has ended has answered from the [index] and the secrets of the
    snapshot that was loaded. *)
Theorem loaded_resource_serves_concurrent_queries
    (outcome : nat -> Concurrent.stage -> bool) (n g : nat) (sched : list nat)
    (σ : Concurrent.state) :
  Concurrent.run outcome sched (Progress.init_loaded n g) = Some σ ->
  Concurrent.walks σ.1 = 0%nat /\ Concurrent.execs σ.1 = 0%nat /\
  Concurrent.writer σ.1 = false /\ Concurrent.sh_loaded σ.1 = true /\
  Concurrent.sh_index σ.1 = Some g /\ Concurrent.sh_secrets σ.1 = Some g /\
  (forall t p, σ.2 !! t = Some p -> Progress.finished p = false ->
     is_Some (Concurrent.step outcome t σ)) /\
  (forall t r, σ.2 !! t = Some (Concurrent.Done r) ->
     r = Concurrent.Observed (Some g) (Some g)).
Proof.
  intros Hrun.
  pose proof (CachedFacts.run_Cached outcome g sched _ _
                (CachedFacts.Cached_init n g) Hrun) as HC.
  pose proof HC as [Hw Hl Hi Hs Hwk Hex Hpcs].
  repeat (split; [done|]). split.
  - intros t p Hp Hf. by apply (CachedFacts.Cached_step outcome g t σ p).
  - intros t r Ht. specialize (Hpcs _ _ Ht). simpl in Hpcs.
    destruct r as [|[i|] [s|]]; try discriminate.
    apply andb_true_iff in Hpcs as [H1 H2].
    apply Nat.eqb_eq in H1, H2. by subst.
Qed.

Lemma loaded_resource_queries_witness :
  exists σ,
    Concurrent.run Concurrent.outcome_go [0; 1; 1; 0; 0; 1; 1; 0]%nat
      (Progress.init_loaded 2 7) = Some σ /\
    σ.2 = [Concurrent.Done (Concurrent.Observed (Some 7%nat) (Some 7%nat));
           Concurrent.Done (Concurrent.Observed (Some 7%nat) (Some 7%nat))] /\
    Concurrent.walks σ.1 = 0%nat /\ Concurrent.execs σ.1 = 0%nat /\
    Concurrent.writer σ.1 = false /\ Concurrent.sh_loaded σ.1 = true /\
    Concurrent.sh_index σ.1 = Some 7%nat /\ Concurrent.sh_secrets σ.1 = Some 7%nat /\
    (forall t p, σ.2 !! t = Some p -> Progress.finished p = false ->
       is_Some (Concurrent.step Concurrent.outcome_go t σ)) /\
    (forall t r, σ.2 !! t = Some (Concurrent.Done r) ->
       r = Concurrent.Observed (Some 7%nat) (Some 7%nat)).
Proof.
  eexists. split; [vm_compute; reflexivity|]. split; [reflexivity|].
  apply (loaded_resource_serves_concurrent_queries Concurrent.outcome_go 2 7
           [0; 1; 1; 0; 0; 1; 1; 0]%nat).
  vm_compute; reflexivity.
Defined.

(** * More of the code: what is listed can be shown *)

Module ListedFacts.
Import GoFilepath StoreTree StringFacts PathFacts RootedFacts MatchFacts WalkFacts.

Section Store.
Variable comps : list string.
Hypothesis comps_ne : comps <> [].

Lemma secret_files_form (n : node) :
  forall ds,
    walkable n = true -> Forall (fun c => plain c = true) ds ->
    (node_is_dir n = false -> exists ds', ds = ds' ++ [node_name n]) ->
    Forall (secret_file_of comps)
      (secret_files (length ds) (store_path (comps ++ ds)) n).
Proof.
  induction n as [name|name e|name e entries IH] using node_induction;
    intros ds Hw Hds Hfile; [|done|].
  - cbn [secret_files]. destruct (Hfile eq_refl) as [ds' ->].
    cbn [node_name] in *. rewrite length_app. cbn [length].
    destruct ds' as [|d ds''].
    { replace (0 + 1 =? 1)%nat with true by done. constructor. }
    replace (length (d :: ds'') + 1 =? 1)%nat with false
      by (symmetry; apply Nat.eqb_neq; simpl; lia).
    destruct (GoStrings.HasSuffix name ".gpg") eqn:Hsuf; [|constructor].
    constructor; [|constructor].
    apply Forall_app in Hds as [Hd Hn]. inversion Hn; subst.
    by exists (d :: ds''), name.
  - cbn [secret_files]. cbn [walkable] in Hw.
    destruct (String.eqb name ".git") eqn:Hgit; [constructor|].
    cbn [orb] in Hw. apply andb_true_iff in Hw as [_ Hall].
    clear Hfile. induction IH as [|c l Hc _ IHl]; [constructor|].
    cbn [forallb] in Hall. apply andb_true_iff in Hall as [Hcw Hall].
    apply andb_true_iff in Hcw as [Hcn Hcw].
    cbn [flat_map]. apply Forall_app. split; [|by apply IHl].
    specialize (Hc (ds ++ [node_name c]) Hcw).
    rewrite length_app, Nat.add_1_r in Hc.
    rewrite (app_assoc comps ds), store_path_snoc, sapp_assoc in Hc
      by (by destruct comps).
    apply Hc; [apply Forall_app; split; [done|by constructor]|].
    intros _. by exists ds.
Qed.
End Store.
End ListedFacts.

Section Listed.
Variable NFKD : string -> string * nat * option error.
Variable Marshal : list item -> string * option error.
Import StringFacts PathFacts RootedFacts.

(** The item of a secret file of the store has a path and a username
    that are not empty. *)
Lemma secret_file_item (comps : list string) (f : string) :
  comps <> [] -> StoreTree.secret_file_of comps f ->
  item_Path (index_item NFKD (store_path comps) f) <> "" /\
  item_Username (index_item NFKD (store_path comps) f) <> "".
Proof.
  intros Hne (dirs & name & Hdirs & Hall & Hname & Hsuf & ->).
  apply MatchFacts.HasSuffix_spec in Hsuf as [stem ->].
  pose proof (plain_no_slash _ Hname) as Hns.
  rewrite no_slash_app in Hns. apply andb_true_iff in Hns as [Hstem _].
  assert (Hf : store_path (comps ++ dirs ++ [stem +:+ ".gpg"])
               = store_path comps +:+ "/" +:+ join_path dirs +:+ "/"
                 +:+ stem +:+ ".gpg").
  { unfold store_path. rewrite join_path_app by (try done; by destruct dirs).
    rewrite join_path_snoc by done. by rewrite !sapp_assoc. }
  rewrite Hf.
  destruct (index_item_components NFKD (store_path comps) dirs stem
              Hdirs Hall Hstem) as (Hp & _ & Hu).
  rewrite Hp, Hu.
  pose proof (Forall_last dirs Hall Hdirs) as Hl.
  destruct (join_path_last dirs Hdirs) as (dir & Hj & _).
  split.
  - rewrite Hj. intros H. apply (f_equal String.length) in H.
    rewrite length_sapp in H.
    apply plain_nonempty in Hl. destruct (List.last dirs ""); [done|].
    simpl in H. lia.
  - destruct (String.eqb stem "") eqn:E.
    + by apply plain_nonempty.
    + by apply String.eqb_neq.
Qed.

(** X16.  What the index lists can be shown.  For a store at a rooted
    path of plain names whose tree is a directory that can be walked to
    its end: when the loop of [Load] has read the files of the walk, every
    item of the index has a path and a username that are not empty, so
    that [Show] accepts them, and the resource that holds the map of the
    loop answers the request for this path and username with status 200
    and a text of the map. *)
Theorem listed_secrets_can_be_shown
    (comps : list string) (w w' : World) (fns : list string) (ix : list item)
    (sm : gmap secretName string) (t : list event) (index_text : string)
    (it : item) :
  comps <> [] -> Forall (fun c => plain c = true) comps ->
  StoreTree.walkable (tree w) = true ->
  GoFilepath.node_is_dir (tree w) = true ->
  no_slash (GoFilepath.node_name (tree w)) = true ->
  GoFilepath.Walk (walkFn (store_path comps)) (store_path comps) (tree w) []
  = (fns, None) ->
  load_secrets NFKD w (store_path comps) fns [] ∅ = (inr (ix, sm), t) ->
  In it ix ->
  let v := {| store := store_path comps; loaded := true; index := index_text;
              secrets := sm |} in
  item_Path it <> "" /\ item_Username it <> "" /\
  exists text,
    sm !! item_name it = Some text /\
    Show NFKD Marshal w' (inr (item_name it)) v
    = (((StatusOK, ResponseBody text), v), []).
Proof.
  intros Hne Hall Hw Hdir Hname HW HL Hin v.
  unfold GoFilepath.Walk in HW.
  destruct (WalkFacts.lstat_walk_walkable comps Hne Hall (tree w) [] [] Hw
              (List.Forall_nil _) Hname) as (r & Hwalk & Hq).
  rewrite app_nil_r in Hwalk. rewrite Hwalk in HW.
  cbn [app length] in HW.
  assert (Hfns : StoreTree.secret_files 0 (store_path comps) (tree w) = fns)
    by (destruct Hq as [->|[-> _]]; by inversion HW).
  pose proof (ListedFacts.secret_files_form comps Hne (tree w) [] Hw
                (List.Forall_nil _)) as Hform.
  rewrite app_nil_r in Hform. cbn [length] in Hform. rewrite Hfns in Hform.
  specialize (Hform ltac:(intros H; by rewrite Hdir in H)).
  destruct (load_secrets_keys NFKD w _ _ _ _ _ HL) as [Hix Hkeys].
  subst ix. apply in_map_iff in Hin as (f & <- & Hf).
  rewrite List.Forall_forall in Hform.
  destruct (secret_file_item comps f Hne (Hform f Hf)) as [Hp Hu].
  split; [exact Hp|]. split; [exact Hu|].
  assert (Hsome : is_Some (sm !! item_name (index_item NFKD (store_path comps) f))).
  { apply Hkeys. apply in_map_iff. exists (index_item NFKD (store_path comps) f).
    split; [done|]. apply in_map_iff. eauto. }
  destruct Hsome as [text Htext]. exists text. split; [exact Htext|].
  unfold Show, ensureLoaded. cbn [item_name Path Username].
  apply String.eqb_neq in Hp, Hu. rewrite Hp, Hu. subst v. cbn [loaded negb].
  unfold bind, ret. cbn [secrets]. by rewrite Htext.
Qed.
End Listed.

Lemma listed_secrets_witness :
  let v := {| store := store_path ["store"]; loaded := true;
              index := "encrypted index"; secrets := Sample.sample_secrets |} in
  let it := index_item NFKDLatin1.NFKD "/store" "/store/work/example.com/alice.gpg" in
  item_Path it <> "" /\ item_Username it <> "" /\
  exists text,
    Sample.sample_secrets !! item_name it = Some text /\
    Show NFKDLatin1.NFKD Sample.sample_Marshal Sample.broken_world
      (inr (item_name it)) v
    = (((StatusOK, ResponseBody text), v), []).
Proof.
  apply (listed_secrets_can_be_shown NFKDLatin1.NFKD Sample.sample_Marshal
           ["store"] Sample.sample_world Sample.broken_world Sample.sample_files
           (map (index_item NFKDLatin1.NFKD "/store") Sample.sample_files)
           Sample.sample_secrets
           [EvOpen "/store/example.com/alice.gpg";
            EvOpen "/store/work/example.com/alice.gpg"]
           "encrypted index"
           (index_item NFKDLatin1.NFKD "/store" "/store/work/example.com/alice.gpg")).
  - discriminate.
  - repeat constructor.
  - reflexivity.
  - reflexivity.
  - reflexivity.
  - reflexivity.
  - vm_compute; reflexivity.
  - right. left. reflexivity.
Defined.

(** * More of the code: the application *)

(** X17.  [stripSlash] hands the request to the handler with the path
    [/secret] for [/secret/] and [/secrets] for [/secrets/], that is
    without the slash at its end, and with the path it has in every other
    case; the method and the body are untouched.  The path the handler sees
    is never one of the two with the slash, and stripping twice is
    stripping once. *)
Theorem stripSlash_strips_the_two_paths {A : Type} (h : Request -> A) (r : Request) :
  let path := URL_Path r in
  let stripped :=
    if String.eqb path "/secret/" || String.eqb path "/secrets/"
    then GoStrings.TrimSuffix path "/" else path in
  stripSlash h r = h (set_URL_Path r stripped) /\
  stripped <> "/secret/" /\ stripped <> "/secrets/" /\
  stripSlash (stripSlash h) r = stripSlash h r.
Proof.
  destruct r as [m p b]. cbn [URL_Path]. unfold stripSlash, set_URL_Path.
  cbn [URL_Path Method Body].
  destruct (String.eqb p "/secret/") eqn:E1.
  { apply String.eqb_eq in E1. subst p. repeat split; done. }
  cbn [URL_Path orb].
  destruct (String.eqb p "/secrets/") eqn:E2.
  { apply String.eqb_eq in E2. subst p. repeat split; done. }
  cbn [URL_Path]. rewrite E1. cbn [URL_Path]. rewrite E2.
  apply String.eqb_neq in E1, E2. done.
Qed.

(** * More of the code: a walk that fails *)

Module WalkErrorFacts.
Import GoFilepath StoreTree WalkFacts.

Lemma walkFn_file (store path name : string) (st : list string) :
  snd (walkFn store path (Visit {| Name := name; IsDir := false |}) st) = WNil.
Proof.
  unfold walkFn. cbn [IsDir Name andb].
  destruct (String.eqb (Dir path) store); [done|].
  by destruct (Match_star ".gpg" name).
Qed.

(** The walk ends with the first error of the tree, or without one. *)
Lemma lstat_walk_error (store : string) (n : node) :
  forall path st,
    match walk_error n with
    | Some e => snd (lstat_walk (walkFn store) path n st) = WErr e
    | None => quiet n (snd (lstat_walk (walkFn store) path n st))
    end.
Proof.
  induction n as [name|name e|name e entries IH] using node_induction;
    intros path st.
  - cbn [lstat_walk walk_error]. left. apply walkFn_file.
  - reflexivity.
  - cbn [lstat_walk walk_error].
    destruct e as [err|]; [done|]. rewrite walkFn_dir.
    destruct (String.eqb name ".git") eqn:Hgit; [by right|].
    revert st. induction IH as [|c l Hc _ IHl]; intros st; [by left|].
    cbn [fold_right]. specialize (Hc (Join path (node_name c)) st).
    destruct (lstat_walk (walkFn store) (Join path (node_name c)) c st)
      as [st' r].
    cbn [snd] in Hc.
    destruct (walk_error c) as [err|].
    + subst r. by destruct c.
    + specialize (IHl st').
      destruct Hc as [->|[-> Hd]]; destruct c; try discriminate; exact IHl.
Qed.
End WalkErrorFacts.

Section WalkFails.
Variable NFKD : string -> string * nat * option error.
Variable Marshal : list item -> string * option error.

(** X18.  The walk of [Load] fails exactly when the tree has an entry
    that cannot be examined or a directory that cannot be read, on the
    way of the walk, and the error is the first of them in the order of
    the walk, for every tree, store and root.  A directory named [.git]
    that cannot be read is such an error (the walk reads a directory
    before the walk function sees its name); what it holds is not on the
    way.  [Load] then returns the error as [issue while discovering
    secrets], after the walk and nothing else: no file is opened and no
    command is run.  When there is no such error [Load] goes on and
    opens a file. *)
Theorem walk_fails_with_the_first_error (w : World) (v : SecretsResource) :
  (forall store root st,
     snd (GoFilepath.Walk (walkFn store) root (tree w) st)
     = StoreTree.walk_error (tree w)) /\
  (forall e, StoreTree.walk_error (tree w) = Some e ->
     Load NFKD Marshal w v
     = ((Some (Wrap e "issue while discovering secrets"), v),
        [EvWalk (store v)])) /\
  (StoreTree.walk_error (tree w) = None ->
   exists name t,
     snd (Load NFKD Marshal w v) = EvWalk (store v) :: EvOpen name :: t).
Proof.
  assert (HW : forall store root st,
             snd (GoFilepath.Walk (walkFn store) root (tree w) st)
             = StoreTree.walk_error (tree w)).
  { intros store root st. unfold GoFilepath.Walk.
    pose proof (WalkErrorFacts.lstat_walk_error store (tree w) root st) as H.
    destruct (GoFilepath.lstat_walk (walkFn store) root (tree w) st) as [st' r].
    cbn [snd] in *.
    destruct (StoreTree.walk_error (tree w)); [by subst r|].
    by destruct H as [->|[-> _]]. }
  split; [exact HW|]. split.
  - intros e He. unfold Load. io.
    specialize (HW (store v) (store v) []). rewrite He in HW.
    destruct (GoFilepath.Walk _ _ _ _) as [fns oe]. cbn [snd] in HW.
    by subst oe.
  - intros Hnone. unfold Load. io.
    specialize (HW (store v) (store v) []). rewrite Hnone in HW.
    destruct (GoFilepath.Walk _ _ _ _) as [fns oe]. cbn [snd] in HW. subst oe.
    cbn iota.
    destruct (load_secrets_shape NFKD w (store v) fns [] ∅)
      as [(_ & ix & sm & HL)|(pre & f & post & e' & Hfns & _ & _ & HL)];
      rewrite HL; simpl.
    + pose proof (readIDs_trace w (store v)) as Hrt.
      destruct (readIDs w (store v)) as [[ids oe] t2]. simpl in Hrt. subst t2.
      assert (Hopen : forall rest,
                 exists name t,
                   map EvOpen fns ++ EvOpen (GoPath.Join (store v) ".gpg-id") :: rest
                   = EvOpen name :: t).
      { intros rest. destruct fns as [|f fns']; simpl; eauto. }
      destruct oe as [?|]; simpl.
      { destruct (Hopen []) as (name & t & ->). eauto. }
      destruct (Marshal ix) as [js [?|]]; simpl.
      { destruct (Hopen []) as (name & t & ->). eauto. }
      destruct (GoExec.Run _ _) as [[c oe] t3]. simpl.
      destruct oe as [?|]; simpl.
      { destruct (Hopen (t3 ++ [])) as (name & t & ->). eauto. }
      destruct (GoExec.Wait c) as [c2 [?|]]; simpl;
        destruct (Hopen (t3 ++ [])) as (name & t & ->); eauto.
    + rewrite app_nil_r. destruct pre as [|g pre']; simpl; eauto.
Qed.
End WalkFails.

Lemma walk_fails_witness :
  Load NFKDLatin1.NFKD Sample.sample_Marshal UnreadableGit.git_world
    Sample.empty_resource
  = ((Some (Wrap "open /store/.git: permission denied"
              "issue while discovering secrets"), Sample.empty_resource),
     [EvWalk (store Sample.empty_resource)]).
Proof.
  apply (proj1 (proj2 (walk_fails_with_the_first_error NFKDLatin1.NFKD
                         Sample.sample_Marshal UnreadableGit.git_world
                         Sample.empty_resource))).
  reflexivity.
Defined.

(** * More of the code: the texts of the map *)

Section MapValues.
Variable NFKD : string -> string * nat * option error.

(** The text that the loop leaves in the map for a name: the one the
    map had, when no file has the name, or else the armor of the last
    file with the name. *)
Lemma load_secrets_values (w : World) (store : string) (fns : list string) :
  forall ix sm ix' sm' t name text,
    load_secrets NFKD w store fns ix sm = (inr (ix', sm'), t) ->
    sm' !! name = Some text ->
    (sm !! name = Some text /\
     Forall (fun g => item_name (index_item NFKD store g) <> name) fns) \/
    exists pre f post fl,
      fns = pre ++ f :: post /\
      item_name (index_item NFKD store f) = name /\
      Forall (fun g => item_name (index_item NFKD store g) <> name) post /\
      Open w f = inr fl /\ readErr fl = None /\
      text = string_of_list_ascii
               (GoArmor.Encode "PGP MESSAGE" (list_ascii_of_string (data fl))).
Proof.
  induction fns as [|f fns IH]; intros ix sm ix' sm' t name text HL Hname.
  - simpl in HL. unfold ret in HL. inversion HL; subst. left. by split.
  - cbn [load_secrets] in HL. unfold bind in HL.
    pose proof (readSecret_result w f) as HR.
    destruct (readSecret w f) as [[e|armored] t1]; cbn [fst] in HR;
      [discriminate|].
    destruct (load_secrets NFKD w store fns _ _) as [r t2] eqn:HL'.
    inversion HL; subst r t. clear HL.
    destruct (IH _ _ _ _ _ name text HL' Hname)
      as [[Hsm Hnone]|(pre & g & post & fl & -> & Hg & Hpost & HO & Hr & ->)].
    + destruct (decide (item_name (index_item NFKD store f) = name)) as [Heq|Hne].
      * right. rewrite Heq, lookup_insert_eq in Hsm.
        destruct (Open w f) as [e|fl] eqn:HO; [discriminate|].
        unfold enarmor in HR. destruct (readErr fl) eqn:Hr; [discriminate|].
        exists [], f, fns, fl. repeat (split; [done|]). congruence.
      * left. rewrite lookup_insert_ne in Hsm by done. split; [done|].
        by constructor.
    + right. exists (f :: pre), g, post, fl. by repeat split.
Qed.

(** X19.  The text of a secret.  When the loop of [Load] over the file
    names has ended without an error, the text that its map holds for a
    name, which is what [Show] returns for that name once the map is
    installed, is the armor of a file that was read to its end and whose
    item has this name: the last such file in the order of the walk,
    when several have it.  From the text the bytes of that file are got
    back by decoding the armor. *)
Theorem shown_text_is_the_armored_file
    (w : World) (store : string) (fns : list string) (ix : list item)
    (sm : gmap secretName string) (t : list event) (name : secretName)
    (text : string) :
  load_secrets NFKD w store fns [] ∅ = (inr (ix, sm), t) ->
  sm !! name = Some text ->
  exists pre f post fl,
    fns = pre ++ f :: post /\
    item_name (index_item NFKD store f) = name /\
    Forall (fun g => item_name (index_item NFKD store g) <> name) post /\
    Open w f = inr fl /\ readErr fl = None /\
    text = string_of_list_ascii
             (GoArmor.Encode "PGP MESSAGE" (list_ascii_of_string (data fl))) /\
    option_map string_of_list_ascii
      (GoArmor.Decode "PGP MESSAGE" (list_ascii_of_string text))
    = Some (data fl).
Proof.
  intros HL Hname.
  destruct (load_secrets_values w store fns _ _ _ _ _ _ _ HL Hname)
    as [[Hsm _]|(pre & f & post & fl & Hfns & Hf & Hpost & HO & Hr & Htext)].
  { by rewrite lookup_empty in Hsm. }
  exists pre, f, post, fl. repeat (split; [done|]).
  rewrite Htext, list_ascii_of_string_of_list_ascii,
    ArmorFacts.armor_Decode_Encode.
  simpl. by rewrite string_of_list_ascii_of_string.
Qed.
End MapValues.

Lemma shown_text_witness :
  exists pre f post fl,
    ["/store/a/.gpg"; "/store/a/a.gpg"] = pre ++ f :: post /\
    item_name (index_item NFKDLatin1.NFKD "/store" f)
    = {| Path := "a"; Username := "a" |} /\
    Forall (fun g => item_name (index_item NFKDLatin1.NFKD "/store" g)
                     <> {| Path := "a"; Username := "a" |}) post /\
    Open Sample.dotgpg_world f = inr fl /\ readErr fl = None /\
    Sample.armored "second"
    = string_of_list_ascii
        (GoArmor.Encode "PGP MESSAGE" (list_ascii_of_string (data fl))) /\
    option_map string_of_list_ascii
      (GoArmor.Decode "PGP MESSAGE" (list_ascii_of_string (Sample.armored "second")))
    = Some (data fl).
Proof.
  apply (shown_text_is_the_armored_file NFKDLatin1.NFKD Sample.dotgpg_world
           "/store" ["/store/a/.gpg"; "/store/a/a.gpg"]
           (map (index_item NFKDLatin1.NFKD "/store")
              ["/store/a/.gpg"; "/store/a/a.gpg"])
           {[ {| Path := "a"; Username := "a" |} := Sample.armored "second" ]}
           [EvOpen "/store/a/.gpg"; EvOpen "/store/a/a.gpg"]).
  - vm_compute; reflexivity.
  - vm_compute; reflexivity.
Defined.

(** * The snapshot that a rebuild installs *)

Module RebuildFacts.
Section Rebuild.
Variable NFKD : string -> string * nat * option error.
Variable Marshal : list item -> string * option error.


Variable again : option error.




End Rebuild.
End RebuildFacts.

Section Snapshot.
Variable NFKD : string -> string * nat * option error.
Variable Marshal : list item -> string * option error.

End Snapshot.

